(** * bleak-retry-connector: connection retry loop and BlueZ device resolver

    A shallow embedding of [src/bleak_retry_connector/__init__.py].

    - Python exceptions are values of type [exn]; a call that may raise
      returns an [Outcome].
    - The BlueZ manager's [_properties] dictionary is a
      [gmap string (gmap string DeviceProps)].
    - The [while True] loop of [establish_connection] is driven by a list
      with one entry per attempt, recording what the outside world does
      on that attempt: the property snapshot the manager shows, the
      outcome of [disconnect_device], the outcome of [connect].  The loop
      leaves a trace of the calls it makes.
    - Awaited input and output (the manager, [connect], [disconnect],
      [disconnect_device], [get_services]) may raise.  Constructors,
      setters, the callbacks and [asyncio.sleep] are taken to return.
    - Strings are byte strings; the paths and messages the module handles
      are ASCII.
    - Logging calls are left out: they have no effect on control flow. *)

From Stdlib Require Import ZArith Lia QArith.
From stdpp Require Import base option list strings gmap.

Local Open Scope string_scope.
Local Open Scope Z_scope.

(** ** Exceptions *)

Module Exc.

(** The exception classes the module distinguishes.  [CancelledError]
    stands for the classes that derive from [BaseException] only. *)
Inductive ExnClass :=
  | TimeoutError          (* asyncio.TimeoutError *)
  | BrokenPipeError
  | EOFError
  | AttributeError
  | BleakError
  | BleakDBusError        (* subclass of BleakError *)
  | BleakNotFoundError    (* subclass of BleakError *)
  | BleakConnectionError  (* subclass of BleakError *)
  | BleakAbortedError     (* subclass of BleakError *)
  | KeyError
  | TypeError
  | ValueError
  | OtherException        (* any other subclass of Exception *)
  | CancelledError.       (* BaseException, not Exception *)

#[global] Instance ExnClass_eq_dec : EqDecision ExnClass.
Proof. solve_decision. Defined.

(** An exception object: its class and [str(exc)]. *)
Record exn := Exn { exn_class : ExnClass; exn_str : string }.

#[global] Instance exn_eq_dec : EqDecision exn.
Proof. solve_decision. Defined.

(** [isinstance(exc, Exception)] *)
Definition is_Exception (c : ExnClass) : bool :=
  match c with
  | CancelledError => false
  | _ => true
  end.

(** [isinstance(exc, BleakError)] *)
Definition is_BleakError (c : ExnClass) : bool :=
  match c with
  | BleakError | BleakDBusError | BleakNotFoundError
  | BleakConnectionError | BleakAbortedError => true
  | _ => false
  end.

(** [isinstance(exc, BLEAK_EXCEPTIONS)], [BLEAK_EXCEPTIONS = (AttributeError, BleakError)] *)
Definition is_BLEAK_EXCEPTIONS (c : ExnClass) : bool :=
  match c with
  | AttributeError => true
  | _ => is_BleakError c
  end.

(** The result of a call: a value, or a raised exception. *)
Inductive Outcome (A : Type) :=
  | Return (a : A)
  | Raise (e : exn).
Arguments Return {A} a.
Arguments Raise {A} e.

#[global] Instance Outcome_ret : MRet Outcome := fun A a => Return a.

#[global] Instance Outcome_bind : MBind Outcome := fun A B f m =>
  match m with
  | Return a => f a
  | Raise e => Raise e
  end.

(** [try: body  except Exception: handler] *)
Definition try_except_Exception {A} (body : Outcome A) (handler : exn -> Outcome A)
  : Outcome A :=
  match body with
  | Return a => Return a
  | Raise e => if is_Exception (exn_class e) then handler e else Raise e
  end.

(** [d[key]] on a dictionary entry that may be missing *)
Definition getitem {A} (key : string) (v : option A) : Outcome A :=
  match v with
  | Some a => Return a
  | None => Raise (Exn KeyError key)
  end.

End Exc.
Export Exc.

(** ** Strings *)

(** [s[0:n]] *)
Fixpoint str_take (n : nat) (s : string) : string :=
  match n, s with
  | S n', String c s' => String c (str_take n' s')
  | _, _ => EmptyString
  end.

(** [s[n:]] *)
Fixpoint str_drop (n : nat) (s : string) : string :=
  match n, s with
  | S n', String _ s' => str_drop n' s'
  | _, _ => s
  end.

(** [needle in hay] on [str] *)
Fixpoint str_in (needle hay : string) : bool :=
  String.prefix needle hay ||
  match hay with
  | EmptyString => false
  | String _ hay' => str_in needle hay'
  end.

(** [any(error in s for error in errors)] *)
Definition any_in (errors : list string) (s : string) : bool :=
  existsb (fun error => str_in error s) errors.
Arguments any_in : simpl never.

(** [f"{i}"] for a one-digit [i] *)
Definition digit_str (i : nat) : string :=
  String (Ascii.ascii_of_nat (48 + i)) EmptyString.

(** ** Constants *)

Definition UNREACHABLE_RSSI : Z := -1000.
Definition BLEAK_DBUS_BACKOFF_TIME : Q := 1 # 4.
Definition RSSI_SWITCH_THRESHOLD : Z := 6.
Definition MAX_TRANSIENT_ERRORS : Z := 9.
Definition MAX_CONNECT_ATTEMPTS : Z := 4.
Definition BLEAK_TIMEOUT : Q := 57 # 4.
Definition BLEAK_SAFETY_TIMEOUT : Q := 63 # 4.
Definition TRANSIENT_ERRORS : list string :=
  ["le-connection-abort-by-local"; "br-connection-canceled"].
Definition DEVICE_MISSING_ERRORS : list string :=
  ["org.freedesktop.DBus.Error.UnknownObject"].
Definition ABORT_ERRORS : list string := TRANSIENT_ERRORS.
Definition ABORT_ADVICE : string :=
  "Interference/range; " +:+
  "External Bluetooth adapter w/extension may help; " +:+
  "Extension cables reduce USB 3 port interference".
Definition DEVICE_MISSING_ADVICE : string :=
  "The device disappeared; " +:+
  "Try restarting the scanner or moving the device closer".

(** [bleak.backends.bluezdbus.defs.DEVICE_INTERFACE]; bleak is an external
    package, the value is the one it declares.  No result below depends
    on the particular string. *)
Definition DEVICE_INTERFACE : string := "org.bluez.Device1".

(** ** Data model *)

(** The property map of one interface of one D-Bus object, restricted to
    the keys the module reads.  [None] is a missing key. *)
Record DeviceProps := {
  Address : option string;
  Alias : option string;
  RSSI : option Z;
  Connected : option bool;
  UUIDs : option (list string);
  ManufacturerData : option (list (Z * list Z))
}.

#[global] Instance DeviceProps_eq_dec : EqDecision DeviceProps.
Proof. solve_decision. Defined.

(** [manager._properties]: path -> interface name -> property map *)
Abbreviation Properties := (gmap string (gmap string DeviceProps)).

(** [BLEDevice.details]: on BlueZ a dict with the keys ["path"] and
    ["props"]; on other backends a tuple of backend objects or a single
    backend object. *)
Inductive Details :=
  | DetailsDict (path : option string) (props : option DeviceProps)
  | DetailsTuple
  | DetailsObject.

#[global] Instance Details_eq_dec : EqDecision Details.
Proof. solve_decision. Defined.

Record BLEDevice := {
  address : string;
  name : string;
  details : Details;
  rssi : option Z;
  uuids : list string;
  manufacturer_data : list (Z * list Z)
}.

#[global] Instance BLEDevice_eq_dec : EqDecision BLEDevice.
Proof. solve_decision. Defined.

(** [isinstance(device.details, dict) and "path" in device.details],
    returning the path when the test succeeds *)
Definition details_path (d : Details) : option string :=
  match d with
  | DetailsDict p _ => p
  | _ => None
  end.

(** ["path" in details] for the three shapes of [details]: a tuple of
    backend objects does not contain the string, an object without the
    container protocol raises. *)
Definition path_in (d : Details) : Outcome bool :=
  match d with
  | DetailsDict p _ => Return (bool_decide (is_Some p))
  | DetailsTuple => Return false
  | DetailsObject => Raise (Exn TypeError "argument of type 'object' is not iterable")
  end.

(** ** Device resolver *)

Module Resolver.

(** [_get_possible_paths] *)
Definition _get_possible_paths (path : string) : list string :=
  map (fun i => str_take 14 path +:+ digit_str i +:+ str_drop 15 path) (seq 0 9).

(** [rssi or UNREACHABLE_RSSI] *)
Definition rssi_or_unreachable (rssi : option Z) : Z :=
  match rssi with
  | Some r => if r =? 0 then UNREACHABLE_RSSI else r
  | None => UNREACHABLE_RSSI
  end.

(** [path in properties and defs.DEVICE_INTERFACE in properties[path]],
    returning the record *)
Definition device_record (properties : Properties) (path : string)
  : option DeviceProps :=
  match properties !! path with
  | Some ifaces => ifaces !! DEVICE_INTERFACE
  | None => None
  end.

(** The condition of the second [continue] of the scan (lines 274-279):
    [rssi_to_beat != UNREACHABLE_RSSI and (not rssi or
     rssi - RSSI_SWITCH_THRESHOLD < device_rssi or rssi < rssi_to_beat)] *)
Definition candidate_rejected (rssi_to_beat device_rssi : Z) (rssi : option Z) : bool :=
  negb (rssi_to_beat =? UNREACHABLE_RSSI) &&
  match rssi with
  | None => true
  | Some r =>
      (r =? 0) || (r - RSSI_SWITCH_THRESHOLD <? device_rssi) || (r <? rssi_to_beat)
  end.

(** One iteration of the [for path in _get_possible_paths(device_path)]
    loop on the pair [(best_path, rssi_to_beat)]. *)
Definition scan_step (properties : Properties) (device_path : string) (device_rssi : Z)
    (st : string * Z) (path : string) : string * Z :=
  if String.eqb path device_path then st
  else match device_record properties path with
       | None => st
       | Some rec =>
           if candidate_rejected (snd st) device_rssi (RSSI rec) then st
           else (path, rssi_or_unreachable (RSSI rec))
       end.

Definition scan (properties : Properties) (device_path : string) (device_rssi : Z)
    (paths : list string) (st : string * Z) : string * Z :=
  fold_left (scan_step properties device_path device_rssi) paths st.

(** The state of the scan is well formed: either nothing was adopted
    yet, or the incumbent is a sibling with a device record and
    [rssi_to_beat] was read from that record. *)
Definition scan_inv (properties : Properties) (device_path : string)
    (st : string * Z) : Prop :=
  fst st = device_path \/
  (fst st <> device_path /\
   exists rec, device_record properties (fst st) = Some rec /\
               snd st = rssi_or_unreachable (RSSI rec)).

(** [rssi_to_beat = device_rssi] after the disappearance test (lines 251-264) *)
Definition initial_rssi (properties : Properties) (path : string) (rssi : option Z) : Z :=
  match device_record properties path with
  | Some _ => rssi_or_unreachable rssi
  | None => UNREACHABLE_RSSI
  end.

(** [bytes(v)] on an iterable of integers *)
Definition bytes (v : list Z) : Outcome (list Z) :=
  if forallb (fun b => (0 <=? b) && (b <? 256)) v then Return v
  else Raise (Exn ValueError "bytes must be in range(0, 256)").

(** [{k: bytes(v) for k, v in items}] *)
Fixpoint manufacturer_bytes (items : list (Z * list Z)) : Outcome (list (Z * list Z)) :=
  match items with
  | [] => Return []
  | (k, v) :: rest =>
      b ← bytes v;
      rest' ← manufacturer_bytes rest;
      Return ((k, b) :: rest')
  end.

(** The body of the [try] block of [get_bluez_device].  [manager] is the
    outcome of [await get_global_bluez_manager()] followed by reading
    [_properties]. *)
Definition get_bluez_device_try (manager : Outcome Properties)
    (path : string) (rssi : option Z) : Outcome (option BLEDevice) :=
  properties ← manager;
  let device_rssi := initial_rssi properties path rssi in
  let '(best_path, rssi_to_beat) :=
    scan properties path device_rssi (_get_possible_paths path) (path, device_rssi) in
  if String.eqb best_path path then Return None
  else
    props ← getitem DEVICE_INTERFACE (device_record properties best_path);
    addr ← getitem "Address" (Address props);
    alias ← getitem "Alias" (Alias props);
    mdata ← manufacturer_bytes (default [] (ManufacturerData props));
    Return (Some {| address := addr;
                    name := alias;
                    details := DetailsDict (Some best_path) (Some props);
                    rssi := Some rssi_to_beat;
                    uuids := default [] (UUIDs props);
                    manufacturer_data := mdata |}).

(** [get_bluez_device] *)
Definition get_bluez_device (manager : Outcome Properties)
    (path : string) (rssi : option Z) : Outcome (option BLEDevice) :=
  try_except_Exception (get_bluez_device_try manager path rssi)
                       (fun _ => Return None).

(** [freshen_ble_device] *)
Definition freshen_ble_device (manager : Outcome Properties) (device : BLEDevice)
  : Outcome (option BLEDevice) :=
  match details_path (details device) with
  | None => Return None
  | Some path => get_bluez_device manager path (rssi device)
  end.

End Resolver.
Export Resolver.

(** ** Platform *)

(** The module-level flags computed at import time. *)
Record Platform := {
  IS_LINUX : bool;
  BLEAK_HAS_SERVICE_CACHE_SUPPORT : bool
}.

(** [IS_LINUX = CAN_CACHE_SERVICES = platform.system() == "Linux"] *)
Definition CAN_CACHE_SERVICES (pf : Platform) : bool := IS_LINUX pf.

(** A [BleakGATTServiceCollection]; the module never looks inside. *)
Inductive ServiceCollection := Services (service_uuids : list string).

#[global] Instance ServiceCollection_eq_dec : EqDecision ServiceCollection.
Proof. solve_decision. Defined.

(** ** The caching client *)

Module ServiceCache.

(** The attributes of a [BleakClientWithServiceCache] that [get_services]
    reads or writes. *)
Record CacheClient := {
  _cached_services : option ServiceCollection;
  services : option ServiceCollection;
  _services_resolved : bool
}.

(** The calls [get_services] makes on the transport. *)
Inductive Call :=
  | CallSuperGetServices
  | CallDisconnect.

#[global] Instance Call_eq_dec : EqDecision Call.
Proof. solve_decision. Defined.

(** [_has_service_cache]; the test on [_cached_services] comes last, as
    in the source, and the cached collection is returned with it. *)
Definition _has_service_cache (pf : Platform) (self : CacheClient)
  : option ServiceCollection :=
  if negb (BLEAK_HAS_SERVICE_CACHE_SUPPORT pf) && CAN_CACHE_SERVICES pf
  then _cached_services self
  else None.

(** [set_cached_services] *)
Definition set_cached_services (self : CacheClient) (s : option ServiceCollection)
  : CacheClient :=
  {| _cached_services := s;
     services := services self;
     _services_resolved := _services_resolved self |}.

(** [BleakClientWithServiceCache.get_services].  [super_get_services] is
    the outcome of [await super().get_services(...)] and [disconnect] the
    outcome of [await self.disconnect()], should they be awaited.  The
    result is the calls made in order, the client afterwards, and what
    the caller sees. *)
Definition get_services (pf : Platform) (self : CacheClient)
    (super_get_services : Outcome ServiceCollection) (disconnect : Outcome unit)
  : list Call * CacheClient * Outcome ServiceCollection :=
  match _has_service_cache pf self with
  | Some cached =>
      ([],
       {| _cached_services := _cached_services self;
          services := Some cached;
          _services_resolved := true |},
       Return cached)
  | None =>
      match super_get_services with
      | Return s => ([CallSuperGetServices], self, Return s)
      | Raise e =>
          if is_Exception (exn_class e) then
            (* except Exception: await self.disconnect(); raise *)
            ([CallSuperGetServices; CallDisconnect], self,
             match disconnect with
             | Return _ => Raise e
             | Raise e' => Raise e'
             end)
          else ([CallSuperGetServices], self, Raise e)
      end
  end.

End ServiceCache.

(** ** The retry loop *)

Module Connector.

(** [client_class]: whether its instances are
    [BleakClientWithServiceCache] objects. *)
Inductive ClientClass :=
  | PlainClient
  | ServiceCacheClient.

(** A client object.  [client_id] is the object's identity: the number
    of clients built before it in the same call. *)
Record Client := {
  client_id : nat;
  client_device : BLEDevice;
  client_disconnected_callback : bool;
  client_cached_services : option ServiceCollection
}.

#[global] Instance Client_eq_dec : EqDecision Client.
Proof. solve_decision. Defined.

(** The arguments of one call of [establish_connection].
    [ble_device_callback], when given, is a function of the number of the
    attempt that calls it. *)
Record Args := {
  client_class : ClientClass;
  arg_device : BLEDevice;
  arg_name : string;
  disconnected_callback : bool;
  max_attempts : Z;
  cached_services : option ServiceCollection;
  ble_device_callback : option (Z -> BLEDevice)
}.

(** What the outside world does during one attempt. *)
Record Attempt := {
  (* [get_global_bluez_manager()._properties] during this attempt *)
  att_manager : Outcome Properties;
  (* outcome of [disconnect_device(device)], should it be awaited *)
  att_disconnect_device : Outcome unit;
  (* outcome of [client.connect(...)] under the safety timeout *)
  att_connect : Outcome bool
}.

(** What the loop does to the outside world. *)
Inductive Event :=
  | EvConstruct (id : nat) (device : BLEDevice)
  | EvSetDisconnectedCallback (id : nat)
  | EvSetCachedServices (id : nat) (s : ServiceCollection)
  | EvDisconnectDevice (device : BLEDevice)
  | EvConnect (id : nat) (dangerous_use_bleak_cache : bool)
  | EvSleep (seconds : Q).

(** The local variables of [establish_connection]. *)
Record LoopState := {
  timeouts : Z;
  connect_errors : Z;
  transient_errors : Z;
  attempt : Z;
  can_use_cached_services : bool;
  create_client : bool;
  device : BLEDevice;
  client : option Client;
  constructed : nat   (* number of clients built so far *)
}.

(** A computation that leaves a trace of events and returns or raises. *)
Definition Run (A : Type) : Type := list Event * Outcome A.

#[global] Instance Run_ret : MRet Run := fun A a => ([], Return a).

#[global] Instance Run_bind : MBind Run := fun A B f m =>
  match m with
  | (t, Return a) => let '(t', r) := f a in ((t ++ t')%list, r)
  | (t, Raise e) => (t, Raise e)
  end.

Definition emit (ev : Event) : Run unit := ([ev], Return tt).
Definition lift {A} (o : Outcome A) : Run A := ([], o).
Definition when (b : bool) (m : Run unit) : Run unit :=
  if b then m else ([], Return tt).

(** [ble_device_has_changed] *)
Definition ble_device_has_changed (original new : BLEDevice) : Outcome bool :=
  if negb (String.eqb (address original) (address new)) then Return true
  else match details_path (details original) with
       | None => Return false
       | Some original_path =>
           in_new ← path_in (details new);
           if (in_new : bool) then
             new_path ← getitem "path" (details_path (details new));
             Return (negb (String.eqb original_path new_path))
           else Return false
       end.

(** [ble_device_description] *)
Definition ble_device_description (device : BLEDevice) : string :=
  match details_path (details device) with
  | Some path => path
  | None => address device
  end.

(** [device_is_connected] *)
Definition device_is_connected (manager : Outcome Properties) (device : BLEDevice)
  : Outcome bool :=
  match details_path (details device) with
  | None => Return false
  | Some path =>
      try_except_Exception
        (properties ← manager;
         ifaces ← getitem path (properties !! path);
         props ← getitem DEVICE_INTERFACE (ifaces !! DEVICE_INTERFACE);
         Return (default false (Connected props)))
        (fun _ => Return false)
  end.

Section establish_connection.

Variable pf : Platform.
Variable a : Args.

(** [_raise_if_needed], on the counters it closes over *)
Definition _raise_if_needed (st : LoopState) (description : string) (exc : exn)
  : Outcome unit :=
  if (timeouts st + connect_errors st <? max_attempts a)
     && (transient_errors st <? MAX_TRANSIENT_ERRORS)
  then Return tt
  else
    let msg := arg_name a +:+ " - " +:+ description +:+ ": Failed to connect: "
               +:+ exn_str exc in
    if bool_decide (exn_class exc = TimeoutError) || str_in "not found" (exn_str exc)
    then Raise (Exn BleakNotFoundError msg)
    else if is_BleakError (exn_class exc) && any_in ABORT_ERRORS (exn_str exc)
    then Raise (Exn BleakAbortedError (msg +:+ ": " +:+ ABORT_ADVICE))
    else if is_BleakError (exn_class exc) && any_in DEVICE_MISSING_ERRORS (exn_str exc)
    then Raise (Exn BleakNotFoundError (msg +:+ ": " +:+ DEVICE_MISSING_ADVICE))
    else Raise (Exn BleakConnectionError msg).

(** Lines 392-402: build a client for [dev] *)
Definition build_client (st : LoopState) (can_use : bool) (dev : BLEDevice)
  : Run Client :=
  let id := constructed st in
  _ ← emit (EvConstruct id dev);
  _ ← when (disconnected_callback a) (emit (EvSetDisconnectedCallback id));
  let seed :=
    match cached_services a, client_class a with
    | Some s, ServiceCacheClient => if can_use then Some s else None
    | _, _ => None
    end in
  _ ← match seed with
      | Some s => emit (EvSetCachedServices id s)
      | None => mret tt
      end;
  mret {| client_id := id;
          client_device := dev;
          client_disconnected_callback := disconnected_callback a;
          client_cached_services := seed |}.

(** The counters after the [except] clause that catches [exc], and
    whether that clause sleeps for [BLEAK_DBUS_BACKOFF_TIME]; [None] when
    no clause catches [exc]. *)
Definition classify (st : LoopState) (exc : exn) : option (LoopState * bool) :=
  let bump t c tr :=
    {| timeouts := timeouts st + t;
       connect_errors := connect_errors st + c;
       transient_errors := transient_errors st + tr;
       attempt := attempt st;
       can_use_cached_services := can_use_cached_services st;
       create_client := create_client st;
       device := device st;
       client := client st;
       constructed := constructed st |} in
  match exn_class exc with
  | TimeoutError => Some (bump 1 0 0, false)
  | BrokenPipeError => Some (bump 0 0 1, false)
  | EOFError => Some (bump 0 0 1, true)
  | c =>
      if is_BLEAK_EXCEPTIONS c then
        Some (if any_in TRANSIENT_ERRORS (exn_str exc) then bump 0 0 1 else bump 0 1 0,
              bool_decide (c = BleakDBusError))
      else None
  end.

(** What one pass through the body of [while True] leaves behind. *)
Inductive LoopStatus :=
  | Looping (st : LoopState)
  | Returned (c : Client).

(** Lines 366-377: the device of this attempt, and whether cached
    services may still be used *)
Definition current_device (st : LoopState) (env : Attempt) : Outcome (BLEDevice * bool) :=
  let device1 :=
    match ble_device_callback a with
    | Some callback => callback (attempt st + 1)
    | None => device st
    end in
  fresh ← freshen_ble_device (att_manager env) device1;
  mret (match fresh with
        | Some fresh_device => (fresh_device, false)
        | None => (device1, can_use_cached_services st)
        end).

(** Lines 379-380: [create_client] once the device of this attempt is known *)
Definition client_needed (st : LoopState) (device2 : BLEDevice) : Outcome bool :=
  if create_client st then Return true
  else ble_device_has_changed (device st) device2.

(** Lines 404-406: close a connection left over on the device *)
Definition close_stale (env : Attempt) (device2 : BLEDevice) : Run unit :=
  stale ← lift (if IS_LINUX pf then device_is_connected (att_manager env) device2
                else Return false);
  when stale (_ ← emit (EvDisconnectDevice device2);
              lift (att_disconnect_device env)).

(** Lines 366-406: everything before the [try] *)
Definition prepare (st : LoopState) (env : Attempt) : Run (LoopState * Client) :=
  '(device2, can_use) ← lift (current_device st env);
  create ← lift (client_needed st device2);
  client' ← (if (create : bool) then build_client st can_use device2
             else lift (getitem "client" (client st)));
  _ ← close_stale env device2;
  mret ({| timeouts := timeouts st;
           connect_errors := connect_errors st;
           transient_errors := transient_errors st;
           attempt := attempt st + 1;
           can_use_cached_services := can_use;
           create_client := false;
           device := device2;
           client := Some client';
           constructed := if (create : bool) then S (constructed st) else constructed st |},
        client').

(** Lines 408-496: the [try] statement and the final yield *)
Definition attempt_connect (st : LoopState) (c : Client) (env : Attempt)
  : Run LoopStatus :=
  _ ← emit (EvConnect (client_id c) (bool_decide (is_Some (cached_services a))));
  match att_connect env with
  | Return _ => mret (Returned c)
  | Raise exc =>
      match classify st exc with
      | None => lift (Raise exc)
      | Some (st', backoff) =>
          _ ← when backoff (emit (EvSleep BLEAK_DBUS_BACKOFF_TIME));
          _ ← lift (_raise_if_needed st' (ble_device_description (device st)) exc);
          _ ← emit (EvSleep 0);
          mret (Looping st')
      end
  end.

(** One pass through the body of [while True] *)
Definition iteration (st : LoopState) (env : Attempt) : Run LoopStatus :=
  '(st', c) ← prepare st env;
  attempt_connect st' c env.

(** The loop, for as many passes as [script] has entries *)
Fixpoint loop (script : list Attempt) (st : LoopState) : Run LoopStatus :=
  match script with
  | [] => mret (Looping st)
  | env :: rest =>
      r ← iteration st env;
      match r with
      | Looping st' => loop rest st'
      | Returned c => mret (Returned c)
      end
  end.

(** The local variables before the loop (lines 336-363) *)
Definition initial_state : LoopState :=
  {| timeouts := 0;
     connect_errors := 0;
     transient_errors := 0;
     attempt := 0;
     can_use_cached_services := true;
     create_client := true;
     device := arg_device a;
     client := None;
     constructed := 0%nat |}.

(** [establish_connection] against the attempts of [script] *)
Definition establish_connection (script : list Attempt) : Run LoopStatus :=
  loop script initial_state.

End establish_connection.

(** *** Vocabulary for the statements about the loop *)

(** The three classes [_raise_if_needed] raises. *)
Definition is_terminal (c : ExnClass) : bool :=
  match c with
  | BleakNotFoundError | BleakAbortedError | BleakConnectionError => true
  | _ => false
  end.

(** The failures of [connect] that the [except] clauses count as
    transient: [BrokenPipeError], [EOFError], and a [BLEAK_EXCEPTIONS]
    instance whose message holds one of [TRANSIENT_ERRORS]. *)
Definition is_transient_failure (exc : exn) : bool :=
  match exn_class exc with
  | BrokenPipeError | EOFError => true
  | c => is_BLEAK_EXCEPTIONS c && any_in TRANSIENT_ERRORS (exn_str exc)
  end.

Definition is_timeout (exc : exn) : bool :=
  bool_decide (exn_class exc = TimeoutError).

(** The condition under which [_raise_if_needed] returns. *)
Definition within_budget (a : Args) (st : LoopState) : Prop :=
  timeouts st + connect_errors st < max_attempts a /\
  transient_errors st < MAX_TRANSIENT_ERRORS.

(** An attempt in which nothing before [connect] raises out of the loop:
    reading the manager raises at most an [Exception], and
    [disconnect_device], if awaited, returns. *)
Definition calm (env : Attempt) : Prop :=
  (forall e, att_manager env = Raise e -> is_Exception (exn_class e) = true) /\
  att_disconnect_device env = Return tt.

(** A calm attempt whose [connect] raises an exception satisfying [P]. *)
Definition fails_with (P : exn -> bool) (env : Attempt) : Prop :=
  calm env /\ exists exc, att_connect env = Raise exc /\ P exc = true.

(** The devices [ble_device_callback] hands out have [details] on which
    [in] is defined. *)
Definition callback_details_iterable (a : Args) : Prop :=
  forall callback k, ble_device_callback a = Some callback ->
                     details (callback k) <> DetailsObject.

(** The [except] clause that catches an exception satisfying [P] adds
    [dt], [dc] and [dtr] to the three counters. *)
Definition counted (P : exn -> bool) (dt dc dtr : Z) : Prop :=
  forall s exc, P exc = true ->
    exists s1 backoff, classify s exc = Some (s1, backoff) /\
      timeouts s1 = timeouts s + dt /\
      connect_errors s1 = connect_errors s + dc /\
      transient_errors s1 = transient_errors s + dtr.

(** The local variable [client] is bound whenever it is going to be read. *)
Definition client_bound (st : LoopState) : Prop :=
  create_client st = true \/ is_Some (client st).

(** The identity of the client built last in a trace, [cur] being the one
    built last before it. *)
Fixpoint last_built (cur : option nat) (t : list Event) : option nat :=
  match t with
  | [] => cur
  | EvConstruct id _ :: t' => last_built (Some id) t'
  | _ :: t' => last_built cur t'
  end.

(** Every call made on a client in the trace is made on the client built
    last. *)
Fixpoint one_live_client (cur : option nat) (t : list Event) : bool :=
  match t with
  | [] => true
  | EvConstruct id _ :: t' => one_live_client (Some id) t'
  | EvSetDisconnectedCallback id :: t'
  | EvSetCachedServices id _ :: t'
  | EvConnect id _ :: t' => bool_decide (cur = Some id) && one_live_client cur t'
  | _ :: t' => one_live_client cur t'
  end.

Definition is_construct (ev : Event) : bool :=
  match ev with EvConstruct _ _ => true | _ => false end.

Definition is_sleep (ev : Event) : bool :=
  match ev with EvSleep _ => true | _ => false end.

End Connector.
Export Connector.

(** ** Concrete inputs used below *)

Module Examples.

Definition record (addr alias : string) (signal : option Z) : DeviceProps :=
  {| Address := Some addr; Alias := Some alias; RSSI := signal;
     Connected := None; UUIDs := None; ManufacturerData := None |}.

Definition hci0 : string := "/org/bluez/hci0/dev_X".
Definition hci1 : string := "/org/bluez/hci1/dev_X".
Definition hci2 : string := "/org/bluez/hci2/dev_X".
Definition hci5 : string := "/org/bluez/hci5/dev_X".


(** [hci0] at -60 and [hci1] exactly [RSSI_SWITCH_THRESHOLD] above it. *)
Definition snapshot_threshold : Properties :=
  {[ hci0 := {[ DEVICE_INTERFACE := record "X" "x" (Some (-60)) ]};
     hci1 := {[ DEVICE_INTERFACE := record "X" "x" (Some (-54)) ]} ]}.

(** [hci0] at -60 and [hci1] weaker. *)
Definition snapshot_best : Properties :=
  {[ hci0 := {[ DEVICE_INTERFACE := record "X" "x" (Some (-60)) ]};
     hci1 := {[ DEVICE_INTERFACE := record "X" "x" (Some (-70)) ]} ]}.

(** [hci2] is gone, [hci5] is there and reports a signal strength of 0. *)
Definition snapshot_zero : Properties :=
  {[ hci5 := {[ DEVICE_INTERFACE := record "X" "x" (Some 0) ]} ]}.

Definition handle (path : string) (signal : option Z) : BLEDevice :=
  {| address := "X"; name := "x";
     details := DetailsDict (Some path) (Some (record "X" "x" signal));
     rssi := Some (rssi_or_unreachable signal);
     uuids := []; manufacturer_data := [] |}.

Definition linux : Platform :=
  {| IS_LINUX := true; BLEAK_HAS_SERVICE_CACHE_SUPPORT := false |}.

Definition stale_device : BLEDevice :=
  {| address := "X"; name := "x";
     details := DetailsDict (Some hci0) None;
     rssi := Some (-60); uuids := []; manufacturer_data := [] |}.

Definition moved_device : BLEDevice :=
  {| address := "X"; name := "x";
     details := DetailsDict (Some hci1) None;
     rssi := Some (-60); uuids := []; manufacturer_data := [] |}.

(** Default arguments: [max_attempts = MAX_CONNECT_ATTEMPTS], no cache,
    no callbacks. *)
Definition default_args : Args :=
  {| client_class := ServiceCacheClient;
     arg_device := stale_device;
     arg_name := "x";
     disconnected_callback := false;
     max_attempts := MAX_CONNECT_ATTEMPTS;
     cached_services := None;
     ble_device_callback := None |}.

(** An attempt on an empty property snapshot whose [connect] raises [exc]. *)
Definition failing (exc : exn) : Attempt :=
  {| att_manager := Return ∅;
     att_disconnect_device := Return tt;
     att_connect := Raise exc |}.

Definition timeout : exn := Exn TimeoutError "".
Definition broken_pipe : exn := Exn BrokenPipeError "[Errno 32] Broken pipe".
Definition end_of_stream : exn := Exn EOFError "".

Definition cache_client : ServiceCache.CacheClient :=
  {| ServiceCache._cached_services := None;
     ServiceCache.services := None;
     ServiceCache._services_resolved := false |}.

Definition first_client : Client :=
  {| client_id := 0%nat;
     client_device := stale_device;
     client_disconnected_callback := false;
     client_cached_services := None |}.

(** The local variables after one timed-out attempt on [stale_device]. *)
Definition after_one_timeout : LoopState :=
  {| timeouts := 1;
     connect_errors := 0;
     transient_errors := 0;
     attempt := 1;
     can_use_cached_services := true;
     create_client := false;
     device := stale_device;
     client := Some first_client;
     constructed := 1%nat |}.

(** As [default_args], with a callback that reports the device on
    another adapter. *)
Definition roaming_args : Args :=
  {| client_class := ServiceCacheClient;
     arg_device := stale_device;
     arg_name := "x";
     disconnected_callback := false;
     max_attempts := MAX_CONNECT_ATTEMPTS;
     cached_services := None;
     ble_device_callback := Some (fun _ => moved_device) |}.

End Examples.

(** ** The rest of the module *)

(** *** Looking a device up by address *)

Module Lookup.

Import Stdlib.Strings.Ascii.

(** [c.upper()] on an ASCII character *)
Definition ascii_upper (c : Ascii.ascii) : Ascii.ascii :=
  let n := Ascii.nat_of_ascii c in
  if ((97 <=? n) && (n <=? 122))%nat then Ascii.ascii_of_nat (n - 32) else c.

(** [s.upper()] on an ASCII string *)
Fixpoint str_upper (s : string) : string :=
  match s with
  | EmptyString => EmptyString
  | String c s' => String (ascii_upper c) (str_upper s')
  end.

(** [s.replace(old, new)] for one-character [old] and [new] *)
Fixpoint str_replace (old new : Ascii.ascii) (s : string) : string :=
  match s with
  | EmptyString => EmptyString
  | String c s' =>
      String (if Ascii.eqb c old then new else c) (str_replace old new s')
  end.

(** [address_to_bluez_path] *)
Definition address_to_bluez_path (address : string) : string :=
  "/org/bluez/hciX/dev_" +:+ str_replace ":"%char "_"%char (str_upper address).

(** [get_device] *)
Definition get_device (pf : Platform) (manager : Outcome Properties) (address : string)
  : Outcome (option BLEDevice) :=
  if IS_LINUX pf then get_bluez_device manager (address_to_bluez_path address) None
  else Return None.

(** The path of [address] under adapter [i] *)
Definition adapter_path (i : nat) (address : string) : string :=
  "/org/bluez/hci" +:+ digit_str i +:+ "/dev_" +:+ str_replace ":"%char "_"%char (str_upper address).

End Lookup.
Export Lookup.

(** *** Bounds kept by the scan *)

Module ResolverMore.

(** What the scan of [get_bluez_device] has established after examining
    the paths [seen]: [rssi_to_beat] is not below the sentinel nor below
    the strength of the original; once a sibling is adopted it is the
    sentinel or at least [RSSI_SWITCH_THRESHOLD] above the original; and
    every sibling seen is no stronger than [rssi_to_beat], or short of
    the threshold. *)
Definition scan_bounds (properties : Properties) (device_path : string)
    (device_rssi : Z) (seen : list string) (st : string * Z) : Prop :=
  UNREACHABLE_RSSI <= snd st /\
  device_rssi <= snd st /\
  (fst st <> device_path ->
     snd st = UNREACHABLE_RSSI \/ device_rssi + RSSI_SWITCH_THRESHOLD <= snd st) /\
  (forall q rec, q ∈ seen -> q <> device_path ->
     device_record properties q = Some rec ->
     rssi_or_unreachable (RSSI rec) <= snd st \/
     rssi_or_unreachable (RSSI rec) < device_rssi + RSSI_SWITCH_THRESHOLD).

(** The signal strengths the sibling records of [path] report are 0 or
    at least [RSSI_SWITCH_THRESHOLD] above the sentinel. *)
Definition plausible_rssi (properties : Properties) (path : string) : Prop :=
  forall q rec s, q ∈ _get_possible_paths path -> q <> path ->
    device_record properties q = Some rec -> RSSI rec = Some s ->
    s = 0 \/ UNREACHABLE_RSSI + RSSI_SWITCH_THRESHOLD <= s.

End ResolverMore.
Export ResolverMore.

(** *** Further concrete inputs *)

Module MoreExamples.
Import Examples.

(** [hci2] is gone; [hci5] is there but its record has no ["Alias"]. *)
Definition snapshot_nameless : Properties :=
  {[ hci5 := {[ DEVICE_INTERFACE :=
                  {| Address := Some "X"; Alias := None; RSSI := Some (-40);
                     Connected := None; UUIDs := None; ManufacturerData := None |} ]} ]}.

(** The device with address [aa:bb] is known to adapter 3 only. *)
Definition snapshot_adapter3 : Properties :=
  {[ "/org/bluez/hci3/dev_AA_BB" :=
       {[ DEVICE_INTERFACE := record "AA:BB" "x" (Some (-70)) ]} ]}.

(** The caller supplies cached services. *)
Definition caching_args : Args :=
  {| client_class := ServiceCacheClient;
     arg_device := stale_device;
     arg_name := "x";
     disconnected_callback := true;
     max_attempts := MAX_CONNECT_ATTEMPTS;
     cached_services := Some (Services ["180f"]);
     ble_device_callback := None |}.

(** [hci0] is the strongest path; [hci1] is far weaker. *)
Definition snapshot_weaker_sibling : Properties :=
  {[ hci0 := {[ DEVICE_INTERFACE := record "X" "x" (Some (-40)) ]};
     hci1 := {[ DEVICE_INTERFACE := record "X" "x" (Some (-90)) ]} ]}.

(** Neither [hci0] nor [hci1] reports a signal strength. *)
Definition snapshot_silent : Properties :=
  {[ hci0 := {[ DEVICE_INTERFACE := record "X" "x" None ]};
     hci1 := {[ DEVICE_INTERFACE := record "X" "x" None ]} ]}.

(** [hci0] holds a live connection. *)
Definition snapshot_connected : Properties :=
  {[ hci0 := {[ DEVICE_INTERFACE :=
                  {| Address := Some "X"; Alias := Some "x"; RSSI := Some (-60);
                     Connected := Some true; UUIDs := None;
                     ManufacturerData := None |} ]} ]}.

(** A client whose cache was filled by an earlier connection. *)
Definition warm_client : ServiceCache.CacheClient :=
  {| ServiceCache._cached_services := Some (Services ["1800"]);
     ServiceCache.services := None;
     ServiceCache._services_resolved := false |}.

(** bleak caches services itself. *)
Definition native_linux : Platform :=
  {| IS_LINUX := true; BLEAK_HAS_SERVICE_CACHE_SUPPORT := true |}.

(** An attempt during which [hci1] shows up stronger than [hci0], and
    whose [connect] times out. *)
Definition roaming_timeout : Attempt :=
  {| att_manager := Return snapshot_threshold;
     att_disconnect_device := Return tt;
     att_connect := Raise timeout |}.

End MoreExamples.

(** *** Connecting the caching client *)

Module ServiceCacheConnect.
Import ServiceCache.

(** [bleak.backends.bluezdbus.defs.GATT_SERVICE_INTERFACE], as bleak
    declares it. *)
Definition GATT_SERVICE_INTERFACE : string := "org.bluez.GattService1".

(** The test of the [for] loop of [_services_vanished] on one item of
    [manager._properties] *)
Definition is_service_of (device_path : string)
    (item : string * gmap string DeviceProps) : bool :=
  String.prefix device_path (fst item)
  && bool_decide (is_Some (snd item !! GATT_SERVICE_INTERFACE)).

(** [_services_vanished].  [device_path] is the outcome of reading
    [self._device_path]. *)
Definition _services_vanished (device_path : Outcome string)
    (manager : Outcome Properties) : Outcome bool :=
  try_except_Exception
    (path ← device_path;
     properties ← manager;
     Return (negb (existsb (is_service_of path) (map_to_list properties))))
    (fun _ => Return true).

(** [BleakClientWithServiceCache.connect].  [super_connect] is the
    outcome of [await super().connect(...)]: the value returned and the
    attribute [self.services] after the call.  The result is the client
    afterwards and what the caller sees. *)
Definition connect (pf : Platform) (self : CacheClient)
    (device_path : Outcome string) (manager : Outcome Properties)
    (super_connect : Outcome (bool * option ServiceCollection))
    (dangerous_use_bleak_cache : bool) : CacheClient * Outcome bool :=
  match
    (match _has_service_cache pf self with
     | Some _ => _services_vanished device_path manager
     | None => Return false
     end)
  with
  | Raise e => (self, Raise e)
  | Return vanished =>
      let self1 := if vanished then set_cached_services self None else self in
      match super_connect with
      | Raise e => (self1, Raise e)
      | Return (connected, discovered) =>
          let self2 :=
            {| _cached_services := _cached_services self1;
               services := discovered;
               _services_resolved := _services_resolved self1 |} in
          (if connected && negb dangerous_use_bleak_cache
              && negb (BLEAK_HAS_SERVICE_CACHE_SUPPORT pf)
           then set_cached_services self2 discovered
           else self2,
           Return connected)
      end
  end.

End ServiceCacheConnect.

(** *** Closing stale connections, and counting failures *)

Module ConnectorMore.

(** [close_stale_connections].  [disconnect] is the outcome of
    [await disconnect_device(device)], should it be awaited. *)
Definition close_stale_connections (pf : Platform) (manager : Outcome Properties)
    (disconnect : Outcome unit) (device : BLEDevice) : Run unit :=
  stale ← lift (if IS_LINUX pf then device_is_connected manager device
                else Return false);
  when stale (_ ← emit (EvDisconnectDevice device); lift disconnect).

(** A transport or attribute error without a transient error code: the
    [else] branch of the last [except] clause. *)
Definition is_connect_error (exc : exn) : bool :=
  is_BLEAK_EXCEPTIONS (exn_class exc)
  && negb (any_in TRANSIENT_ERRORS (exn_str exc)).

(** The failures counted against [max_attempts]. *)
Definition is_hard_failure (exc : exn) : bool :=
  is_timeout exc || is_connect_error exc.

(** The failures one of the [except] clauses catches. *)
Definition is_handled (exc : exn) : bool :=
  is_hard_failure exc || is_transient_failure exc.

(** The number of attempts of [script] whose [connect] raises an
    exception satisfying [P]. *)
Definition failures (P : exn -> bool) (script : list Attempt) : Z :=
  Z.of_nat (length (List.filter
                      (fun env => match att_connect env with
                                  | Raise exc => P exc
                                  | Return _ => false
                                  end) script)).

Definition is_connect (ev : Event) : bool :=
  match ev with EvConnect _ _ => true | _ => false end.

(** The values of [dangerous_use_bleak_cache] passed to [connect] in a
    trace, one for each call, in order. *)
Fixpoint connect_flags (t : list Event) : list bool :=
  match t with
  | [] => []
  | EvConnect _ flag :: t' => flag :: connect_flags t'
  | _ :: t' => connect_flags t'
  end.

(** The collections handed to [set_cached_services] in a trace, in
    order. *)
Fixpoint seeds (t : list Event) : list ServiceCollection :=
  match t with
  | [] => []
  | EvSetCachedServices _ s :: t' => s :: seeds t'
  | _ :: t' => seeds t'
  end.

(** An attempt on an empty snapshot whose [connect] returns. *)
Definition succeeding : Attempt :=
  {| att_manager := Return ∅;
     att_disconnect_device := Return tt;
     att_connect := Return true |}.

End ConnectorMore.
Export ConnectorMore.

(** * Properties of the device resolver *)

Section scan_facts.

Variable properties : Properties.
Variable device_path : string.
Variable device_rssi : Z.

Local Abbreviation step := (scan_step properties device_path device_rssi).
Local Abbreviation scanl := (scan properties device_path device_rssi).

Lemma scan_step_self st : step st device_path = st.
Proof. unfold scan_step. by rewrite String.eqb_refl. Qed.

Lemma scan_step_absent st p : device_record properties p = None -> step st p = st.
Proof. intros H. unfold scan_step. rewrite H. by destruct (String.eqb p device_path). Qed.

Lemma scan_step_present st p rec :
  p <> device_path ->
  device_record properties p = Some rec ->
  step st p =
    if candidate_rejected (snd st) device_rssi (RSSI rec) then st
    else (p, rssi_or_unreachable (RSSI rec)).
Proof.
  intros Hne Hrec. unfold scan_step.
  destruct (String.eqb_spec p device_path) as [->|_]; [done|].
  by rewrite Hrec.
Qed.

Lemma scan_nil st : scanl [] st = st.
Proof. reflexivity. Qed.

Lemma scan_cons p l st : scanl (p :: l) st = scanl l (step st p).
Proof. reflexivity. Qed.

Local Abbreviation inv := (scan_inv properties device_path).

Lemma scan_step_inv st p : inv st -> inv (step st p).
Proof.
  intros Hinv.
  destruct (String.eqb_spec p device_path) as [->|Hne].
  { by rewrite scan_step_self. }
  destruct (device_record properties p) as [rec|] eqn:Hrec.
  - rewrite (scan_step_present _ _ rec) by done.
    destruct (candidate_rejected _ _ _); [done|].
    right. simpl. split; [done|]. by exists rec.
  - by rewrite scan_step_absent.
Qed.

Lemma scan_inv_preserved l st : inv st -> inv (scanl l st).
Proof.
  revert st. induction l as [|p l IH]; intros st Hinv; [done|].
  rewrite scan_cons. apply IH. by apply scan_step_inv.
Qed.

(** Once a sibling was adopted the incumbent is never the original path
    again. *)
Lemma scan_step_keeps_sibling st p : fst st <> device_path -> fst (step st p) <> device_path.
Proof.
  intros Hst.
  destruct (String.eqb_spec p device_path) as [->|Hne].
  { by rewrite scan_step_self. }
  destruct (device_record properties p) as [rec|] eqn:Hrec.
  - rewrite (scan_step_present _ _ rec) by done.
    by destruct (candidate_rejected _ _ _).
  - by rewrite scan_step_absent.
Qed.

Lemma scan_keeps_sibling l st : fst st <> device_path -> fst (scanl l st) <> device_path.
Proof.
  revert st. induction l as [|p l IH]; intros st Hst; [done|].
  rewrite scan_cons. by apply IH, scan_step_keeps_sibling.
Qed.

(** A scan in which every present sibling is rejected against [st]
    leaves [st] as it is. *)
Lemma scan_all_rejected l st :
  (forall p rec, p ∈ l -> p <> device_path -> device_record properties p = Some rec ->
                 candidate_rejected (snd st) device_rssi (RSSI rec) = true) ->
  scanl l st = st.
Proof.
  induction l as [|p l IH]; intros Hrej; [done|].
  rewrite scan_cons.
  assert (step st p = st) as ->.
  { destruct (String.eqb_spec p device_path) as [->|Hne].
    { by rewrite scan_step_self. }
    destruct (device_record properties p) as [rec|] eqn:Hrec.
    - rewrite (scan_step_present _ _ rec) by done.
      rewrite (Hrej p rec); [done| |done..]. apply list_elem_of_here.
    - by rewrite scan_step_absent. }
  apply IH. intros q rec Hq. apply Hrej. by apply list_elem_of_further.
Qed.

(** While the incumbent is the sentinel the first present sibling is
    adopted, so a scan over a list holding one ends on a sibling. *)
Lemma scan_from_sentinel l best :
  (exists p rec, p ∈ l /\ p <> device_path /\ device_record properties p = Some rec) ->
  fst (scanl l (best, UNREACHABLE_RSSI)) <> device_path.
Proof.
  revert best. induction l as [|q l IH]; intros best (p & rec & Hin & Hne & Hrec).
  { by apply elem_of_nil in Hin. }
  rewrite scan_cons.
  destruct (String.eqb_spec q device_path) as [->|Hq].
  { rewrite scan_step_self. apply IH. exists p, rec.
    apply elem_of_cons in Hin as [->|Hin]; done. }
  destruct (device_record properties q) as [rec'|] eqn:Hrec'.
  - rewrite (scan_step_present _ _ rec') by done.
    apply scan_keeps_sibling. by simpl.
  - rewrite scan_step_absent by done. apply IH. exists p, rec.
    apply elem_of_cons in Hin as [->|Hin]; [congruence|done].
Qed.


End scan_facts.

(** ** What [get_bluez_device] returns, in terms of the scan *)

Section get_bluez_device_facts.

Variable properties : Properties.
Variable path : string.
Variable rssi0 : option Z.

Local Abbreviation d := (initial_rssi properties path rssi0).
Local Abbreviation final :=
  (scan properties path d (_get_possible_paths path) (path, d)).

Lemma get_bluez_device_none :
  fst final = path ->
  get_bluez_device (Return properties) path rssi0 = Return None.
Proof.
  intros Hfst. unfold get_bluez_device, get_bluez_device_try, mbind, Outcome_bind.
  destruct final as [best rtb]. simpl in Hfst. subst best.
  by rewrite String.eqb_refl.
Qed.

Lemma get_bluez_device_built rec a n md :
  fst final <> path ->
  device_record properties (fst final) = Some rec ->
  Address rec = Some a -> Alias rec = Some n ->
  manufacturer_bytes (default [] (ManufacturerData rec)) = Return md ->
  get_bluez_device (Return properties) path rssi0 =
    Return (Some {| address := a; name := n;
                    details := DetailsDict (Some (fst final)) (Some rec);
                    rssi := Some (snd final);
                    uuids := default [] (UUIDs rec);
                    manufacturer_data := md |}).
Proof.
  intros Hne Hrec Ha Hn Hmd. unfold get_bluez_device, get_bluez_device_try, mbind, Outcome_bind.
  destruct final as [best rtb]. simpl in *.
  destruct (String.eqb_spec best path) as [->|_]; [done|].
  rewrite Hrec. cbn [getitem]. rewrite Ha, Hn. cbn [getitem]. by rewrite Hmd.
Qed.

Lemma get_bluez_device_some h :
  get_bluez_device (Return properties) path rssi0 = Return (Some h) ->
  fst final <> path /\
  exists rec, device_record properties (fst final) = Some rec /\
              details h = DetailsDict (Some (fst final)) (Some rec) /\
              rssi h = Some (snd final) /\
              Address rec = Some (address h) /\ Alias rec = Some (name h).
Proof.
  unfold get_bluez_device, get_bluez_device_try, mbind, Outcome_bind.
  destruct final as [best rtb]. simpl.
  destruct (String.eqb_spec best path) as [->|Hne]; [done|].
  destruct (device_record properties best) as [rec|]; [|done]. cbn [getitem].
  destruct (Address rec) as [a|] eqn:Ha; [|done].
  destruct (Alias rec) as [n|] eqn:Hn; [|done]. cbn [getitem].
  destruct (manufacturer_bytes _) as [md|e]; cbn [try_except_Exception];
    [|by destruct (is_Exception _)].
  intros [= <-]. split; [done|]. by exists rec.
Qed.

End get_bluez_device_facts.

Lemma rssi_or_unreachable_nonzero signal : rssi_or_unreachable signal <> 0.
Proof.
  unfold rssi_or_unreachable, UNREACHABLE_RSSI.
  destruct signal as [r|]; [|done]. destruct (Z.eqb_spec r 0); [done|lia].
Qed.


Lemma candidate_accepted_iff rssi_to_beat device_rssi signal :
  rssi_to_beat <> UNREACHABLE_RSSI ->
  candidate_rejected rssi_to_beat device_rssi signal = false <->
  exists r, signal = Some r /\ r <> 0 /\
            device_rssi + RSSI_SWITCH_THRESHOLD <= r /\ rssi_to_beat <= r.
Proof.
  intros Hrtb. unfold candidate_rejected.
  destruct (Z.eqb_spec rssi_to_beat UNREACHABLE_RSSI) as [|_]; [done|]. simpl.
  destruct signal as [r|].
  - rewrite !orb_false_iff, Z.eqb_neq, !Z.ltb_ge. split.
    + intros [[H0 Hd] Hb]. exists r. repeat split; [done|lia|done].
    + intros (r' & [= <-] & H0 & Hd & Hb). repeat split; [done|lia|done].
  - split; [done|]. by intros (r & ? & _).
Qed.

Lemma initial_state_inv properties path rssi0 :
  scan_inv properties path (path, initial_rssi properties path rssi0).
Proof. by left. Qed.

Lemma elem_of_possible_paths path p :
  p ∈ _get_possible_paths path <->
  exists i, (i < 9)%nat /\ p = str_take 14 path +:+ digit_str i +:+ str_drop 15 path.
Proof.
  unfold _get_possible_paths. rewrite list_elem_of_fmap. split.
  - intros (i & -> & Hi). apply elem_of_seq in Hi. exists i. split; [lia|done].
  - intros (i & Hi & ->). exists i. split; [done|]. apply elem_of_seq. lia.
Qed.

(** ** What [get_bluez_device] can raise *)

Lemma manufacturer_bytes_raises items e :
  manufacturer_bytes items = Raise e -> exn_class e = ValueError.
Proof.
  induction items as [|[k v] items IH]; simpl; [done|].
  unfold bytes, mbind, Outcome_bind.
  destruct (forallb _ v); [|by intros [= <-]].
  destruct (manufacturer_bytes items) as [md|e1]; [done|].
  intros [= <-]. by apply IH.
Qed.

Lemma get_bluez_device_try_raises manager path rssi0 e :
  get_bluez_device_try manager path rssi0 = Raise e ->
  manager = Raise e \/ exn_class e = KeyError \/ exn_class e = ValueError.
Proof.
  unfold get_bluez_device_try, mbind, Outcome_bind.
  destruct manager as [properties|e0]; [|intros [= <-]; by left].
  destruct (scan _ _ _ _ _) as [best rtb].
  destruct (String.eqb best path); [done|].
  destruct (device_record properties best) as [rec|]; cbn [getitem];
    [|intros [= <-]; right; by left].
  destruct (Address rec); cbn [getitem]; [|intros [= <-]; right; by left].
  destruct (Alias rec); cbn [getitem]; [|intros [= <-]; right; by left].
  destruct (manufacturer_bytes _) as [md|e1] eqn:Hmd; [done|].
  intros [= <-]. right. right. by apply manufacturer_bytes_raises in Hmd.
Qed.

Lemma get_bluez_device_escapes manager path rssi0 e :
  get_bluez_device manager path rssi0 = Raise e ->
  is_Exception (exn_class e) = false /\ manager = Raise e.
Proof.
  unfold get_bluez_device, try_except_Exception.
  destruct (get_bluez_device_try manager path rssi0) as [v|e'] eqn:Htry; [done|].
  destruct (is_Exception (exn_class e')) eqn:Hcls; [done|]. intros [= <-].
  split; [done|].
  apply get_bluez_device_try_raises in Htry as [?|[Hk|Hk]]; [done|..];
    by rewrite Hk in Hcls.
Qed.

Lemma get_bluez_device_returns manager path rssi0 :
  (forall e, manager = Raise e -> is_Exception (exn_class e) = true) ->
  exists v, get_bluez_device manager path rssi0 = Return v.
Proof.
  intros Hm.
  destruct (get_bluez_device manager path rssi0) as [v|e] eqn:Hget; [by eexists|].
  apply get_bluez_device_escapes in Hget as [Hcls Hraise].
  by rewrite (Hm e Hraise) in Hcls.
Qed.

(** ** The claims about the resolver *)

(** C2 (amended).  For a candidate sibling examined while the incumbent
    [rssi_to_beat] is not the unreachable sentinel: the candidate is
    adopted exactly when its record reports a non-zero signal strength
    that is at least [RSSI_SWITCH_THRESHOLD] = 6 above the strength of the
    original device and not lower than the incumbent.  A candidate exactly
    6 above the original is therefore adopted (when it is not lower than
    the incumbent); a candidate below the incumbent or below the original
    is always rejected. *)
Theorem candidate_adopted_from_threshold
    properties device_path device_rssi best rssi_to_beat p rec :
  rssi_to_beat <> UNREACHABLE_RSSI ->
  p <> device_path ->
  device_record properties p = Some rec ->
  let next := scan_step properties device_path device_rssi (best, rssi_to_beat) p in
  let adopted := exists r, RSSI rec = Some r /\ r <> 0 /\
                           device_rssi + RSSI_SWITCH_THRESHOLD <= r /\ rssi_to_beat <= r in
  (adopted -> exists r, RSSI rec = Some r /\ next = (p, r)) /\
  (~ adopted -> next = (best, rssi_to_beat)) /\
  (RSSI rec = Some (device_rssi + RSSI_SWITCH_THRESHOLD) ->
   device_rssi + RSSI_SWITCH_THRESHOLD <> 0 ->
   rssi_to_beat <= device_rssi + RSSI_SWITCH_THRESHOLD ->
   next = (p, device_rssi + RSSI_SWITCH_THRESHOLD)) /\
  (forall r, RSSI rec = Some r -> r < rssi_to_beat \/ r < device_rssi ->
             next = (best, rssi_to_beat)).
Proof.
  intros Hrtb Hne Hrec next adopted. subst next.
  rewrite (scan_step_present _ _ _ _ _ rec) by done. simpl.
  pose proof (candidate_accepted_iff rssi_to_beat device_rssi (RSSI rec) Hrtb) as Hiff.
  fold adopted in Hiff.
  assert (forall r, RSSI rec = Some r -> r <> 0 -> rssi_or_unreachable (RSSI rec) = r) as Hror.
  { intros r -> H0. simpl. by destruct (Z.eqb_spec r 0). }
  repeat split.
  - intros Had. destruct (Had) as (r & Hr & H0 & _). exists r. split; [done|].
    apply Hiff in Had. rewrite Had. by rewrite (Hror r).
  - intros Hnot. destruct (candidate_rejected _ _ _); [done|].
    exfalso. by apply Hnot, Hiff.
  - intros Hr H0 Hb.
    assert adopted as Had by (eexists; repeat split; [done..|lia|done]).
    apply Hiff in Had. rewrite Had. by rewrite (Hror _ Hr H0).
  - intros r Hr Hlow. destruct (candidate_rejected _ _ _) eqn:Hrej; [done|].
    apply (candidate_accepted_iff _ _ _ Hrtb) in Hrej as (r' & Hr' & _ & Hd & Hb).
    unfold RSSI_SWITCH_THRESHOLD in Hd. rewrite Hr in Hr'. injection Hr' as <-. lia.
Qed.


(** C9.  Whatever [Exception] is raised inside the [try] block of
    [get_bluez_device], and in particular whatever [Exception] reading
    the property snapshot raises, the function returns [None]; nothing it
    raises is an [Exception], and the same holds for
    [freshen_ble_device], through which the retry loop calls it. *)
Theorem resolver_swallows_errors manager path rssi0 :
  (forall e, get_bluez_device_try manager path rssi0 = Raise e ->
             is_Exception (exn_class e) = true ->
             get_bluez_device manager path rssi0 = Return None) /\
  (forall e, manager = Raise e -> is_Exception (exn_class e) = true ->
             get_bluez_device manager path rssi0 = Return None) /\
  (forall e, get_bluez_device manager path rssi0 = Raise e ->
             is_Exception (exn_class e) = false) /\
  (forall dev e, freshen_ble_device manager dev = Raise e ->
                 is_Exception (exn_class e) = false).
Proof.
  assert (forall p r e, get_bluez_device manager p r = Raise e ->
                        is_Exception (exn_class e) = false) as Hescape.
  { intros p r e Hget. by apply get_bluez_device_escapes in Hget as [? _]. }
  repeat split.
  - intros e Hbody Hcls. unfold get_bluez_device. rewrite Hbody. simpl. by rewrite Hcls.
  - intros e -> Hcls. unfold get_bluez_device. simpl. by rewrite Hcls.
  - apply Hescape.
  - intros dev e. unfold freshen_ble_device.
    destruct (details_path (details dev)); [apply Hescape|done].
Qed.

(** C10.  A candidate whose record reports a signal strength of 0, or
    none, is rejected whenever the incumbent is not the sentinel; and a
    returned handle whose path has such a record carries the sentinel
    signal strength -1000. *)
Theorem zero_rssi_candidate_is_unreachable :
  (forall properties device_path device_rssi st p rec,
     snd st <> UNREACHABLE_RSSI ->
     device_record properties p = Some rec ->
     RSSI rec = None \/ RSSI rec = Some 0 ->
     scan_step properties device_path device_rssi st p = st) /\
  (forall properties path rssi0 h p rec,
     get_bluez_device (Return properties) path rssi0 = Return (Some h) ->
     details_path (details h) = Some p ->
     device_record properties p = Some rec ->
     RSSI rec = None \/ RSSI rec = Some 0 ->
     rssi h = Some (-1000)).
Proof.
  split.
  - intros properties device_path device_rssi st p rec Hst Hrec Hzero.
    destruct (String.eqb_spec p device_path) as [->|Hne]; [apply scan_step_self|].
    rewrite (scan_step_present _ _ _ _ _ rec) by done.
    assert (candidate_rejected (snd st) device_rssi (RSSI rec) = true) as ->; [|done].
    unfold candidate_rejected.
    destruct (Z.eqb_spec (snd st) UNREACHABLE_RSSI); [done|].
    by destruct Hzero as [-> | ->].
  - intros properties path rssi0 h p rec Hsome Hp Hrec Hzero.
    apply get_bluez_device_some in Hsome as (Hne & rec' & Hrec' & Hdet & Hrssi & _).
    pose proof (scan_inv_preserved properties path (initial_rssi properties path rssi0)
                  (_get_possible_paths path) _ (initial_state_inv properties path rssi0))
      as Hinv.
    set (fin := scan _ _ _ _ _) in *. clearbody fin.
    rewrite Hdet in Hp. unfold details_path in Hp.
    assert (p = fst fin) as -> by congruence.
    destruct Hinv as [Hsame | (_ & rec'' & Hrec'' & Hsnd)]; [done|].
    rewrite Hrssi, Hsnd. rewrite Hrec in Hrec''. injection Hrec'' as <-.
    by destruct Hzero as [-> | ->].
Qed.

(** *** Concrete instances *)

Import Examples.

Ltac each_possible_path H :=
  apply list_elem_of_In in H; vm_compute in H;
  repeat (destruct H as [H|H]; [subst|]); [..|destruct H].

(** C2, as stated, fails: with the original at -60 and the only sibling at
    -54, exactly [RSSI_SWITCH_THRESHOLD] above it, the sibling is adopted
    and its handle returned. *)
Lemma threshold_candidate_is_adopted :
  RSSI (record "X" "x" (Some (-54))) = Some (-60 + RSSI_SWITCH_THRESHOLD) /\
  candidate_rejected (-60) (-60) (Some (-60 + RSSI_SWITCH_THRESHOLD)) = false /\
  scan_step snapshot_threshold hci0 (-60) (hci0, -60) hci1 <> (hci0, -60) /\
  get_bluez_device (Return snapshot_threshold) hci0 (Some (-60))
    = Return (Some (handle hci1 (Some (-54)))) /\
  get_bluez_device (Return snapshot_threshold) hci0 (Some (-60)) <> Return None.
Proof. vm_compute. repeat split; congruence. Qed.

Lemma candidate_adopted_from_threshold_witness :
  scan_step snapshot_threshold hci0 (-60) (hci0, -60) hci1 = (hci1, -54).
Proof.
  destruct (candidate_adopted_from_threshold snapshot_threshold hci0 (-60) hci0 (-60)
              hci1 (record "X" "x" (Some (-54)))) as (_ & _ & Hexact & _).
  - unfold UNREACHABLE_RSSI. lia.
  - vm_compute. congruence.
  - vm_compute. reflexivity.
  - apply Hexact.
    + reflexivity.
    + unfold RSSI_SWITCH_THRESHOLD. lia.
    + unfold RSSI_SWITCH_THRESHOLD. lia.
Defined.


Lemma resolver_swallows_errors_witness :
  get_bluez_device (Raise (Exn OtherException "bus is down")) hci0 (Some (-60))
    = Return None.
Proof.
  destruct (resolver_swallows_errors (Raise (Exn OtherException "bus is down"))
              hci0 (Some (-60))) as (_ & Hread & _).
  apply (Hread (Exn OtherException "bus is down")); reflexivity.
Defined.

Lemma zero_rssi_candidate_is_unreachable_witness :
  get_bluez_device (Return snapshot_zero) hci2 (Some (-60))
    = Return (Some (handle hci5 (Some 0))) /\
  rssi (handle hci5 (Some 0)) = Some (-1000).
Proof.
  assert (get_bluez_device (Return snapshot_zero) hci2 (Some (-60))
            = Return (Some (handle hci5 (Some 0)))) as Hget
    by (vm_compute; reflexivity).
  split; [exact Hget|].
  destruct zero_rssi_candidate_is_unreachable as (_ & Hhandle).
  apply (Hhandle snapshot_zero hci2 (Some (-60)) _ hci5 (record "X" "x" (Some 0)) Hget).
  - reflexivity.
  - vm_compute. reflexivity.
  - right. reflexivity.
Defined.

(** * Properties of the caching client *)

Import ServiceCache.

(** C6 (amended).  When [get_services] reaches the transport (no cached
    services are in use) and the transport's [get_services] raises an
    [Exception], [disconnect] is called next and nothing else; the call
    never returns a value; it raises the original exception when
    [disconnect] returns, and the exception of [disconnect] when that
    raises. *)
Theorem failed_get_services_disconnects pf self e disconnect calls self' out :
  _has_service_cache pf self = None ->
  is_Exception (exn_class e) = true ->
  get_services pf self (Raise e) disconnect = (calls, self', out) ->
  calls = [CallSuperGetServices; CallDisconnect] /\
  self' = self /\
  (forall u, disconnect = Return u -> out = Raise e) /\
  (forall e', disconnect = Raise e' -> out = Raise e') /\
  (exists e'', out = Raise e'').
Proof.
  intros Hcache Hcls. unfold get_services. rewrite Hcache, Hcls.
  intros [= <- <- <-]. repeat split.
  - by intros u ->.
  - by intros e' ->.
  - destruct disconnect as [u|e']; eauto.
Qed.

(** C6, as stated, fails: when [disconnect] raises as well, the caller
    sees the exception of [disconnect], not the original one. *)
Lemma failing_disconnect_replaces_original :
  get_services Examples.linux Examples.cache_client
      (Raise (Exn BleakError "failed to discover services"))
      (Raise (Exn EOFError "bus closed"))
    = ([CallSuperGetServices; CallDisconnect], Examples.cache_client,
       Raise (Exn EOFError "bus closed")) /\
  snd (get_services Examples.linux Examples.cache_client
         (Raise (Exn BleakError "failed to discover services"))
         (Raise (Exn EOFError "bus closed")))
    <> Raise (Exn BleakError "failed to discover services").
Proof. split; [reflexivity|]. vm_compute. congruence. Qed.

Lemma failed_get_services_disconnects_witness :
  get_services Examples.linux Examples.cache_client
      (Raise (Exn BleakError "failed to discover services")) (Return tt)
    = ([CallSuperGetServices; CallDisconnect], Examples.cache_client,
       Raise (Exn BleakError "failed to discover services")).
Proof.
  destruct (failed_get_services_disconnects Examples.linux Examples.cache_client
              (Exn BleakError "failed to discover services") (Return tt)
              _ _ _ eq_refl eq_refl eq_refl) as (_ & _ & Hout & _).
  reflexivity.
Defined.

(** * Properties of the retry loop *)

(** ** Inversion of the trace monad *)

Lemma run_bind_return {A B} (m : Run A) (f : A -> Run B) t b :
  m ≫= f = (t, Return b) ->
  exists t1 x t2, m = (t1, Return x) /\ f x = (t2, Return b) /\ t = (t1 ++ t2)%list.
Proof.
  unfold mbind, Run_bind. destruct m as [t1 [x|e]]; [|done].
  destruct (f x) as [t2 r] eqn:Hf. intros [= <- ->]. by exists t1, x, t2.
Qed.

Lemma run_bind_raise {A B} (m : Run A) (f : A -> Run B) t e :
  m ≫= f = (t, Raise e) ->
  m = (t, Raise e) \/
  exists t1 x t2, m = (t1, Return x) /\ f x = (t2, Raise e) /\ t = (t1 ++ t2)%list.
Proof.
  unfold mbind, Run_bind. destruct m as [t1 [x|e']].
  - destruct (f x) as [t2 r] eqn:Hf. intros [= <- ->]. right. by exists t1, x, t2.
  - intros [= <- <-]. by left.
Qed.

Lemma run_bind_eq {A B} (m : Run A) (f : A -> Run B) t1 x :
  m = (t1, Return x) -> m ≫= f = ((t1 ++ fst (f x))%list, snd (f x)).
Proof. intros ->. unfold mbind, Run_bind. by destruct (f x). Qed.

Lemma run_bind_returns {A B} (m : Run A) (f : A -> Run B) t1 x :
  m = (t1, Return x) ->
  (exists t2 b, f x = (t2, Return b)) ->
  exists t b, m ≫= f = (t, Return b).
Proof.
  intros -> (t2 & b & Hf). unfold mbind, Run_bind. rewrite Hf. by eexists _, _.
Qed.

Lemma run_bind_cases {A B} (m : Run A) (f : A -> Run B) t r :
  m ≫= f = (t, r) ->
  (exists e, m = (t, Raise e) /\ r = Raise e) \/
  (exists t1 x t2, m = (t1, Return x) /\ f x = (t2, r) /\ t = (t1 ++ t2)%list).
Proof.
  unfold mbind, Run_bind. destruct m as [t1 [x|e]].
  - destruct (f x) as [t2 r'] eqn:Hf. intros [= <- <-]. right. by exists t1, x, t2.
  - intros [= <- <-]. left. by exists e.
Qed.

Lemma lift_return {A} (o : Outcome A) t x :
  lift o = (t, Return x) -> o = Return x /\ t = [].
Proof. unfold lift. by intros [= <- ->]. Qed.

(** ** Traces *)

Lemma last_built_app cur t1 t2 :
  last_built cur (t1 ++ t2) = last_built (last_built cur t1) t2.
Proof.
  revert cur. induction t1 as [|ev t1 IH]; intros cur; [done|].
  destruct ev; simpl; apply IH.
Qed.

Lemma one_live_client_app cur t1 t2 :
  one_live_client cur (t1 ++ t2) =
    one_live_client cur t1 && one_live_client (last_built cur t1) t2.
Proof.
  revert cur. induction t1 as [|ev t1 IH]; intros cur; [done|].
  destruct ev; simpl; rewrite ?IH, ?andb_assoc; done.
Qed.

Lemma existsb_app_false {A} (f : A -> bool) (l1 l2 : list A) :
  existsb f l1 = false -> existsb f l2 = false -> existsb f (l1 ++ l2) = false.
Proof. intros H1 H2. by rewrite existsb_app, H1, H2. Qed.

(** ** The steps of one pass *)

Section loop_facts.

Variable pf : Platform.
Variable a : Args.

(** [ble_device_has_changed], when it returns, says whether the address
    differs or both devices carry a path and the paths differ. *)
Lemma ble_device_has_changed_spec original new changed :
  ble_device_has_changed original new = Return changed ->
  changed = true <->
  (address original <> address new \/
   exists p q, details_path (details original) = Some p /\
               details_path (details new) = Some q /\ p <> q).
Proof.
  unfold ble_device_has_changed.
  destruct (String.eqb_spec (address original) (address new)) as [Haddr|Haddr]; simpl.
  - destruct (details_path (details original)) as [p|] eqn:Hp.
    + destruct (details new) as [[q|] props| |] eqn:Hnew; simpl; try done.
      * unfold mbind, Outcome_bind. simpl.
        destruct (String.eqb_spec p q) as [->|Hpq]; simpl; intros [= <-].
        -- split; [done|]. intros [?|(p' & q' & [= <-] & [= <-] & ?)]; done.
        -- split; [|done]. intros _. right. by exists p, q.
      * intros [= <-]. split; [done|].
        intros [?|(p' & q' & _ & ? & _)]; done.
      * intros [= <-]. split; [done|].
        intros [?|(p' & q' & _ & ? & _)]; done.
    + intros [= <-]. split; [done|]. intros [?|(p' & q' & ? & _)]; done.
  - intros [= <-]. split; [|done]. intros _. by left.
Qed.

(** [ble_device_has_changed] raises only on a new device whose [details]
    do not support [in]. *)
Lemma ble_device_has_changed_returns original new :
  details new <> DetailsObject \/ details_path (details original) = None ->
  exists changed, ble_device_has_changed original new = Return changed.
Proof.
  intros Hok. unfold ble_device_has_changed.
  destruct (negb _); [by eexists|].
  destruct (details_path (details original)) as [p|]; [|by eexists].
  destruct Hok as [Hok|Hok]; [|done].
  destruct (details new) as [[q|] props| |]; simpl; try done; by eexists.
Qed.

Lemma build_client_spec st can_use dev :
  exists t c,
    build_client a st can_use dev = (EvConstruct (constructed st) dev :: t, Return c) /\
    client_id c = constructed st /\ client_device c = dev /\
    existsb is_construct t = false /\ existsb is_sleep t = false /\
    one_live_client (Some (constructed st)) t = true.
Proof.
  unfold build_client, when, emit, mbind, mret, Run_bind, Run_ret.
  destruct (disconnected_callback a), (cached_services a) as [s|], (client_class a),
    can_use; simpl; eexists _, _; (split; [reflexivity|]); simpl;
    rewrite ?bool_decide_eq_true_2 by done; done.
Qed.

Lemma close_stale_spec env dev t r :
  close_stale pf env dev = (t, r) ->
  existsb is_construct t = false /\ existsb is_sleep t = false /\
  forall cur, one_live_client cur t = true /\ last_built cur t = cur.
Proof.
  unfold close_stale, when, emit, lift, mbind, Run_bind.
  destruct (if IS_LINUX pf then _ else _) as [[|]|e]; simpl.
  - destruct (att_disconnect_device env); intros [= <- <-]; done.
  - intros [= <- <-]; done.
  - intros [= <- <-]; done.
Qed.

Lemma device_is_connected_returns manager dev :
  (forall e, manager = Raise e -> is_Exception (exn_class e) = true) ->
  exists b, device_is_connected manager dev = Return b.
Proof.
  intros Hm. unfold device_is_connected.
  destruct (details_path (details dev)) as [p|]; [|by eexists].
  unfold try_except_Exception.
  destruct manager as [properties|e]; simpl.
  - destruct (properties !! p) as [ifaces|]; simpl; [|by eexists].
    destruct (ifaces !! DEVICE_INTERFACE); simpl; by eexists.
  - rewrite (Hm e eq_refl). by eexists.
Qed.

Lemma close_stale_calm env dev :
  calm env -> exists t, close_stale pf env dev = (t, Return tt).
Proof.
  intros [Hm Hd]. unfold close_stale, when, emit, lift, mbind, Run_bind.
  destruct (IS_LINUX pf).
  - destruct (device_is_connected_returns (att_manager env) dev Hm) as [[|] ->];
      rewrite ?Hd; by eexists.
  - by eexists.
Qed.

Lemma last_built_no_construct cur t :
  existsb is_construct t = false -> last_built cur t = cur.
Proof.
  revert cur. induction t as [|ev t IH]; intros cur; [done|].
  destruct ev; simpl; try done; apply IH.
Qed.

Lemma freshen_ble_device_details manager dev fresh :
  freshen_ble_device manager dev = Return (Some fresh) ->
  details fresh <> DetailsObject.
Proof.
  unfold freshen_ble_device.
  destruct (details_path (details dev)) as [p|]; [|done].
  destruct manager as [properties|e].
  - intros (_ & rec & _ & -> & _)%get_bluez_device_some. done.
  - unfold get_bluez_device. simpl. by destruct (is_Exception _).
Qed.

Lemma freshen_ble_device_calm manager dev :
  (forall e, manager = Raise e -> is_Exception (exn_class e) = true) ->
  exists fresh, freshen_ble_device manager dev = Return fresh.
Proof.
  intros Hm. unfold freshen_ble_device.
  destruct (details_path (details dev)) as [p|]; [|by eexists].
  by apply get_bluez_device_returns.
Qed.

Lemma current_device_spec st env d2 can_use :
  current_device a st env = Return (d2, can_use) ->
  details d2 <> DetailsObject \/
  (exists callback, ble_device_callback a = Some callback /\
                    d2 = callback (attempt st + 1)) \/
  (ble_device_callback a = None /\ d2 = device st).
Proof.
  unfold current_device, mbind, mret, Outcome_bind, Outcome_ret.
  destruct (freshen_ble_device _ _) as [[fresh|]|e] eqn:Hfresh; [| |done].
  - intros [= <- <-]. left. by eapply freshen_ble_device_details.
  - intros [= <- <-]. right.
    destruct (ble_device_callback a) as [callback|]; [left|right]; eauto.
Qed.

Lemma current_device_calm st env :
  calm env -> exists d2 can_use, current_device a st env = Return (d2, can_use).
Proof.
  intros [Hm _]. unfold current_device, mbind, mret, Outcome_bind, Outcome_ret.
  edestruct freshen_ble_device_calm as [[fresh|] ->]; [exact Hm|..]; by eexists _, _.
Qed.

Lemma client_needed_returns st env d2 can_use :
  callback_details_iterable a ->
  current_device a st env = Return (d2, can_use) ->
  exists create, client_needed st d2 = Return create.
Proof.
  intros Hcb Hcur. unfold client_needed.
  destruct (create_client st); [by eexists|].
  apply ble_device_has_changed_returns.
  apply current_device_spec in Hcur as [Hd|[(callback & Hsome & ->)|[_ ->]]].
  - by left.
  - left. by eapply Hcb.
  - destruct (details (device st)); [left|left|right]; done.
Qed.

(** What a pass that reaches [connect] has done before it. *)
Lemma prepare_spec st env t st' c' :
  prepare pf a st env = (t, Return (st', c')) ->
  timeouts st' = timeouts st /\
  connect_errors st' = connect_errors st /\
  transient_errors st' = transient_errors st /\
  attempt st' = attempt st + 1 /\
  create_client st' = false /\
  client st' = Some c' /\
  existsb is_sleep t = false /\
  exists create,
    client_needed st (device st') = Return create /\
    (create = true ->
       client_id c' = constructed st /\ client_device c' = device st' /\
       constructed st' = S (constructed st) /\
       exists t', t = EvConstruct (constructed st) (device st') :: t' /\
                  existsb is_construct t' = false /\
                  one_live_client (Some (constructed st)) t' = true) /\
    (create = false ->
       client st = Some c' /\ constructed st' = constructed st /\
       existsb is_construct t = false /\
       forall cur, one_live_client cur t = true).
Proof.
  unfold prepare.
  intros (t1 & [d2 can_use] & t2 & [Hcur ->]%lift_return & Hrest & ->)%run_bind_return.
  apply run_bind_return in Hrest as (t3 & create & t4 & [Hneed ->]%lift_return & Hrest & ->).
  apply run_bind_return in Hrest as (t5 & client' & t6 & Hclient & Hrest & ->).
  apply run_bind_return in Hrest as (t7 & [] & t8 & Hstale & Hret & ->).
  unfold mret, Run_ret in Hret. injection Hret as <- <- <-. simpl.
  apply close_stale_spec in Hstale as (Hc7 & Hs7 & Hlive7).
  repeat (split; [done|]).
  rewrite app_nil_r.
  destruct create.
  - destruct (build_client_spec st can_use d2) as (tb & c & Hb & Hid & Hdev & Hcb & Hsb & Hlb).
    rewrite Hb in Hclient. injection Hclient as <- <-. split.
    { simpl. by rewrite existsb_app, Hsb, Hs7. }
    exists true. split; [done|]. split; [|done]. intros _.
    repeat (split; [done|]). exists (tb ++ t7)%list. split; [done|].
    split; [by apply existsb_app_false|].
    rewrite one_live_client_app, Hlb. simpl. apply Hlive7.
  - apply lift_return in Hclient as [Hclient ->]. simpl. split; [done|].
    exists false. split; [done|]. split; [done|]. intros _.
    destruct (client st) as [c|]; [|done]. simpl in Hclient. injection Hclient as ->.
    repeat (split; [done|]). intros cur. apply Hlive7.
Qed.

(** A calm pass reaches [connect]. *)
Lemma prepare_calm st env :
  calm env -> callback_details_iterable a -> client_bound st ->
  exists t r, prepare pf a st env = (t, Return r).
Proof.
  intros Hcalm Hcb Hbound. unfold prepare.
  destruct (current_device_calm st env Hcalm) as (d2 & can_use & Hcur).
  destruct (client_needed_returns st env d2 can_use Hcb Hcur) as (create & Hneed).
  destruct (close_stale_calm env d2 Hcalm) as (ts & Hstale).
  eapply run_bind_returns; [by rewrite Hcur|]. cbn beta iota.
  eapply run_bind_returns; [by rewrite Hneed|].
  assert (exists tc c, (if create then build_client a st can_use d2
                        else lift (getitem "client" (client st))) = (tc, Return c))
    as (tc & c & Hclient).
  { destruct create.
    - destruct (build_client_spec st can_use d2) as (tb & c & Hb & _). eauto.
    - unfold client_needed in Hneed. destruct Hbound as [Hcreate|[c Hc]].
      + rewrite Hcreate in Hneed. done.
      + rewrite Hc. by eexists _, _. }
  eapply run_bind_returns; [exact Hclient|].
  eapply run_bind_returns; [exact Hstale|].
  by eexists _, _.
Qed.

(** *** The [except] clauses *)

Lemma classify_fields st exc st1 backoff :
  classify st exc = Some (st1, backoff) ->
  attempt st1 = attempt st /\
  can_use_cached_services st1 = can_use_cached_services st /\
  create_client st1 = create_client st /\
  device st1 = device st /\
  client st1 = client st /\
  constructed st1 = constructed st.
Proof.
  unfold classify.
  destruct (exn_class exc); simpl; try discriminate;
    try destruct (any_in _ _); intros [= <- <-]; done.
Qed.

Lemma classify_timeout st exc :
  is_timeout exc = true ->
  exists st1, classify st exc = Some (st1, false) /\
    timeouts st1 = timeouts st + 1 /\
    connect_errors st1 = connect_errors st + 0 /\
    transient_errors st1 = transient_errors st + 0.
Proof.
  unfold is_timeout, classify. intros ->%bool_decide_eq_true.
  eexists. split; [done|]. simpl. lia.
Qed.

Lemma classify_transient st exc :
  is_transient_failure exc = true ->
  exists st1 backoff, classify st exc = Some (st1, backoff) /\
    timeouts st1 = timeouts st + 0 /\
    connect_errors st1 = connect_errors st + 0 /\
    transient_errors st1 = transient_errors st + 1.
Proof.
  unfold is_transient_failure, classify.
  destruct (exn_class exc); simpl; try discriminate;
    try (intros ->); eexists _, _; (split; [done|]); simpl; lia.
Qed.

Lemma classify_connect_error st exc :
  is_BLEAK_EXCEPTIONS (exn_class exc) = true ->
  any_in TRANSIENT_ERRORS (exn_str exc) = false ->
  exists st1 backoff, classify st exc = Some (st1, backoff) /\
    timeouts st1 = timeouts st /\
    connect_errors st1 = connect_errors st + 1 /\
    transient_errors st1 = transient_errors st.
Proof.
  unfold classify.
  destruct (exn_class exc); simpl; try discriminate;
    intros _ ->; eexists _, _; (split; [done|]); simpl; lia.
Qed.

Lemma classify_backoff st exc st1 backoff :
  classify st exc = Some (st1, backoff) ->
  backoff = true <-> exn_class exc = EOFError \/ exn_class exc = BleakDBusError.
Proof.
  unfold classify.
  destruct (exn_class exc); simpl; try discriminate; intros [= _ <-];
    split; try done; try (intros [?|?]; done); eauto.
Qed.

(** *** [_raise_if_needed] *)

Lemma raise_if_needed_returns st description exc :
  _raise_if_needed a st description exc = Return tt <-> within_budget a st.
Proof.
  unfold _raise_if_needed, within_budget.
  destruct (Z.ltb_spec (timeouts st + connect_errors st) (max_attempts a));
    destruct (Z.ltb_spec (transient_errors st) MAX_TRANSIENT_ERRORS); simpl;
    (split; [|intros [? ?]; try done; try lia]);
    repeat (destruct (_ || _) || destruct (_ && _)); try done; lia.
Qed.

Lemma raise_if_needed_raises st description exc e :
  _raise_if_needed a st description exc = Raise e ->
  ~ within_budget a st /\ is_terminal (exn_class e) = true.
Proof.
  intros Hraise. split.
  - intros Hin%(raise_if_needed_returns st description exc). congruence.
  - revert Hraise. unfold _raise_if_needed.
    destruct (_ && _); [done|].
    repeat (destruct (_ || _) || destruct (_ && _)); by intros [= <-].
Qed.

Lemma raise_if_needed_cases st description exc :
  (within_budget a st /\ _raise_if_needed a st description exc = Return tt) \/
  (~ within_budget a st /\
   exists e, _raise_if_needed a st description exc = Raise e /\
             is_terminal (exn_class e) = true).
Proof.
  destruct (_raise_if_needed a st description exc) as [[]|e] eqn:Hr.
  - left. split; [|done]. by eapply raise_if_needed_returns.
  - right. apply raise_if_needed_raises in Hr as Hr'. destruct Hr'. eauto.
Qed.

Lemma raise_if_needed_timeout st description exc :
  ~ within_budget a st -> is_timeout exc = true ->
  exists msg, _raise_if_needed a st description exc = Raise (Exn BleakNotFoundError msg).
Proof.
  intros Hout Htimeout. unfold is_timeout in Htimeout.
  destruct (_raise_if_needed a st description exc) as [[]|e] eqn:Hr.
  - by apply raise_if_needed_returns in Hr.
  - revert Hr. unfold _raise_if_needed. destruct (_ && _); [done|].
    rewrite Htimeout. simpl. intros [= <-]. by eexists.
Qed.

(** *** The [try] statement *)

Lemma attempt_connect_failure st c env exc st1 backoff :
  att_connect env = Raise exc ->
  classify st exc = Some (st1, backoff) ->
  attempt_connect a st c env =
    ((EvConnect (client_id c) (bool_decide (is_Some (cached_services a)))
        :: (if backoff then [EvSleep BLEAK_DBUS_BACKOFF_TIME] else [])
        ++ match _raise_if_needed a st1 (ble_device_description (device st)) exc with
           | Return _ => [EvSleep 0]
           | Raise _ => []
           end)%list,
     match _raise_if_needed a st1 (ble_device_description (device st)) exc with
     | Return _ => Return (Looping st1)
     | Raise e => Raise e
     end).
Proof.
  intros Hconn Hcls. unfold attempt_connect. rewrite Hconn, Hcls.
  unfold when, emit, lift, mbind, mret, Run_bind, Run_ret.
  destruct backoff, (_raise_if_needed _ _ _ _); done.
Qed.

Lemma attempt_connect_trace st c env t r :
  attempt_connect a st c env = (t, r) ->
  exists t', t = EvConnect (client_id c) (bool_decide (is_Some (cached_services a))) :: t' /\
             existsb is_construct t' = false /\
             (forall cur, one_live_client cur t' = true).
Proof.
  unfold attempt_connect, when, emit, lift, mbind, mret, Run_bind, Run_ret.
  destruct (att_connect env) as [u|exc].
  - intros [= <- <-]. by eexists.
  - destruct (classify st exc) as [[st1 [|]]|];
      try destruct (_raise_if_needed _ _ _ _); intros [= <- <-]; by eexists.
Qed.

(** *** One pass and the loop *)

Lemma iteration_calm_failure P dt dc dtr st env :
  counted P dt dc dtr ->
  callback_details_iterable a -> client_bound st -> fails_with P env ->
  exists t0 st0 c exc st1 backoff,
    prepare pf a st env = (t0, Return (st0, c)) /\
    att_connect env = Raise exc /\ P exc = true /\
    classify st0 exc = Some (st1, backoff) /\
    iteration pf a st env =
      ((t0 ++ fst (attempt_connect a st0 c env))%list,
       match _raise_if_needed a st1 (ble_device_description (device st0)) exc with
       | Return _ => Return (Looping st1)
       | Raise e => Raise e
       end) /\
    timeouts st1 = timeouts st + dt /\
    connect_errors st1 = connect_errors st + dc /\
    transient_errors st1 = transient_errors st + dtr /\
    attempt st1 = attempt st + 1 /\
    client_bound st1.
Proof.
  intros Hcount Hcb Hbound (Hcalm & exc & Hconn & HP).
  destruct (prepare_calm st env Hcalm Hcb Hbound) as (t0 & [st0 c] & Hprep).
  destruct (Hcount st0 exc HP) as (st1 & backoff & Hcls & Ht & Hc & Htr).
  pose proof (prepare_spec _ _ _ _ _ Hprep) as (Ht0 & Hc0 & Htr0 & Hatt0 & _ & Hcl0 & _).
  pose proof (classify_fields _ _ _ _ Hcls) as (Hatt1 & _ & _ & _ & Hcl1 & _).
  exists t0, st0, c, exc, st1, backoff. repeat (split; [done|]).
  split; [|repeat split; try congruence].
  - unfold iteration. rewrite (run_bind_eq _ _ _ _ Hprep). cbn beta iota.
    by rewrite (attempt_connect_failure _ _ _ _ _ _ Hconn Hcls).
  - right. rewrite Hcl1, Hcl0. by eexists.
Qed.

Lemma loop_step_looping env rest st t1 st1 :
  iteration pf a st env = (t1, Return (Looping st1)) ->
  loop pf a (env :: rest) st =
    ((t1 ++ fst (loop pf a rest st1))%list, snd (loop pf a rest st1)).
Proof. intros Hit. simpl. by rewrite (run_bind_eq _ _ _ _ Hit). Qed.

Lemma loop_step_raise env rest st t1 e :
  iteration pf a st env = (t1, Raise e) ->
  loop pf a (env :: rest) st = (t1, Raise e).
Proof. intros Hit. simpl. by rewrite Hit. Qed.

Lemma loop_app script1 script2 st t1 st1 :
  loop pf a script1 st = (t1, Return (Looping st1)) ->
  loop pf a (script1 ++ script2) st =
    ((t1 ++ fst (loop pf a script2 st1))%list, snd (loop pf a script2 st1)).
Proof.
  revert st t1. induction script1 as [|env script1 IH]; intros st t1.
  - simpl. intros [= <- <-]. simpl. by destruct (loop pf a script2 st).
  - simpl. intros (t2 & r & t3 & Hit & Hrest & ->)%run_bind_return.
    destruct r as [st2|c]; [|done].
    rewrite (run_bind_eq _ _ _ _ Hit). cbn beta iota.
    rewrite (IH _ _ Hrest). simpl. by rewrite app_assoc.
Qed.

(** As long as the counters stay within the budget, a run of calm
    failures keeps the loop going and counts every one of them. *)
Lemma loop_failures P dt dc dtr :
  counted P dt dc dtr -> 0 <= dt + dc -> 0 <= dtr ->
  callback_details_iterable a ->
  forall script st,
    Forall (fails_with P) script -> client_bound st ->
    timeouts st + connect_errors st + (dt + dc) * Z.of_nat (length script)
      < max_attempts a ->
    transient_errors st + dtr * Z.of_nat (length script) < MAX_TRANSIENT_ERRORS ->
    exists t st',
      loop pf a script st = (t, Return (Looping st')) /\
      timeouts st' = timeouts st + dt * Z.of_nat (length script) /\
      connect_errors st' = connect_errors st + dc * Z.of_nat (length script) /\
      transient_errors st' = transient_errors st + dtr * Z.of_nat (length script) /\
      attempt st' = attempt st + Z.of_nat (length script) /\
      client_bound st'.
Proof.
  intros Hcount Hd Hdtr Hcb. induction script as [|env script IH];
    intros st Hall Hbound Hmax Htrans.
  { exists [], st. simpl. repeat split; try done; lia. }
  apply Forall_cons in Hall as [Henv Hall].
  destruct (iteration_calm_failure P dt dc dtr st env Hcount Hcb Hbound Henv)
    as (t0 & st0 & c & exc & st1 & backoff & _ & _ & _ & _ & Hit & Ht & Hc & Htr & Hatt & Hb1).
  cbn [length] in *. rewrite Nat2Z.inj_succ in *.
  assert (0 <= (dt + dc) * Z.of_nat (length script)) by (apply Z.mul_nonneg_nonneg; lia).
  assert (0 <= dtr * Z.of_nat (length script)) by (apply Z.mul_nonneg_nonneg; lia).
  assert (within_budget a st1) as Hin by (unfold within_budget; lia).
  apply (raise_if_needed_returns st1 (ble_device_description (device st0)) exc) in Hin.
  rewrite Hin in Hit.
  destruct (IH st1 Hall Hb1) as (t & st' & Hloop & Ht' & Hc' & Htr' & Hatt' & Hb'); [lia..|].
  rewrite (loop_step_looping _ _ _ _ _ Hit), Hloop. simpl.
  eexists _, st'. split; [done|]. repeat split; try done; lia.
Qed.

(** A calm failure that takes the counters out of the budget ends the
    call with one of the three terminal errors. *)
Lemma iteration_gives_up P dt dc dtr st env :
  counted P dt dc dtr ->
  callback_details_iterable a -> client_bound st -> fails_with P env ->
  ~ (timeouts st + dt + (connect_errors st + dc) < max_attempts a /\
     transient_errors st + dtr < MAX_TRANSIENT_ERRORS) ->
  exists t e, iteration pf a st env = (t, Raise e) /\
              is_terminal (exn_class e) = true /\
              (forall exc, att_connect env = Raise exc -> is_timeout exc = true ->
                           exn_class e = BleakNotFoundError).
Proof.
  intros Hcount Hcb Hbound Henv Hout.
  destruct (iteration_calm_failure P dt dc dtr st env Hcount Hcb Hbound Henv)
    as (t0 & st0 & c & exc & st1 & backoff & _ & Hconn & _ & _ & Hit & Ht & Hc & Htr & _).
  assert (~ within_budget a st1) as Hout1.
  { unfold within_budget. rewrite Ht, Hc, Htr. done. }
  destruct (raise_if_needed_cases st1 (ble_device_description (device st0)) exc)
    as [[Hin _]|(_ & e & Hraise & Hterm)]; [done|].
  rewrite Hraise in Hit. eexists _, e. split; [done|]. split; [done|].
  intros exc' Hconn' Htimeout. rewrite Hconn in Hconn'. injection Hconn' as <-.
  destruct (raise_if_needed_timeout st1 (ble_device_description (device st0)) exc
              Hout1 Htimeout) as (msg & Hmsg).
  rewrite Hmsg in Hraise. by injection Hraise as <-.
Qed.

Lemma initial_state_bound : client_bound (initial_state a).
Proof. by left. Qed.

(** *** One client at a time *)

Lemma attempt_connect_result st c env t r :
  attempt_connect a st c env = (t, Return r) ->
  match r with
  | Returned c' => c' = c
  | Looping st' => exists exc backoff, att_connect env = Raise exc /\
                                      classify st exc = Some (st', backoff)
  end.
Proof.
  unfold attempt_connect, when, emit, lift, mbind, mret, Run_bind, Run_ret.
  destruct (att_connect env) as [u|exc].
  - by intros [= <- <-].
  - destruct (classify st exc) as [[st1 backoff]|] eqn:Hcls; [|done].
    destruct backoff, (_raise_if_needed _ _ _ _); intros [= <- <-]; eauto.
Qed.

Lemma prepare_live st env t r :
  prepare pf a st env = (t, r) ->
  one_live_client (client_id <$> client st) t = true /\
  forall st' c', r = Return (st', c') ->
                 last_built (client_id <$> client st) t = Some (client_id c').
Proof.
  intros Hprep. destruct r as [[st' c']|e].
  - apply prepare_spec in Hprep
      as (_ & _ & _ & _ & _ & _ & _ & [|] & _ & Hbuilt & Hkept).
    + destruct Hbuilt as (Hid & _ & _ & t' & -> & Hnc & Hlive); [done|].
      split; [done|]. intros ? ? [= <- <-]. simpl.
      by rewrite last_built_no_construct, Hid.
    + destruct Hkept as (Hcl & _ & Hnc & Hlive); [done|].
      split; [done|]. intros ? ? [= <- <-].
      by rewrite last_built_no_construct, Hcl.
  - split; [|done]. revert Hprep. unfold prepare.
    intros [(e1 & [= <- _] & _)|(t1 & [d2 can_use] & t2 & [_ ->]%lift_return & Hrest & ->)]
      %run_bind_cases; [done|].
    apply run_bind_cases in Hrest
      as [(e1 & [= <- _] & _)|(t3 & create & t4 & [Hneed ->]%lift_return & Hrest & ->)];
      [done|].
    apply run_bind_cases in Hrest
      as [(e1 & Hclient & _)|(t5 & client' & t6 & Hclient & Hrest & ->)].
    { destruct create.
      - destruct (build_client_spec st can_use d2) as (tb & c & Hb & _). congruence.
      - by injection Hclient as <- _. }
    apply run_bind_cases in Hrest
      as [(e1 & Hstale & _)|(t7 & [] & t8 & Hstale & [=] & _)].
    apply close_stale_spec in Hstale as (_ & _ & Hlive7). simpl.
    rewrite one_live_client_app. destruct create.
    + destruct (build_client_spec st can_use d2) as (tb & c & Hb & _ & _ & _ & _ & Hlb).
      rewrite Hb in Hclient. injection Hclient as <- _. simpl. rewrite Hlb.
      apply Hlive7.
    + injection Hclient as <- _. apply Hlive7.
Qed.

Lemma iteration_live st env t r :
  iteration pf a st env = (t, r) ->
  one_live_client (client_id <$> client st) t = true /\
  (forall st', r = Return (Looping st') ->
     last_built (client_id <$> client st) t = client_id <$> client st' /\
     create_client st' = false /\ is_Some (client st')) /\
  (forall c, r = Return (Returned c) ->
     last_built (client_id <$> client st) t = Some (client_id c)).
Proof.
  unfold iteration.
  intros [(e & Hprep & ->)|(t1 & [st0 c] & t2 & Hprep & Hconn & ->)]%run_bind_cases.
  { apply prepare_live in Hprep as [Hlive _]. done. }
  pose proof (prepare_spec _ _ _ _ _ Hprep) as (_ & _ & _ & _ & Hcreate & Hcl0 & _).
  apply prepare_live in Hprep as [Hlive Hlast]. specialize (Hlast _ _ eq_refl).
  pose proof (attempt_connect_trace _ _ _ _ _ Hconn) as (t' & -> & Hnc & Hlive').
  rewrite one_live_client_app, last_built_app, Hlive, Hlast. simpl.
  rewrite bool_decide_eq_true_2 by done. rewrite Hlive'.
  rewrite (last_built_no_construct _ _ Hnc).
  split; [done|]. split.
  - intros st' ->. apply attempt_connect_result in Hconn as (exc & backoff & _ & Hcls).
    apply classify_fields in Hcls as (_ & _ & Hcr & _ & Hcl & _).
    rewrite Hcl, Hcl0, Hcr. by eauto.
  - intros c' ->. by apply attempt_connect_result in Hconn as ->.
Qed.

Lemma loop_live script :
  forall st t r,
    loop pf a script st = (t, r) ->
    one_live_client (client_id <$> client st) t = true /\
    forall c, r = Return (Returned c) ->
              last_built (client_id <$> client st) t = Some (client_id c).
Proof.
  induction script as [|env script IH]; intros st t r.
  { simpl. by intros [= <- <-]. }
  simpl. intros [(e & Hit & ->)|(t1 & x & t2 & Hit & Hrest & ->)]%run_bind_cases.
  { apply iteration_live in Hit as [Hlive _]. done. }
  apply iteration_live in Hit as (Hlive & Hloop & Hret).
  rewrite one_live_client_app, last_built_app, Hlive. simpl.
  destruct x as [st1|c].
  - destruct (Hloop st1 eq_refl) as (-> & _). by apply IH.
  - injection Hrest as <- <-. rewrite (Hret c eq_refl). simpl. split; [done|].
    by intros ? [= <-].
Qed.

End loop_facts.

Lemma timeouts_counted : counted is_timeout 1 0 0.
Proof.
  intros s exc Hexc. destruct (classify_timeout s exc Hexc) as (s1 & ? & ? & ? & ?).
  by exists s1, false.
Qed.

Lemma transient_failures_counted : counted is_transient_failure 0 0 1.
Proof. intros s exc Hexc. apply classify_transient, Hexc. Qed.

Lemma is_transient_failure_spec exc :
  is_transient_failure exc = true <->
  (exn_class exc = BrokenPipeError \/ exn_class exc = EOFError \/
   (is_BLEAK_EXCEPTIONS (exn_class exc) = true /\
    any_in TRANSIENT_ERRORS (exn_str exc) = true)).
Proof.
  unfold is_transient_failure.
  destruct (exn_class exc); simpl; intuition congruence.
Qed.

Lemma no_sleep_not_elem t q : existsb is_sleep t = false -> EvSleep q ∉ t.
Proof.
  induction t as [|ev t IH]; simpl.
  - intros _ Hin. by apply elem_of_nil in Hin.
  - intros [Hev Ht]%orb_false_iff [<-|Hin]%elem_of_cons; [done|]. by apply IH.
Qed.

(** ** The claims about the retry loop *)

(** C1.  [_raise_if_needed] returns exactly when
    [timeouts + connect_errors < max_attempts] and [transient_errors < 9],
    and otherwise raises one of the terminal errors; so a failed attempt
    is followed by another one exactly when the counters, after counting
    the failure, are within that budget.  From the start of a call, a run
    of fewer than [max_attempts] timeouts leaves the loop running with
    every timeout counted, and the timeout that makes
    [timeouts + connect_errors] equal to [max_attempts] raises
    [BleakNotFoundError]. *)
Theorem timeouts_exhaust_budget pf a :
  (forall st description exc,
     _raise_if_needed a st description exc = Return tt <-> within_budget a st) /\
  (forall st description exc e,
     _raise_if_needed a st description exc = Raise e ->
     ~ within_budget a st /\ is_terminal (exn_class e) = true) /\
  (forall st c env exc st1 backoff,
     att_connect env = Raise exc -> classify st exc = Some (st1, backoff) ->
     (within_budget a st1 ->
        snd (attempt_connect a st c env) = Return (Looping st1)) /\
     (~ within_budget a st1 ->
        exists e, snd (attempt_connect a st c env) = Raise e /\
                  is_terminal (exn_class e) = true)) /\
  (forall script,
     callback_details_iterable a ->
     Forall (fails_with is_timeout) script ->
     Z.of_nat (length script) < max_attempts a ->
     (exists t st,
        establish_connection pf a script = (t, Return (Looping st)) /\
        timeouts st = Z.of_nat (length script) /\
        connect_errors st = 0 /\ transient_errors st = 0 /\
        attempt st = Z.of_nat (length script)) /\
     (forall env,
        fails_with is_timeout env ->
        Z.of_nat (length script) + 1 = max_attempts a ->
        exists t msg,
          establish_connection pf a (script ++ [env])
            = (t, Raise (Exn BleakNotFoundError msg)))).
Proof.
  split; [apply raise_if_needed_returns|]. split; [apply raise_if_needed_raises|]. split.
  - intros st c env exc st1 backoff Hconn Hcls.
    rewrite (attempt_connect_failure a st c env exc st1 backoff Hconn Hcls). simpl.
    destruct (raise_if_needed_cases a st1 (ble_device_description (device st)) exc)
      as [[Hin ->]|(Hout & e & -> & Hterm)]; split; try done. eauto.
  - intros script Hcb Hall Hlen.
    destruct (loop_failures pf a is_timeout 1 0 0 timeouts_counted ltac:(lia) ltac:(lia)
                Hcb script (initial_state a) Hall (initial_state_bound a))
      as (t & st & Hloop & Ht & Hc & Htr & Hatt & Hbound).
    { simpl. lia. }
    { simpl. unfold MAX_TRANSIENT_ERRORS. lia. }
    simpl in Ht, Hc, Htr, Hatt. split.
    { exists t, st. unfold establish_connection. repeat split; try done; lia. }
    intros env Henv Hlast.
    destruct (iteration_gives_up pf a is_timeout 1 0 0 st env timeouts_counted Hcb
                Hbound Henv) as (t1 & [cls msg] & Hit & _ & Hnf).
    { lia. }
    destruct Henv as (_ & exc & Hconn & Hexc).
    specialize (Hnf exc Hconn Hexc). simpl in Hnf. subst cls.
    unfold establish_connection. rewrite (loop_app pf a _ _ _ _ _ Hloop).
    rewrite (loop_step_raise pf a _ _ _ _ _ Hit). simpl. by eexists _, _.
Qed.

(** C3 (amended).  [BrokenPipeError], [EOFError] and a transport or
    attribute error whose message holds one of [TRANSIENT_ERRORS] add one
    to [transient_errors] and leave [connect_errors] alone; every other
    transport or attribute error adds one to [connect_errors] and leaves
    [transient_errors] alone.  With [max_attempts] positive, the loop goes
    on after each of the first 8 such transient failures and raises a
    terminal error at the 9th, when [transient_errors] reaches
    [MAX_TRANSIENT_ERRORS]. *)
Theorem transient_failures_exhaust_budget pf a :
  (forall st exc st1 backoff,
     classify st exc = Some (st1, backoff) ->
     (is_transient_failure exc = true ->
        transient_errors st1 = transient_errors st + 1 /\
        connect_errors st1 = connect_errors st /\ timeouts st1 = timeouts st) /\
     (is_BLEAK_EXCEPTIONS (exn_class exc) = true ->
      is_transient_failure exc = false ->
        connect_errors st1 = connect_errors st + 1 /\
        transient_errors st1 = transient_errors st /\ timeouts st1 = timeouts st)) /\
  (forall exc,
     is_transient_failure exc = true <->
     (exn_class exc = BrokenPipeError \/ exn_class exc = EOFError \/
      (is_BLEAK_EXCEPTIONS (exn_class exc) = true /\
       any_in TRANSIENT_ERRORS (exn_str exc) = true))) /\
  (forall script,
     callback_details_iterable a -> 0 < max_attempts a ->
     Forall (fails_with is_transient_failure) script ->
     (length script <= 8)%nat ->
     (exists t st,
        establish_connection pf a script = (t, Return (Looping st)) /\
        transient_errors st = Z.of_nat (length script) /\
        connect_errors st = 0 /\ timeouts st = 0) /\
     (forall env,
        fails_with is_transient_failure env -> length script = 8%nat ->
        exists t e,
          establish_connection pf a (script ++ [env]) = (t, Raise e) /\
          is_terminal (exn_class e) = true)).
Proof.
  split; [|split; [apply is_transient_failure_spec|]].
  - intros st exc st1 backoff Hcls. split.
    + intros Htr.
      destruct (classify_transient st exc Htr) as (s1 & b & Hcls' & ? & ? & ?).
      rewrite Hcls in Hcls'. injection Hcls' as <- <-. lia.
    + intros Hbleak Hnot.
      assert (any_in TRANSIENT_ERRORS (exn_str exc) = false) as Hmsg.
      { destruct (any_in _ _) eqn:Hany; [|done].
        rewrite <- Hnot. symmetry. apply is_transient_failure_spec. eauto. }
      destruct (classify_connect_error st exc Hbleak Hmsg) as (s1 & b & Hcls' & ? & ? & ?).
      rewrite Hcls in Hcls'. by injection Hcls' as <- <-.
  - intros script Hcb Hmax Hall Hlen.
    destruct (loop_failures pf a is_transient_failure 0 0 1 transient_failures_counted
                ltac:(lia) ltac:(lia) Hcb script (initial_state a) Hall
                (initial_state_bound a))
      as (t & st & Hloop & Ht & Hc & Htr & Hatt & Hbound).
    { simpl. lia. }
    { simpl. unfold MAX_TRANSIENT_ERRORS. lia. }
    simpl in Ht, Hc, Htr, Hatt. split.
    { exists t, st. unfold establish_connection. repeat split; try done; lia. }
    intros env Henv Hlast.
    destruct (iteration_gives_up pf a is_transient_failure 0 0 1 st env
                transient_failures_counted Hcb Hbound Henv) as (t1 & e & Hit & Hterm & _).
    { unfold MAX_TRANSIENT_ERRORS. lia. }
    unfold establish_connection. rewrite (loop_app pf a _ _ _ _ _ Hloop).
    rewrite (loop_step_raise pf a _ _ _ _ _ Hit). simpl. by eexists _, _.
Qed.

(** C4.  The call starts with no client and [create_client] set, so the
    first pass builds one.  A pass that reaches [connect] holds exactly
    one client: on a later pass it is the client of the pass before when
    [ble_device_has_changed] says the device did not change (same
    address, and not two different paths), with no client built; it is a
    newly built client, bound to the device of this pass, when the device
    changed.  Every pass that ends in a retry leaves [create_client]
    unset, and throughout a call every operation on a client is made on
    the client built last, which is also the one returned. *)
Theorem client_rebuilt_only_on_change pf a :
  (create_client (initial_state a) = true /\ client (initial_state a) = None) /\
  (forall st env t st' c',
     prepare pf a st env = (t, Return (st', c')) ->
     client st' = Some c' /\ create_client st' = false /\
     (create_client st = true ->
        client_id c' = constructed st /\ client_device c' = device st' /\
        constructed st' = S (constructed st) /\
        exists t', t = EvConstruct (constructed st) (device st') :: t' /\
                   existsb is_construct t' = false) /\
     (create_client st = false ->
        exists changed,
          ble_device_has_changed (device st) (device st') = Return changed /\
          (changed = true <->
             (address (device st) <> address (device st') \/
              exists p q, details_path (details (device st)) = Some p /\
                          details_path (details (device st')) = Some q /\ p <> q)) /\
          (changed = false ->
             client st = Some c' /\ constructed st' = constructed st /\
             existsb is_construct t = false) /\
          (changed = true ->
             client_id c' = constructed st /\ client_device c' = device st' /\
             constructed st' = S (constructed st) /\
             exists t', t = EvConstruct (constructed st) (device st') :: t' /\
                        existsb is_construct t' = false))) /\
  (forall st env t st',
     iteration pf a st env = (t, Return (Looping st')) ->
     create_client st' = false /\ is_Some (client st')) /\
  (forall script t r,
     establish_connection pf a script = (t, r) ->
     one_live_client None t = true /\
     forall c, r = Return (Returned c) -> last_built None t = Some (client_id c)).
Proof.
  split; [done|]. split; [|split].
  - intros st env t st' c' Hprep.
    apply prepare_spec in Hprep
      as (_ & _ & _ & _ & Hcreate & Hcl & _ & create & Hneed & Hbuilt & Hkept).
    split; [done|]. split; [done|]. unfold client_needed in Hneed. split.
    + intros Hfirst. rewrite Hfirst in Hneed. injection Hneed as <-.
      destruct Hbuilt as (? & ? & ? & t' & ? & ? & _); [done|]. eauto 10.
    + intros Hlater. rewrite Hlater in Hneed. exists create.
      split; [done|]. split; [by apply ble_device_has_changed_spec|]. split.
      * intros ->. destruct Hkept as (? & ? & ? & _); done.
      * intros ->. destruct Hbuilt as (? & ? & ? & t' & ? & ? & _); [done|]. eauto 10.
  - intros st env t st' Hit.
    apply iteration_live in Hit as (_ & Hloop & _).
    by destruct (Hloop st' eq_refl) as (_ & ? & ?).
  - intros script t r Hrun. by apply loop_live in Hrun.
Qed.

(** C7.  A pass whose [connect] fails and which is followed by another
    pass sleeps for [BLEAK_DBUS_BACKOFF_TIME] exactly when the failure is
    an [EOFError] or a [BleakDBusError]; the sleep comes after the call to
    [connect] and before the final [asyncio.sleep(0)], and for any other
    failure (timeout, broken pipe, other transport errors) the pass makes
    no sleep but the final one. *)
Theorem backoff_sleep_on_bus_errors pf a st env exc t st' :
  att_connect env = Raise exc ->
  iteration pf a st env = (t, Return (Looping st')) ->
  (EvSleep BLEAK_DBUS_BACKOFF_TIME ∈ t <->
     exn_class exc = EOFError \/ exn_class exc = BleakDBusError) /\
  exists t0 id flag,
    existsb is_sleep t0 = false /\
    t = (t0 ++ EvConnect id flag
            :: (if bool_decide (exn_class exc = EOFError \/ exn_class exc = BleakDBusError)
                then [EvSleep BLEAK_DBUS_BACKOFF_TIME] else [])
            ++ [EvSleep 0])%list.
Proof.
  intros Hconn. unfold iteration.
  intros (t0 & [st0 c] & t2 & Hprep & Hatt & ->)%run_bind_return.
  apply prepare_spec in Hprep as (_ & _ & _ & _ & _ & _ & Hnosleep & _).
  pose proof (attempt_connect_result _ _ _ _ _ _ Hatt) as (exc' & backoff & Hconn' & Hcls).
  rewrite Hconn in Hconn'. injection Hconn' as <-.
  rewrite (attempt_connect_failure a st0 c env exc st' backoff Hconn Hcls) in Hatt.
  destruct (_raise_if_needed _ _ _ _); [|done]. injection Hatt as <-.
  pose proof (classify_backoff _ _ _ _ Hcls) as Hback.
  assert (backoff = bool_decide (exn_class exc = EOFError \/ exn_class exc = BleakDBusError))
    as ->.
  { destruct backoff.
    - symmetry. apply bool_decide_eq_true. by apply Hback.
    - symmetry. apply bool_decide_eq_false. intros H%Hback. done. }
  split; [|by eexists _, _, _].
  rewrite elem_of_app, elem_of_cons, elem_of_app. case_bool_decide as Hbus.
  - split; [done|]. intros _. right. right. left. apply list_elem_of_here.
  - split; [|done].
    intros [Hin|[?|[Hin|Hin]]]; try done.
    + by apply no_sleep_not_elem in Hin.
    + by apply elem_of_nil in Hin.
    + by apply list_elem_of_singleton in Hin.
Qed.

(** *** Concrete instances *)

Lemma failing_fails_with (P : exn -> bool) exc :
  P exc = true -> fails_with P (failing exc).
Proof.
  intros HP. split; [split|].
  - intros e He. discriminate He.
  - reflexivity.
  - exists exc. split; [reflexivity|exact HP].
Qed.

Ltac all_failing :=
  simpl; repeat (constructor; [apply failing_fails_with; reflexivity|]); constructor.

Lemma default_args_callback : callback_details_iterable default_args.
Proof. intros callback k H. discriminate H. Qed.

Lemma timeouts_exhaust_budget_witness :
  exists t msg,
    establish_connection linux default_args (replicate 3 (failing timeout) ++ [failing timeout])
      = (t, Raise (Exn BleakNotFoundError msg)).
Proof.
  destruct (timeouts_exhaust_budget linux default_args) as (_ & _ & _ & Hrun).
  destruct (Hrun (replicate 3 (failing timeout))) as [_ Hlast].
  - exact default_args_callback.
  - all_failing.
  - vm_compute. reflexivity.
  - apply Hlast.
    + apply failing_fails_with. reflexivity.
    + vm_compute. reflexivity.
Defined.

(** C3, as stated, fails: the ninth transient failure in a row is not
    tolerated, it ends the call; only eight are. *)
Lemma ninth_transient_failure_raises :
  Forall (fun env => is_transient_failure broken_pipe = true /\
                     att_connect env = Raise broken_pipe)
         (replicate 9 (failing broken_pipe)) /\
  snd (establish_connection linux default_args (replicate 9 (failing broken_pipe)))
    = Raise (Exn BleakConnectionError
               "x - /org/bluez/hci0/dev_X: Failed to connect: [Errno 32] Broken pipe") /\
  exists st,
    snd (establish_connection linux default_args (replicate 8 (failing broken_pipe)))
      = Return (Looping st) /\
    transient_errors st = 8 /\ connect_errors st = 0 /\ timeouts st = 0.
Proof.
  split; [repeat constructor|]. split; [vm_compute; reflexivity|].
  eexists. split; [vm_compute; reflexivity|]. repeat split.
Qed.

Lemma transient_failures_exhaust_budget_witness :
  exists t e,
    establish_connection linux default_args
        (replicate 8 (failing broken_pipe) ++ [failing end_of_stream]) = (t, Raise e) /\
    is_terminal (exn_class e) = true.
Proof.
  destruct (transient_failures_exhaust_budget linux default_args) as (_ & _ & Hrun).
  destruct (Hrun (replicate 8 (failing broken_pipe))) as [_ Hlast].
  - exact default_args_callback.
  - vm_compute. reflexivity.
  - all_failing.
  - simpl. lia.
  - apply Hlast.
    + apply failing_fails_with. reflexivity.
    + reflexivity.
Defined.

Lemma client_rebuilt_only_on_change_witness :
  (exists t st',
     prepare linux default_args after_one_timeout (failing timeout)
       = (t, Return (st', first_client)) /\
     existsb is_construct t = false) /\
  (exists t st' c',
     prepare linux roaming_args after_one_timeout (failing timeout)
       = (t, Return (st', c')) /\
     client_id c' = 1%nat /\ client_device c' = moved_device).
Proof.
  split.
  - destruct (client_rebuilt_only_on_change linux default_args) as (_ & Hprep & _).
    eexists _, _. split; [vm_compute; reflexivity|].
    edestruct (Hprep after_one_timeout (failing timeout)) as (_ & _ & _ & Hlater);
      [vm_compute; reflexivity|].
    destruct (Hlater eq_refl) as (changed & Hchanged & _ & Hsame & _).
    vm_compute in Hchanged. injection Hchanged as <-.
    destruct (Hsame eq_refl) as (_ & _ & Hnone). exact Hnone.
  - destruct (client_rebuilt_only_on_change linux roaming_args) as (_ & Hprep & _).
    eexists _, _, _. split; [vm_compute; reflexivity|].
    edestruct (Hprep after_one_timeout (failing timeout)) as (_ & _ & _ & Hlater);
      [vm_compute; reflexivity|].
    destruct (Hlater eq_refl) as (changed & Hchanged & _ & _ & Hnew).
    vm_compute in Hchanged. injection Hchanged as <-.
    destruct (Hnew eq_refl) as (Hid & Hdev & _). split; [exact Hid|exact Hdev].
Defined.

Lemma backoff_sleep_on_bus_errors_witness :
  EvSleep BLEAK_DBUS_BACKOFF_TIME
    ∈ fst (iteration linux default_args (initial_state default_args)
             (failing end_of_stream)).
Proof.
  edestruct (backoff_sleep_on_bus_errors linux default_args (initial_state default_args)
               (failing end_of_stream) end_of_stream) as [Hiff _].
  - reflexivity.
  - vm_compute. reflexivity.
  - apply Hiff. left. reflexivity.
Defined.

(** * Further properties *)

(** ** Strings *)

Local Arguments String.append !_ _ : simpl nomatch.

Lemma str_app_assoc s1 s2 s3 : (s1 +:+ s2) +:+ s3 = s1 +:+ (s2 +:+ s3).
Proof. induction s1 as [|c s1 IH]; simpl; [done|]. by f_equal. Qed.

Lemma str_app_nil_r s : s +:+ "" = s.
Proof. induction s as [|c s IH]; simpl; [done|]. by f_equal. Qed.

Lemma str_length_app s1 s2 :
  String.length (s1 +:+ s2) = (String.length s1 + String.length s2)%nat.
Proof. induction s1 as [|c s1 IH]; simpl; [done|]. by f_equal. Qed.

Lemma str_take_length n s :
  String.length (str_take n s) = Nat.min n (String.length s).
Proof.
  revert s. induction n as [|n IH]; intros [|c s]; simpl; try done. by rewrite IH.
Qed.

Lemma str_take_app n s t : String.length s = n -> str_take n (s +:+ t) = s.
Proof.
  revert s. induction n as [|n IH]; intros [|c s]; simpl; try done.
  intros [= Hlen]. by rewrite IH.
Qed.

Lemma str_drop_app n s t : String.length s = n -> str_drop n (s +:+ t) = t.
Proof.
  revert s. induction n as [|n IH]; intros [|c s]; simpl; try done.
  intros [= Hlen]. by apply IH.
Qed.

Lemma str_split_at n s c :
  String.get n s = Some c -> s = str_take n s +:+ String c (str_drop (S n) s).
Proof.
  revert s. induction n as [|n IH]; intros [|c' s]; simpl; try done.
  - by intros [= ->].
  - intros Hget. f_equal. by apply IH.
Qed.

Lemma str_get_none n s :
  String.get n s = None -> str_take n s = s /\ str_drop (S n) s = "".
Proof.
  revert s. induction n as [|n IH]; intros [|c' s]; simpl; try done.
  intros Hget. destruct (IH s Hget) as [-> Hd]. split; [done|].
  by destruct s.
Qed.

Lemma digit_str_inj i j : (i < 9)%nat -> (j < 9)%nat -> digit_str i = digit_str j -> i = j.
Proof.
  intros Hi Hj [= Heq]%(f_equal (fun s => match s with
                                         | String c _ => Ascii.nat_of_ascii c
                                         | _ => 0%nat
                                         end)).
  rewrite !Ascii.nat_ascii_embedding in Heq by lia. lia.
Qed.

(** ** The sibling paths *)

Lemma possible_path_eq path i j :
  (i < 9)%nat -> (j < 9)%nat ->
  str_take 14 path +:+ digit_str i +:+ str_drop 15 path
    = str_take 14 path +:+ digit_str j +:+ str_drop 15 path ->
  i = j.
Proof.
  intros Hi Hj Heq. apply String.app_inj in Heq.
  apply (digit_str_inj i j Hi Hj). unfold digit_str.
  change (String (Ascii.ascii_of_nat (48 + i)) (str_drop 15 path)
          = String (Ascii.ascii_of_nat (48 + j)) (str_drop 15 path)) in Heq.
  injection Heq as Heq. exact (f_equal (fun c => String c "") Heq).
Qed.

Lemma possible_paths_of_sibling path p :
  (14 <= String.length path)%nat ->
  p ∈ _get_possible_paths path ->
  _get_possible_paths p = _get_possible_paths path.
Proof.
  intros Hlen (i & Hi & ->)%elem_of_possible_paths.
  assert (String.length (str_take 14 path) = 14%nat) as Htake
    by (rewrite str_take_length; lia).
  unfold _get_possible_paths.
  rewrite (str_take_app 14 _ _ Htake).
  rewrite <- str_app_assoc.
  rewrite (str_drop_app 15); [done|].
  rewrite str_length_app, Htake. reflexivity.
Qed.

Lemma possible_paths_self path :
  path ∈ _get_possible_paths path <->
  exists i, (i < 9)%nat /\ String.get 14 path = Some (Ascii.ascii_of_nat (48 + i)).
Proof.
  rewrite elem_of_possible_paths. split.
  - intros (i & Hi & Heq). exists i. split; [done|].
    destruct (String.get 14 path) as [c|] eqn:Hget.
    + rewrite (str_split_at 14 path c Hget) in Heq at 1.
      apply String.app_inj in Heq.
      change (String c (str_drop 15 path)
              = String (Ascii.ascii_of_nat (48 + i)) (str_drop 15 path)) in Heq.
      by injection Heq as ->.
    + destruct (str_get_none 14 path Hget) as [Ht Hd].
      rewrite Ht, Hd in Heq. rewrite <- (str_app_nil_r path) in Heq at 1.
      by apply String.app_inj in Heq.
  - intros (i & Hi & Hget). exists i. split; [done|].
    by rewrite (str_split_at 14 path _ Hget) at 1.
Qed.

Lemma possible_paths_NoDup path : NoDup (_get_possible_paths path).
Proof.
  unfold _get_possible_paths. apply NoDup_fmap_2_strong; [|apply NoDup_seq].
  intros i j Hi%elem_of_seq Hj%elem_of_seq Heq.
  apply (possible_path_eq path i j); [lia..|done].
Qed.

(** X1.  [_get_possible_paths] always yields 9 pairwise different paths;
    the path it is given is among them exactly when its character at
    offset 14 is one of the digits 0 to 8; and for a path of at least 14
    characters every path it yields has the same siblings. *)
Theorem possible_paths_are_siblings path :
  length (_get_possible_paths path) = 9%nat /\
  NoDup (_get_possible_paths path) /\
  (path ∈ _get_possible_paths path <->
     exists i, (i < 9)%nat /\
               String.get 14 path = Some (Ascii.ascii_of_nat (48 + i))) /\
  ((14 <= String.length path)%nat ->
   forall p, p ∈ _get_possible_paths path ->
             _get_possible_paths p = _get_possible_paths path).
Proof.
  split; [reflexivity|]. split; [apply possible_paths_NoDup|].
  split; [apply possible_paths_self|].
  intros Hlen p Hp. by apply possible_paths_of_sibling.
Qed.

Lemma possible_paths_are_siblings_witness :
  _get_possible_paths Examples.hci5 = _get_possible_paths Examples.hci2.
Proof.
  destruct (possible_paths_are_siblings Examples.hci2) as (_ & _ & _ & Hsame).
  apply Hsame.
  - vm_compute. lia.
  - apply elem_of_possible_paths. exists 5%nat. split; [lia|reflexivity].
Defined.

(** ** What the resolver returns *)

Lemma manufacturer_bytes_returns items md :
  manufacturer_bytes items = Return md ->
  md = items /\
  Forall (fun item => Forall (fun b => 0 <= b < 256) (snd item)) items.
Proof.
  revert md. induction items as [|[k v] items IH]; intros md; simpl.
  { by intros [= <-]. }
  unfold bytes, mbind, Outcome_bind.
  destruct (forallb _ v) eqn:Hv; [|done].
  destruct (manufacturer_bytes items) as [md'|e]; [|done].
  intros [= <-]. destruct (IH md' eq_refl) as [-> Hall]. split; [done|].
  constructor; [|done]. simpl.
  apply Forall_forall. intros b Hb.
  rewrite forallb_forall in Hv. apply list_elem_of_In, Hv in Hb. lia.
Qed.

Lemma scan_result_in properties path d l st :
  fst (scan properties path d l st) = fst st \/
  fst (scan properties path d l st) ∈ l.
Proof.
  revert st. induction l as [|p l IH]; intros st; [by left|].
  rewrite scan_cons. destruct (IH (scan_step properties path d st p)) as [Heq|Hin].
  - rewrite Heq. unfold scan_step.
    destruct (String.eqb p path); [by left|].
    destruct (device_record properties p) as [rec|]; [|by left].
    destruct (candidate_rejected _ _ _); [by left|].
    right. apply list_elem_of_here.
  - right. by apply list_elem_of_further.
Qed.

Section resolver_results.

Variable properties : Properties.
Variable path : string.
Variable rssi0 : option Z.

Local Abbreviation d := (initial_rssi properties path rssi0).
Local Abbreviation final :=
  (scan properties path d (_get_possible_paths path) (path, d)).

(** The handle, in full. *)
Lemma get_bluez_device_handle h :
  get_bluez_device (Return properties) path rssi0 = Return (Some h) ->
  exists rec,
    fst final ∈ _get_possible_paths path /\ fst final <> path /\
    device_record properties (fst final) = Some rec /\
    snd final = rssi_or_unreachable (RSSI rec) /\
    h = {| address := default "" (Address rec);
           name := default "" (Alias rec);
           details := DetailsDict (Some (fst final)) (Some rec);
           rssi := Some (snd final);
           uuids := default [] (UUIDs rec);
           manufacturer_data := default [] (ManufacturerData rec) |} /\
    is_Some (Address rec) /\ is_Some (Alias rec) /\
    Forall (fun item => Forall (fun b => 0 <= b < 256) (snd item))
           (default [] (ManufacturerData rec)).
Proof.
  intros Hget.
  pose proof (scan_inv_preserved properties path d (_get_possible_paths path) _
                (initial_state_inv properties path rssi0)) as Hinv.
  pose proof (scan_result_in properties path d (_get_possible_paths path) (path, d))
    as Hin.
  revert Hget. unfold get_bluez_device, get_bluez_device_try, mbind, Outcome_bind.
  set (fin := scan _ _ _ _ _) in *. clearbody fin. destruct fin as [best rtb].
  simpl in *.
  destruct (String.eqb_spec best path) as [->|Hne]; [done|].
  destruct Hin as [?|Hin]; [done|].
  destruct Hinv as [?|(_ & rec' & Hrec' & Hrtb)]; [done|].
  simpl in Hrec', Hrtb. rewrite Hrec'. cbn [getitem].
  destruct (Address rec') as [a|] eqn:Ha; [|done].
  destruct (Alias rec') as [n|] eqn:Hn; [|done]. cbn [getitem].
  destruct (manufacturer_bytes _) as [md|e] eqn:Hmd; cbn [try_except_Exception];
    [|by destruct (is_Exception _)].
  apply manufacturer_bytes_returns in Hmd as [-> Hbytes].
  intros [= <-]. exists rec'. rewrite Ha, Hn. by eauto 10.
Qed.

(** With a readable snapshot the resolver returns. *)
Lemma get_bluez_device_cases :
  (fst final = path /\ get_bluez_device (Return properties) path rssi0 = Return None) \/
  (exists rec, fst final <> path /\ device_record properties (fst final) = Some rec /\
     ((Address rec = None \/ Alias rec = None \/
       exists e, manufacturer_bytes (default [] (ManufacturerData rec)) = Raise e) /\
      get_bluez_device (Return properties) path rssi0 = Return None
      \/
      (exists h, get_bluez_device (Return properties) path rssi0 = Return (Some h)))).
Proof.
  pose proof (scan_inv_preserved properties path d (_get_possible_paths path) _
                (initial_state_inv properties path rssi0)) as Hinv.
  destruct (decide (fst final = path)) as [Heq|Hne].
  { left. split; [done|]. by apply get_bluez_device_none. }
  right. destruct Hinv as [?|(_ & rec & Hrec & _)]; [done|].
  exists rec. split; [done|]. split; [done|].
  destruct (Address rec) as [a|] eqn:Ha; [destruct (Alias rec) as [n|] eqn:Hn;
    [destruct (manufacturer_bytes (default [] (ManufacturerData rec))) as [md|e] eqn:Hmd|]|].
  - right. eexists. by eapply get_bluez_device_built.
  - left. split; [eauto|].
    unfold get_bluez_device, get_bluez_device_try, mbind, Outcome_bind.
    destruct final as [best rtb]. simpl in *.
    destruct (String.eqb_spec best path); [done|].
    rewrite Hrec. cbn [getitem]. rewrite Ha, Hn. cbn [getitem]. rewrite Hmd.
    apply manufacturer_bytes_raises in Hmd. simpl. by rewrite Hmd.
  - left. split; [eauto|].
    unfold get_bluez_device, get_bluez_device_try, mbind, Outcome_bind.
    destruct final as [best rtb]. simpl in *.
    destruct (String.eqb_spec best path); [done|].
    rewrite Hrec. cbn [getitem]. by rewrite Ha, Hn.
  - left. split; [eauto|].
    unfold get_bluez_device, get_bluez_device_try, mbind, Outcome_bind.
    destruct final as [best rtb]. simpl in *.
    destruct (String.eqb_spec best path); [done|].
    rewrite Hrec. cbn [getitem]. by rewrite Ha.
Qed.

End resolver_results.

(** ** The scan keeps the strongest sibling *)

Ltac rssi_lia := unfold UNREACHABLE_RSSI, RSSI_SWITCH_THRESHOLD in *; lia.

Lemma rssi_or_unreachable_cases signal :
  (rssi_or_unreachable signal = UNREACHABLE_RSSI /\ (signal = None \/ signal = Some 0)) \/
  (exists s, signal = Some s /\ s <> 0 /\ rssi_or_unreachable signal = s).
Proof.
  destruct signal as [s|]; [|left; eauto]. simpl.
  destruct (Z.eqb_spec s 0) as [->|Hs]; [left; eauto|right; eauto].
Qed.

Lemma candidate_rejected_true rssi_to_beat device_rssi signal :
  candidate_rejected rssi_to_beat device_rssi signal = true ->
  rssi_to_beat <> UNREACHABLE_RSSI /\
  (rssi_or_unreachable signal = UNREACHABLE_RSSI \/
   rssi_or_unreachable signal < device_rssi + RSSI_SWITCH_THRESHOLD \/
   rssi_or_unreachable signal < rssi_to_beat).
Proof.
  unfold candidate_rejected.
  destruct (Z.eqb_spec rssi_to_beat UNREACHABLE_RSSI) as [|Hrtb]; [done|]. simpl.
  intros Hrej. split; [done|].
  destruct (rssi_or_unreachable_cases signal) as [[? _]|(s & -> & Hs & ->)]; [by left|].
  right. rewrite !orb_true_iff, Z.eqb_eq, !Z.ltb_lt in Hrej. rssi_lia.
Qed.

Section scan_bounds.

Variable properties : Properties.
Variable path : string.
Variable d : Z.
Hypothesis d_bound : UNREACHABLE_RSSI <= d.

Local Abbreviation bounds := (scan_bounds properties path d).
Local Abbreviation step := (scan_step properties path d).

Lemma scan_step_bounds seen st p :
  (forall rec s, p <> path -> device_record properties p = Some rec ->
                 RSSI rec = Some s ->
                 s = 0 \/ UNREACHABLE_RSSI + RSSI_SWITCH_THRESHOLD <= s) ->
  bounds seen st -> bounds (seen ++ [p]) (step st p).
Proof.
  intros Hplausible (Ha & Hb & Hc & Hd).
  destruct (String.eqb_spec p path) as [->|Hne].
  { rewrite scan_step_self. repeat split; try done.
    intros q rec [Hq|Hq]%elem_of_app; [intros; by eapply Hd|].
    apply list_elem_of_singleton in Hq. by subst q. }
  destruct (device_record properties p) as [rec|] eqn:Hrec.
  2:{ rewrite scan_step_absent by done. repeat split; try done.
      intros q rec [Hq|Hq]%elem_of_app; [intros; by eapply Hd|].
      apply list_elem_of_singleton in Hq. subst q. congruence. }
  rewrite (scan_step_present _ _ _ _ _ rec) by done.
  specialize (Hplausible rec).
  destruct (candidate_rejected (snd st) d (RSSI rec)) eqn:Hrej.
  - apply candidate_rejected_true in Hrej as (Hrtb & Hweak).
    repeat split; try done.
    intros q rec' [Hq|Hq]%elem_of_app Hq' Hrec'; [by eapply Hd|].
    apply list_elem_of_singleton in Hq. subst q.
    rewrite Hrec in Hrec'. injection Hrec' as <-. rssi_lia.
  - assert (UNREACHABLE_RSSI <= rssi_or_unreachable (RSSI rec) /\
            snd st <= rssi_or_unreachable (RSSI rec) /\
            (rssi_or_unreachable (RSSI rec) = UNREACHABLE_RSSI \/
             d + RSSI_SWITCH_THRESHOLD <= rssi_or_unreachable (RSSI rec)))
      as (Ha' & Hup & Hc').
    { destruct (decide (snd st = UNREACHABLE_RSSI)) as [Hsent|Hrtb].
      - assert (d = UNREACHABLE_RSSI) as Hd0 by rssi_lia.
        destruct (rssi_or_unreachable_cases (RSSI rec)) as [[-> _]|(s & Hs & Hs0 & ->)];
          [rssi_lia|].
        destruct (Hplausible s Hne eq_refl Hs); rssi_lia.
      - apply (candidate_accepted_iff _ _ _ Hrtb) in Hrej as (s & Hs & Hs0 & Hthr & Hbeat).
        rewrite Hs. simpl. destruct (Z.eqb_spec s 0); rssi_lia. }
    unfold scan_bounds. simpl. repeat split; try done; try rssi_lia.
    intros q rec' [Hq|Hq]%elem_of_app Hq' Hrec'.
    + destruct (Hd q rec' Hq Hq' Hrec'); [left|right]; rssi_lia.
    + apply list_elem_of_singleton in Hq. subst q.
      rewrite Hrec in Hrec'. injection Hrec' as <-. left. rssi_lia.
Qed.

Lemma scan_bounds_preserved l :
  forall seen st,
    (forall q rec s, q ∈ l -> q <> path -> device_record properties q = Some rec ->
                     RSSI rec = Some s ->
                     s = 0 \/ UNREACHABLE_RSSI + RSSI_SWITCH_THRESHOLD <= s) ->
    bounds seen st -> bounds (seen ++ l) (scan properties path d l st).
Proof.
  induction l as [|p l IH]; intros seen st Hplausible Hbounds.
  { by rewrite app_nil_r. }
  rewrite scan_cons. replace (seen ++ p :: l)%list with ((seen ++ [p]) ++ l)%list
    by (by rewrite <- app_assoc).
  apply IH.
  - intros q rec s Hq. apply Hplausible. by apply list_elem_of_further.
  - apply scan_step_bounds; [|done]. intros rec s. apply Hplausible, list_elem_of_here.
Qed.

(** After a scan that adopted a sibling no sibling is stronger than the
    incumbent. *)
Lemma scan_strongest l st :
  (forall q rec s, q ∈ l -> q <> path -> device_record properties q = Some rec ->
                   RSSI rec = Some s ->
                   s = 0 \/ UNREACHABLE_RSSI + RSSI_SWITCH_THRESHOLD <= s) ->
  bounds [] st ->
  fst (scan properties path d l st) <> path ->
  (snd (scan properties path d l st) = UNREACHABLE_RSSI \/
   d + RSSI_SWITCH_THRESHOLD <= snd (scan properties path d l st)) /\
  forall q rec, q ∈ l -> q <> path -> device_record properties q = Some rec ->
                rssi_or_unreachable (RSSI rec) <= snd (scan properties path d l st).
Proof.
  intros Hplausible Hbounds Hne.
  destruct (scan_bounds_preserved l [] st Hplausible Hbounds) as (Ha & Hb & Hc & Hd).
  specialize (Hc Hne). split; [done|].
  intros q rec Hq Hq' Hrec.
  destruct (Hd q rec Hq Hq' Hrec) as [?|Hshort]; [done|].
  destruct Hc as [Hsent|?]; [|lia].
  destruct (rssi_or_unreachable_cases (RSSI rec)) as [[-> _]|(s & Hs & Hs0 & Hror)]; [rssi_lia|].
  rewrite Hror in *. destruct (Hplausible q rec s Hq Hq' Hrec Hs); rssi_lia.
Qed.

End scan_bounds.

Lemma initial_bounds properties path rssi0 :
  UNREACHABLE_RSSI <= rssi_or_unreachable rssi0 ->
  UNREACHABLE_RSSI <= initial_rssi properties path rssi0 /\
  scan_bounds properties path (initial_rssi properties path rssi0) []
    (path, initial_rssi properties path rssi0).
Proof.
  intros Hr0.
  assert (UNREACHABLE_RSSI <= initial_rssi properties path rssi0) as Hd.
  { unfold initial_rssi. by destruct (device_record properties path). }
  split; [done|]. repeat split; simpl; try done.
  intros q rec Hq. by apply elem_of_nil in Hq.
Qed.

(** ** Properties of the resolver's result *)

(** X2.  A handle returned by [get_bluez_device] is read off the snapshot:
    its path is one of the sibling paths, other than the path asked
    about, and has a device record; address, name, UUIDs and manufacturer
    data are those of the record (every byte in range); its signal
    strength is the record's, or the sentinel when the record reports 0
    or none, and so never 0. *)
Theorem resolved_handle_is_sibling_record properties path rssi0 h :
  get_bluez_device (Return properties) path rssi0 = Return (Some h) ->
  exists p rec,
    p ∈ _get_possible_paths path /\ p <> path /\
    device_record properties p = Some rec /\
    details h = DetailsDict (Some p) (Some rec) /\
    Address rec = Some (address h) /\ Alias rec = Some (name h) /\
    rssi h = Some (rssi_or_unreachable (RSSI rec)) /\ rssi h <> Some 0 /\
    uuids h = default [] (UUIDs rec) /\
    manufacturer_data h = default [] (ManufacturerData rec) /\
    Forall (fun item => Forall (fun b => 0 <= b < 256) (snd item)) (manufacturer_data h).
Proof.
  intros (rec & Hin & Hne & Hrec & Hsnd & -> & [a Ha] & [n Hn] & Hbytes)
    %get_bluez_device_handle.
  set (fin := scan _ _ _ _ _) in *. clearbody fin.
  exists (fst fin), rec. rewrite Ha, Hn, Hsnd. simpl. repeat split; try done.
  intros [= H0]. by apply (rssi_or_unreachable_nonzero (RSSI rec)).
Qed.

Lemma resolved_handle_is_sibling_record_witness :
  exists p rec, p ∈ _get_possible_paths Examples.hci0 /\ p <> Examples.hci0 /\
    device_record Examples.snapshot_threshold p = Some rec /\
    rssi (Examples.handle Examples.hci1 (Some (-54))) = Some (rssi_or_unreachable (RSSI rec)).
Proof.
  destruct (resolved_handle_is_sibling_record Examples.snapshot_threshold Examples.hci0
              (Some (-60)) (Examples.handle Examples.hci1 (Some (-54))))
    as (p & rec & ? & ? & ? & _ & _ & _ & ? & _).
  - vm_compute. reflexivity.
  - exists p, rec. repeat split; assumption.
Defined.

(** X3.  With a readable snapshot [get_bluez_device] always returns.  It
    returns [None] exactly when the scan adopted no sibling or the record
    of the adopted sibling has no ["Address"], no ["Alias"], or
    manufacturer data that [bytes] refuses: a stronger sibling with an
    incomplete record yields no handle, not the next best one. *)
Theorem resolver_returns_none_iff properties path rssi0 :
  let final := scan properties path (initial_rssi properties path rssi0)
                 (_get_possible_paths path)
                 (path, initial_rssi properties path rssi0) in
  (exists v, get_bluez_device (Return properties) path rssi0 = Return v) /\
  (get_bluez_device (Return properties) path rssi0 = Return None <->
   fst final = path \/
   exists rec, device_record properties (fst final) = Some rec /\
     (Address rec = None \/ Alias rec = None \/
      exists e, manufacturer_bytes (default [] (ManufacturerData rec)) = Raise e)).
Proof.
  intros final. subst final.
  destruct (get_bluez_device_cases properties path rssi0)
    as [[Heq Hnone]|(rec & Hne & Hrec & [[Hbad Hnone]|[h Hsome]])].
  - split; [eauto|]. split; [by left|done].
  - split; [eauto|]. split; [|done]. intros _. right. eauto.
  - split; [eauto|]. rewrite Hsome. split; [done|].
    apply get_bluez_device_handle in Hsome
      as (rec' & _ & _ & Hrec' & _ & _ & [a Ha] & [n Hn] & Hbytes).
    rewrite Hrec in Hrec'. injection Hrec' as <-.
    intros [?|(rec'' & Hrec'' & Hbad)]; [done|].
    rewrite Hrec in Hrec''. injection Hrec'' as <-.
    destruct Hbad as [?|[?|[e He]]]; [congruence..|].
    exfalso. revert He Hbytes. generalize (default [] (ManufacturerData rec)).
    induction l as [|[k v] l IH]; simpl; [done|].
    intros He [Hv Hl]%Forall_cons. simpl in Hv.
    revert He. unfold bytes, mbind, Outcome_bind.
    assert (forallb (fun b => (0 <=? b) && (b <? 256)) v = true) as ->.
    { apply forallb_forall. intros b Hb%list_elem_of_In.
      rewrite Forall_forall in Hv. specialize (Hv b Hb). lia. }
    destruct (manufacturer_bytes l) as [md|e'] eqn:Hl'; [done|].
    intros He'. by apply IH.
Qed.

(** X4.  When the handle's own signal strength is unknown or above the
    sentinel and the sibling records report plausible strengths, a handle
    returned by [get_bluez_device] is at least as strong as every sibling
    in the snapshot (an unknown strength counting as the sentinel), and
    unless its own strength is the sentinel it beats the strength the
    scan started from by at least [RSSI_SWITCH_THRESHOLD]. *)
Theorem resolver_returns_strongest_sibling properties path rssi0 h :
  UNREACHABLE_RSSI <= rssi_or_unreachable rssi0 ->
  plausible_rssi properties path ->
  get_bluez_device (Return properties) path rssi0 = Return (Some h) ->
  exists r,
    rssi h = Some r /\
    (r = UNREACHABLE_RSSI \/
     initial_rssi properties path rssi0 + RSSI_SWITCH_THRESHOLD <= r) /\
    forall q rec, q ∈ _get_possible_paths path -> q <> path ->
                  device_record properties q = Some rec ->
                  rssi_or_unreachable (RSSI rec) <= r.
Proof.
  intros Hr0 Hplausible (rec & _ & Hne & _ & _ & -> & _)%get_bluez_device_handle.
  destruct (initial_bounds properties path rssi0 Hr0) as [Hd Hbounds].
  destruct (scan_strongest properties path _ Hd (_get_possible_paths path) _
              Hplausible Hbounds Hne) as [Hbeat Hmax].
  eexists. split; [reflexivity|]. split; [exact Hbeat|exact Hmax].
Qed.

Lemma snapshot_threshold_plausible :
  plausible_rssi Examples.snapshot_threshold Examples.hci0.
Proof.
  intros q rec s Hq Hne Hrec Hs.
  each_possible_path Hq; try (exfalso; apply Hne; reflexivity);
    vm_compute in Hrec; try discriminate Hrec.
  injection Hrec as <-. simpl in Hs. injection Hs as <-. right. rssi_lia.
Qed.

Lemma resolver_returns_strongest_sibling_witness :
  exists r, rssi (Examples.handle Examples.hci1 (Some (-54))) = Some r /\
    forall q rec, q ∈ _get_possible_paths Examples.hci0 -> q <> Examples.hci0 ->
                  device_record Examples.snapshot_threshold q = Some rec ->
                  rssi_or_unreachable (RSSI rec) <= r.
Proof.
  destruct (resolver_returns_strongest_sibling Examples.snapshot_threshold Examples.hci0
              (Some (-60)) (Examples.handle Examples.hci1 (Some (-54))))
    as (r & Hr & _ & Hmax).
  - vm_compute. discriminate.
  - exact snapshot_threshold_plausible.
  - vm_compute. reflexivity.
  - exists r. split; [exact Hr|exact Hmax].
Defined.

(** X5.  Resolution is idempotent on an unchanged snapshot: when the
    path has at least 14 characters, the strengths are plausible, the
    handle resolved was up to date (its strength is the one its own
    record reports, if it still has one) and the handle returned has a
    known strength, resolving the returned handle again gives [None]. *)
Theorem resolution_is_idempotent properties path rssi0 h p :
  (14 <= String.length path)%nat ->
  UNREACHABLE_RSSI <= rssi_or_unreachable rssi0 ->
  plausible_rssi properties path ->
  (forall own, device_record properties path = Some own ->
               rssi_or_unreachable (RSSI own) = rssi_or_unreachable rssi0) ->
  get_bluez_device (Return properties) path rssi0 = Return (Some h) ->
  details_path (details h) = Some p ->
  rssi h <> Some UNREACHABLE_RSSI ->
  get_bluez_device (Return properties) p (rssi h) = Return None.
Proof.
  intros Hlen Hr0 Hplausible Hfresh Hget Hp Hknown.
  apply get_bluez_device_handle in Hget
    as (rec & Hin & Hne & Hrec & Hsnd & -> & _).
  destruct (initial_bounds properties path rssi0 Hr0) as [Hd Hbounds].
  destruct (scan_strongest properties path _ Hd (_get_possible_paths path) _
              Hplausible Hbounds Hne) as [Hbeat Hmax].
  set (fin := scan _ _ _ _ _) in *. clearbody fin. destruct fin as [best r].
  cbn [details_path details rssi fst snd] in *. injection Hp as <-.
  assert (r <> UNREACHABLE_RSSI) as Hr by congruence.
  assert (r <> 0) as Hr0' by (rewrite Hsnd; apply rssi_or_unreachable_nonzero).
  assert (initial_rssi properties best (Some r) = r) as Hinit.
  { unfold initial_rssi. rewrite Hrec. simpl. by destruct (Z.eqb_spec r 0). }
  apply get_bluez_device_none. rewrite Hinit.
  rewrite (possible_paths_of_sibling path best Hlen Hin).
  rewrite scan_all_rejected; [done|]. simpl.
  intros q rec' Hq Hq' Hrec'.
  destruct (candidate_rejected r r (RSSI rec')) eqn:Hrej; [done|]. exfalso.
  apply (candidate_accepted_iff _ _ _ Hr) in Hrej as (s & Hs & Hs0 & Hthr & _).
  destruct (decide (q = path)) as [->|Hqp].
  - specialize (Hfresh rec' Hrec'). rewrite Hs in Hfresh. simpl in Hfresh.
    destruct (Z.eqb_spec s 0); [done|].
    assert (initial_rssi properties path rssi0 = s) as Hd0.
    { unfold initial_rssi. by rewrite Hrec'. }
    destruct Hbeat; rssi_lia.
  - specialize (Hmax q rec' Hq Hqp Hrec'). rewrite Hs in Hmax. simpl in Hmax.
    destruct (Z.eqb_spec s 0); [done|]. rssi_lia.
Qed.

Lemma resolution_is_idempotent_witness :
  get_bluez_device (Return Examples.snapshot_threshold) Examples.hci1 (Some (-54))
    = Return None.
Proof.
  apply (resolution_is_idempotent Examples.snapshot_threshold Examples.hci0 (Some (-60))
           (Examples.handle Examples.hci1 (Some (-54))) Examples.hci1).
  - vm_compute. lia.
  - vm_compute. discriminate.
  - exact snapshot_threshold_plausible.
  - intros own Hown. vm_compute in Hown. injection Hown as <-. reflexivity.
  - vm_compute. reflexivity.
  - reflexivity.
  - vm_compute. discriminate.
Defined.

(** ** Looking a device up by address *)

Import Stdlib.Strings.Ascii.

Lemma normalise_char_idempotent (c : Ascii.ascii) :
  let f c := if Ascii.eqb (ascii_upper c) ":" then "_"%char else ascii_upper c in
  f (f c) = f c.
Proof. destruct c as [[] [] [] [] [] [] [] []]; vm_compute; reflexivity. Qed.

Lemma normalise_idempotent address :
  str_replace ":" "_" (str_upper (str_replace ":" "_" (str_upper address)))
    = str_replace ":" "_" (str_upper address).
Proof.
  induction address as [|c address IH]; [done|].
  cbn [str_upper str_replace]. f_equal; [|exact IH].
  apply (normalise_char_idempotent c).
Qed.

Lemma adapter_paths address :
  _get_possible_paths (address_to_bluez_path address)
    = map (fun i => adapter_path i address) (seq 0 9).
Proof. reflexivity. Qed.

Lemma address_path_not_adapter_path address :
  address_to_bluez_path address ∉ _get_possible_paths (address_to_bluez_path address).
Proof.
  intros (i & Hi & Hget)%possible_paths_self.
  change (Some "X"%char = Some (Ascii.ascii_of_nat (48 + i))) in Hget.
  injection Hget as Hget. apply (f_equal Ascii.nat_of_ascii) in Hget.
  rewrite Ascii.nat_ascii_embedding in Hget by lia.
  vm_compute in Hget. lia.
Qed.

(** X6.  [get_device] searches the adapters 0 to 8: the paths it scans
    are [/org/bluez/hci<i>/dev_<ADDRESS>] with the address in upper case
    and [_] for [:], so addresses that differ in case or separator are
    looked up alike, and the path it starts from is none of them.  Off
    Linux it returns [None] without reading the manager; on any platform
    it returns [None] when no adapter has a device record for the
    address, and a handle it returns has the path and the record of one
    of the nine adapters. *)
Theorem get_device_scans_adapters :
  (forall address,
     _get_possible_paths (address_to_bluez_path address)
       = map (fun i => adapter_path i address) (seq 0 9)) /\
  (forall address,
     address_to_bluez_path address
       ∉ _get_possible_paths (address_to_bluez_path address)) /\
  (forall address,
     address_to_bluez_path (str_replace ":" "_" (str_upper address))
       = address_to_bluez_path address) /\
  (forall pf manager address,
     IS_LINUX pf = false -> get_device pf manager address = Return None) /\
  (forall pf properties address,
     (forall i, (i < 9)%nat ->
                device_record properties (adapter_path i address) = None) ->
     get_device pf (Return properties) address = Return None) /\
  (forall pf properties address h,
     get_device pf (Return properties) address = Return (Some h) ->
     exists i rec, (i < 9)%nat /\
       details h = DetailsDict (Some (adapter_path i address)) (Some rec) /\
       device_record properties (adapter_path i address) = Some rec).
Proof.
  split; [exact adapter_paths|]. split; [exact address_path_not_adapter_path|].
  split; [|split; [|split]].
  - intros address. unfold address_to_bluez_path. by rewrite normalise_idempotent.
  - intros pf manager address Hpf. unfold get_device. by rewrite Hpf.
  - intros pf properties address Hnone. unfold get_device.
    destruct (IS_LINUX pf); [|done].
    apply get_bluez_device_none. rewrite scan_all_rejected; [done|].
    intros p rec Hp _ Hrec. rewrite adapter_paths in Hp.
    apply list_elem_of_fmap in Hp as (i & -> & Hi%elem_of_seq).
    rewrite Hnone in Hrec by lia. done.
  - intros pf properties address h. unfold get_device.
    destruct (IS_LINUX pf); [|done].
    intros (rec & Hin & _ & Hrec & _ & -> & _)%get_bluez_device_handle.
    rewrite adapter_paths in Hin.
    apply list_elem_of_fmap in Hin as (i & Hi & Hseq%elem_of_seq).
    exists i, rec. rewrite <- Hi. split; [lia|]. split; [reflexivity|done].
Qed.

Lemma get_device_scans_adapters_witness :
  exists i rec, (i < 9)%nat /\
    device_record MoreExamples.snapshot_adapter3 (adapter_path i "aa:bb") = Some rec.
Proof.
  destruct get_device_scans_adapters as (_ & _ & _ & _ & _ & Hhandle).
  edestruct (Hhandle Examples.linux MoreExamples.snapshot_adapter3 "aa:bb")
    as (i & rec & Hi & _ & Hrec).
  - vm_compute. reflexivity.
  - exists i, rec. split; [exact Hi|exact Hrec].
Defined.

(** ** The loop and the resolver together *)

Lemma freshened_device_differs manager dev fresh :
  freshen_ble_device manager dev = Return (Some fresh) ->
  exists p q rec, details_path (details dev) = Some p /\
                  details fresh = DetailsDict (Some q) (Some rec) /\ q <> p.
Proof.
  unfold freshen_ble_device.
  destruct (details_path (details dev)) as [p|] eqn:Hp; [|done].
  destruct manager as [properties|e].
  - intros (rec & _ & Hne & _ & _ & -> & _)%get_bluez_device_handle.
    by eexists p, _, rec.
  - unfold get_bluez_device. simpl. by destruct (is_Exception _).
Qed.

Lemma build_client_seed a st can_use dev t c :
  build_client a st can_use dev = (t, Return c) ->
  client_cached_services c =
    match cached_services a, client_class a with
    | Some s, ServiceCacheClient => if can_use then Some s else None
    | _, _ => None
    end.
Proof.
  unfold build_client, when, emit, mbind, mret, Run_bind, Run_ret.
  destruct (disconnected_callback a), (cached_services a) as [s|], (client_class a),
    can_use; simpl; by intros [= _ <-].
Qed.

(** X7.  A device that [freshen_ble_device] replaces always counts as
    changed: [ble_device_has_changed] returns [True] for the stale device
    and its fresh handle.  So in a call without [ble_device_callback], a
    pass on which the resolver finds a better path and which reaches
    [connect] works on a newly built client bound to the fresh handle,
    and that client is not given the cached services. *)
Theorem freshened_device_gets_new_client :
  (forall manager dev fresh,
     freshen_ble_device manager dev = Return (Some fresh) ->
     ble_device_has_changed dev fresh = Return true) /\
  (forall pf a st env t st' c' fresh,
     ble_device_callback a = None ->
     freshen_ble_device (att_manager env) (device st) = Return (Some fresh) ->
     prepare pf a st env = (t, Return (st', c')) ->
     device st' = fresh /\ can_use_cached_services st' = false /\
     client_id c' = constructed st /\ client_device c' = fresh /\
     client_cached_services c' = None /\
     exists t', t = EvConstruct (constructed st) fresh :: t').
Proof.
  assert (forall manager dev fresh,
     freshen_ble_device manager dev = Return (Some fresh) ->
     ble_device_has_changed dev fresh = Return true) as Hchanged.
  { intros manager dev fresh (p & q & rec & Hp & Hq & Hne)%freshened_device_differs.
    unfold ble_device_has_changed.
    destruct (negb _); [done|]. rewrite Hp, Hq. simpl.
    unfold mbind, Outcome_bind. simpl.
    by destruct (String.eqb_spec p q) as [->|_]. }
  split; [exact Hchanged|].
  intros pf a st env t st' c' fresh Hcb Hfresh. unfold prepare.
  intros (t1 & [d2 can_use] & t2 & [Hcur ->]%lift_return & Hrest & ->)%run_bind_return.
  unfold current_device in Hcur. rewrite Hcb, Hfresh in Hcur.
  unfold mbind, mret, Outcome_bind, Outcome_ret in Hcur. injection Hcur as <- <-.
  apply run_bind_return in Hrest as (t3 & create & t4 & [Hneed ->]%lift_return & Hrest & ->).
  assert (create = true) as ->.
  { unfold client_needed in Hneed. destruct (create_client st); [by injection Hneed|].
    rewrite (Hchanged _ _ _ Hfresh) in Hneed. by injection Hneed. }
  apply run_bind_return in Hrest as (t5 & client' & t6 & Hclient & Hrest & ->).
  apply run_bind_return in Hrest as (t7 & [] & t8 & Hstale & Hret & ->).
  unfold mret, Run_ret in Hret. injection Hret as <- <- <-. simpl.
  pose proof (build_client_seed _ _ _ _ _ _ Hclient) as Hseed.
  destruct (build_client_spec a st false fresh) as (tb & c & Hb & Hid & Hdev & _).
  rewrite Hb in Hclient. injection Hclient as <- <-.
  repeat (split; [done|]). split; [|by eexists].
  rewrite Hseed. by destruct (cached_services a), (client_class a).
Qed.

Lemma freshened_device_gets_new_client_witness :
  ble_device_has_changed Examples.stale_device
    (Examples.handle Examples.hci1 (Some (-54))) = Return true.
Proof.
  destruct freshened_device_gets_new_client as [Hchanged _].
  apply (Hchanged (Return Examples.snapshot_threshold)).
  vm_compute. reflexivity.
Defined.

(** ** The two budgets *)

Lemma failures_nil P : failures P [] = 0.
Proof. reflexivity. Qed.

Lemma failures_cons P env script exc :
  att_connect env = Raise exc ->
  failures P (env :: script) = (if P exc then 1 else 0) + failures P script.
Proof.
  intros Hconn. unfold failures. simpl. rewrite Hconn.
  destruct (P exc); simpl; lia.
Qed.

Lemma failures_app P script1 script2 :
  failures P (script1 ++ script2) = failures P script1 + failures P script2.
Proof. unfold failures. rewrite List.filter_app, length_app. lia. Qed.

Lemma failures_nonneg P script : 0 <= failures P script.
Proof. unfold failures. lia. Qed.

(** The [except] clauses are exclusive: a handled failure is a timeout,
    a connect error or a transient failure, and only one of them. *)
Lemma handled_cases exc :
  is_handled exc = true ->
  (is_timeout exc = true /\ is_connect_error exc = false /\
   is_transient_failure exc = false) \/
  (is_timeout exc = false /\ is_connect_error exc = true /\
   is_transient_failure exc = false) \/
  (is_timeout exc = false /\ is_connect_error exc = false /\
   is_transient_failure exc = true).
Proof.
  unfold is_handled, is_hard_failure, is_connect_error, is_transient_failure, is_timeout.
  destruct (exn_class exc); simpl; try discriminate;
    try destruct (any_in _ _); simpl; intros _; intuition.
Qed.

Lemma classify_handled st exc :
  is_Some (classify st exc) <-> is_handled exc = true.
Proof.
  unfold is_handled, is_hard_failure, is_connect_error, is_transient_failure, is_timeout,
    classify.
  destruct (exn_class exc); simpl; try destruct (any_in _ _); simpl;
    split; try done; try (intros _; by eexists); by intros [? ?].
Qed.

Lemma connect_errors_counted : counted is_connect_error 0 1 0.
Proof.
  intros s exc [Hbleak Hmsg%negb_true_iff]%andb_true_iff.
  destruct (classify_connect_error s exc Hbleak Hmsg) as (s1 & b & ? & ? & ? & ?).
  exists s1, b. repeat split; try done; lia.
Qed.

Section budgets.

Variable pf : Platform.
Variable a : Args.
Hypothesis callback_ok : callback_details_iterable a.

(** One calm handled failure: the counters after it, whatever its kind. *)
Lemma iteration_handled_failure st env :
  client_bound st -> fails_with is_handled env ->
  exists t0 st0 c exc st1 backoff,
    att_connect env = Raise exc /\ is_handled exc = true /\
    prepare pf a st env = (t0, Return (st0, c)) /\
    classify st0 exc = Some (st1, backoff) /\
    iteration pf a st env =
      ((t0 ++ fst (attempt_connect a st0 c env))%list,
       match _raise_if_needed a st1 (ble_device_description (device st0)) exc with
       | Return _ => Return (Looping st1)
       | Raise e => Raise e
       end) /\
    timeouts st1 = timeouts st + (if is_timeout exc then 1 else 0) /\
    connect_errors st1 = connect_errors st + (if is_connect_error exc then 1 else 0) /\
    transient_errors st1
      = transient_errors st + (if is_transient_failure exc then 1 else 0) /\
    attempt st1 = attempt st + 1 /\
    client_bound st1.
Proof.
  intros Hbound (Hcalm & exc & Hconn & Hexc).
  destruct (handled_cases exc Hexc) as [(H1 & H2 & H3)|[(H1 & H2 & H3)|(H1 & H2 & H3)]].
  - destruct (iteration_calm_failure pf a is_timeout 1 0 0 st env timeouts_counted
                callback_ok Hbound)
      as (t0 & st0 & c & exc' & st1 & b & Hprep & Hconn' & _ & Hcls & Hit & ? & ? & ? & ? & ?).
    { split; [done|]. eauto. }
    rewrite Hconn in Hconn'. injection Hconn' as <-.
    exists t0, st0, c, exc, st1, b. rewrite H1, H2, H3. by repeat split.
  - destruct (iteration_calm_failure pf a is_connect_error 0 1 0 st env
                connect_errors_counted callback_ok Hbound)
      as (t0 & st0 & c & exc' & st1 & b & Hprep & Hconn' & _ & Hcls & Hit & ? & ? & ? & ? & ?).
    { split; [done|]. eauto. }
    rewrite Hconn in Hconn'. injection Hconn' as <-.
    exists t0, st0, c, exc, st1, b. rewrite H1, H2, H3. by repeat split.
  - destruct (iteration_calm_failure pf a is_transient_failure 0 0 1 st env
                transient_failures_counted callback_ok Hbound)
      as (t0 & st0 & c & exc' & st1 & b & Hprep & Hconn' & _ & Hcls & Hit & ? & ? & ? & ? & ?).
    { split; [done|]. eauto. }
    rewrite Hconn in Hconn'. injection Hconn' as <-.
    exists t0, st0, c, exc, st1, b. rewrite H1, H2, H3. by repeat split.
Qed.

(** A run of calm handled failures of any kinds that stays within both
    budgets keeps the loop going and counts each failure once. *)
Lemma loop_handled_failures script :
  forall st,
    Forall (fails_with is_handled) script -> client_bound st ->
    timeouts st + connect_errors st
      + failures is_timeout script + failures is_connect_error script
      < max_attempts a ->
    transient_errors st + failures is_transient_failure script < MAX_TRANSIENT_ERRORS ->
    exists t st',
      loop pf a script st = (t, Return (Looping st')) /\
      timeouts st' = timeouts st + failures is_timeout script /\
      connect_errors st' = connect_errors st + failures is_connect_error script /\
      transient_errors st' = transient_errors st + failures is_transient_failure script /\
      attempt st' = attempt st + Z.of_nat (length script) /\
      client_bound st'.
Proof.
  induction script as [|env script IH]; intros st Hall Hbound Hmax Htrans.
  { exists [], st. rewrite !failures_nil. simpl. repeat split; try done; lia. }
  apply Forall_cons in Hall as [Henv Hall].
  destruct (iteration_handled_failure st env Hbound Henv)
    as (t0 & st0 & c & exc & st1 & b & Hconn & _ & _ & _ & Hit & Ht & Hc & Htr & Hatt & Hb1).
  rewrite !(failures_cons _ env script exc Hconn) in *.
  pose proof (failures_nonneg is_timeout script).
  pose proof (failures_nonneg is_connect_error script).
  pose proof (failures_nonneg is_transient_failure script).
  assert (within_budget a st1) as Hin.
  { unfold within_budget.
    destruct (is_timeout exc), (is_connect_error exc), (is_transient_failure exc); lia. }
  apply (raise_if_needed_returns a st1 (ble_device_description (device st0)) exc) in Hin.
  rewrite Hin in Hit.
  destruct (IH st1 Hall Hb1) as (t & st' & Hloop & Ht' & Hc' & Htr' & Hatt' & Hb'); [lia..|].
  rewrite (loop_step_looping pf a _ _ _ _ _ Hit), Hloop. simpl.
  eexists _, st'. split; [done|]. cbn [length]. rewrite Nat2Z.inj_succ.
  repeat split; try done; lia.
Qed.

End budgets.

(** X8.  Timeouts and connect errors share the budget [max_attempts];
    transient failures have the budget [MAX_TRANSIENT_ERRORS] of their own
    and do not use up the other.  For any run of failures the [except]
    clauses handle, in any order: while both counts stay below their
    budgets the loop goes on with each failure counted once in its
    counter and [attempt] equal to the number of passes; the failure that
    brings either count to its budget raises a terminal error. *)
Theorem budgets_are_separate pf a script :
  callback_details_iterable a ->
  Forall (fails_with is_handled) script ->
  failures is_timeout script + failures is_connect_error script < max_attempts a ->
  failures is_transient_failure script < MAX_TRANSIENT_ERRORS ->
  (exists t st,
     establish_connection pf a script = (t, Return (Looping st)) /\
     timeouts st = failures is_timeout script /\
     connect_errors st = failures is_connect_error script /\
     transient_errors st = failures is_transient_failure script /\
     attempt st = Z.of_nat (length script)) /\
  (forall env,
     fails_with is_handled env ->
     failures is_timeout (script ++ [env])
       + failures is_connect_error (script ++ [env]) = max_attempts a \/
     failures is_transient_failure (script ++ [env]) = MAX_TRANSIENT_ERRORS ->
     exists t e,
       establish_connection pf a (script ++ [env]) = (t, Raise e) /\
       is_terminal (exn_class e) = true).
Proof.
  intros Hcb Hall Hmax Htrans.
  destruct (loop_handled_failures pf a Hcb script (initial_state a) Hall
              (initial_state_bound a))
    as (t & st & Hloop & Ht & Hc & Htr & Hatt & Hbound).
  { simpl. lia. }
  { simpl. lia. }
  simpl in Ht, Hc, Htr, Hatt. split.
  { exists t, st. unfold establish_connection. by repeat split. }
  intros env Henv Hlimit.
  destruct (iteration_handled_failure pf a Hcb st env Hbound Henv)
    as (t0 & st0 & c & exc & st1 & b & Hconn & _ & _ & _ & Hit & Ht1 & Hc1 & Htr1 & _).
  rewrite !failures_app, !(failures_cons _ env [] exc Hconn), !failures_nil in Hlimit.
  assert (~ within_budget a st1) as Hout.
  { unfold within_budget. rewrite Ht1, Hc1, Htr1, Ht, Hc, Htr.
    destruct (is_timeout exc), (is_connect_error exc), (is_transient_failure exc); lia. }
  destruct (raise_if_needed_cases a st1 (ble_device_description (device st0)) exc)
    as [[Hin _]|(_ & e & Hraise & Hterm)]; [done|].
  rewrite Hraise in Hit.
  unfold establish_connection. rewrite (loop_app pf a _ _ _ _ _ Hloop).
  rewrite (loop_step_raise pf a _ _ _ _ _ Hit). simpl. by eexists _, e.
Qed.

Lemma budgets_are_separate_witness :
  exists t st,
    establish_connection Examples.linux Examples.default_args
        [Examples.failing Examples.timeout; Examples.failing Examples.broken_pipe;
         Examples.failing Examples.timeout]
      = (t, Return (Looping st)) /\
    timeouts st = 2 /\ transient_errors st = 1 /\ attempt st = 3.
Proof.
  destruct (budgets_are_separate Examples.linux Examples.default_args
              [Examples.failing Examples.timeout; Examples.failing Examples.broken_pipe;
               Examples.failing Examples.timeout])
    as [(t & st & Hrun & Ht & _ & Htr & Hatt) _].
  - exact default_args_callback.
  - all_failing.
  - vm_compute. reflexivity.
  - vm_compute. reflexivity.
  - exists t, st. split; [exact Hrun|]. split; [exact Ht|]. split; [exact Htr|exact Hatt].
Defined.

(** ** Leaving the loop *)

Section leaving.

Variable pf : Platform.
Variable a : Args.
Hypothesis callback_ok : callback_details_iterable a.

Lemma iteration_success st env b :
  calm env -> client_bound st -> att_connect env = Return b ->
  exists t0 st0 c,
    prepare pf a st env = (t0, Return (st0, c)) /\
    iteration pf a st env =
      ((t0 ++ [EvConnect (client_id c) (bool_decide (is_Some (cached_services a)))])%list,
       Return (Returned c)).
Proof.
  intros Hcalm Hbound Hconn.
  destruct (prepare_calm pf a st env Hcalm callback_ok Hbound) as (t0 & [st0 c] & Hprep).
  exists t0, st0, c. split; [done|].
  unfold iteration. rewrite (run_bind_eq _ _ _ _ Hprep). cbn beta iota.
  unfold attempt_connect. rewrite Hconn. reflexivity.
Qed.

Lemma iteration_unhandled st env exc :
  calm env -> client_bound st -> att_connect env = Raise exc ->
  is_handled exc = false ->
  exists t0 st0 c,
    prepare pf a st env = (t0, Return (st0, c)) /\
    iteration pf a st env =
      ((t0 ++ [EvConnect (client_id c) (bool_decide (is_Some (cached_services a)))])%list,
       Raise exc).
Proof.
  intros Hcalm Hbound Hconn Hexc.
  destruct (prepare_calm pf a st env Hcalm callback_ok Hbound) as (t0 & [st0 c] & Hprep).
  exists t0, st0, c. split; [done|].
  unfold iteration. rewrite (run_bind_eq _ _ _ _ Hprep). cbn beta iota.
  unfold attempt_connect. rewrite Hconn.
  destruct (classify st0 exc) as [[st1 backoff]|] eqn:Hcls; [|reflexivity].
  assert (is_Some (classify st0 exc)) as Hsome by (rewrite Hcls; by eexists).
  apply classify_handled in Hsome. congruence.
Qed.

Lemma loop_step_returned env rest st t1 c :
  iteration pf a st env = (t1, Return (Returned c)) ->
  loop pf a (env :: rest) st = (t1, Return (Returned c)).
Proof.
  intros Hit. simpl. rewrite (run_bind_eq _ _ _ _ Hit). simpl. by rewrite app_nil_r.
Qed.

End leaving.

(** X9.  After any run of handled failures that stays within both
    budgets, an attempt whose [connect] returns ends the call: the client
    is returned at once, the call to [connect] being the last thing done
    (no sleep follows), and whatever would have happened on later
    attempts plays no part. *)
Theorem success_returns_at_once pf a script env b :
  callback_details_iterable a ->
  Forall (fails_with is_handled) script ->
  failures is_timeout script + failures is_connect_error script < max_attempts a ->
  failures is_transient_failure script < MAX_TRANSIENT_ERRORS ->
  calm env -> att_connect env = Return b ->
  exists t0 c,
    forall rest,
      establish_connection pf a (script ++ env :: rest)
        = ((t0 ++ [EvConnect (client_id c) (bool_decide (is_Some (cached_services a)))])%list,
           Return (Returned c)).
Proof.
  intros Hcb Hall Hmax Htrans Hcalm Hconn.
  destruct (loop_handled_failures pf a Hcb script (initial_state a) Hall
              (initial_state_bound a))
    as (t & st & Hloop & _ & _ & _ & _ & Hbound); [simpl; lia..|].
  destruct (iteration_success pf a Hcb st env b Hcalm Hbound Hconn)
    as (t0 & st0 & c & _ & Hit).
  exists (t ++ t0)%list, c. intros rest.
  unfold establish_connection. rewrite (loop_app pf a _ _ _ _ _ Hloop).
  rewrite (loop_step_returned pf a _ _ _ _ _ Hit). simpl. by rewrite app_assoc.
Qed.

Lemma success_returns_at_once_witness :
  exists t0 c,
    forall rest,
      establish_connection Examples.linux Examples.default_args
          (replicate 3 (Examples.failing Examples.timeout) ++ succeeding :: rest)
        = ((t0 ++ [EvConnect (client_id c) false])%list, Return (Returned c)).
Proof.
  apply (success_returns_at_once Examples.linux Examples.default_args
           (replicate 3 (Examples.failing Examples.timeout)) succeeding true).
  - exact default_args_callback.
  - all_failing.
  - vm_compute. reflexivity.
  - vm_compute. reflexivity.
  - split; [intros e He; discriminate He|reflexivity].
  - reflexivity.
Defined.

(** X10.  An exception of [connect] that no [except] clause names (it is
    neither a timeout, a broken pipe, an end of stream nor a transport or
    attribute error) is never counted, retried or wrapped: after any run
    of handled failures within the budgets the call raises that very
    exception, straight after the call to [connect]. *)
Theorem unexpected_exception_propagates pf a script env exc :
  callback_details_iterable a ->
  Forall (fails_with is_handled) script ->
  failures is_timeout script + failures is_connect_error script < max_attempts a ->
  failures is_transient_failure script < MAX_TRANSIENT_ERRORS ->
  calm env -> att_connect env = Raise exc -> is_handled exc = false ->
  (forall st, classify st exc = None) /\
  exists t0 id,
    forall rest,
      establish_connection pf a (script ++ env :: rest)
        = ((t0 ++ [EvConnect id (bool_decide (is_Some (cached_services a)))])%list,
           Raise exc).
Proof.
  intros Hcb Hall Hmax Htrans Hcalm Hconn Hexc. split.
  { intros st. destruct (classify st exc) as [x|] eqn:Hcls; [|done].
    assert (is_Some (classify st exc)) as Hsome by (rewrite Hcls; by eexists).
    apply classify_handled in Hsome. congruence. }
  destruct (loop_handled_failures pf a Hcb script (initial_state a) Hall
              (initial_state_bound a))
    as (t & st & Hloop & _ & _ & _ & _ & Hbound); [simpl; lia..|].
  destruct (iteration_unhandled pf a Hcb st env exc Hcalm Hbound Hconn Hexc)
    as (t0 & st0 & c & _ & Hit).
  exists (t ++ t0)%list, (client_id c). intros rest.
  unfold establish_connection. rewrite (loop_app pf a _ _ _ _ _ Hloop).
  rewrite (loop_step_raise pf a _ _ _ _ _ Hit). simpl. by rewrite app_assoc.
Qed.

Lemma unexpected_exception_propagates_witness :
  exists t0 id,
    forall rest,
      establish_connection Examples.linux Examples.default_args
          ([Examples.failing Examples.timeout]
           ++ Examples.failing (Exn KeyError "path") :: rest)
        = ((t0 ++ [EvConnect id false])%list, Raise (Exn KeyError "path")).
Proof.
  apply (unexpected_exception_propagates Examples.linux Examples.default_args
           [Examples.failing Examples.timeout]
           (Examples.failing (Exn KeyError "path")) (Exn KeyError "path")).
  - exact default_args_callback.
  - all_failing.
  - vm_compute. reflexivity.
  - vm_compute. reflexivity.
  - split; [intros e He; discriminate He|reflexivity].
  - reflexivity.
  - reflexivity.
Defined.

(** ** Which terminal error *)

Lemma raise_if_needed_kind a st description exc e :
  _raise_if_needed a st description exc = Raise e ->
  let msg := arg_name a +:+ " - " +:+ description +:+ ": Failed to connect: "
             +:+ exn_str exc in
  (exn_class e = BleakAbortedError <->
     is_BleakError (exn_class exc) = true /\ is_transient_failure exc = true /\
     str_in "not found" (exn_str exc) = false) /\
  (exn_class e = BleakAbortedError -> exn_str e = msg +:+ ": " +:+ ABORT_ADVICE) /\
  (is_timeout exc = true \/ str_in "not found" (exn_str exc) = true ->
     e = Exn BleakNotFoundError msg) /\
  (is_BleakError (exn_class exc) = false -> is_timeout exc = false ->
     str_in "not found" (exn_str exc) = false -> e = Exn BleakConnectionError msg).
Proof.
  unfold _raise_if_needed, is_transient_failure, is_timeout, ABORT_ERRORS.
  cbv zeta. destruct (_ && _); [done|].
  generalize (arg_name a +:+ " - " +:+ description +:+ ": Failed to connect: "
              +:+ exn_str exc).
  intros msg.
  generalize (msg +:+ ": " +:+ ABORT_ADVICE) (msg +:+ ": " +:+ DEVICE_MISSING_ADVICE).
  intros abort_msg missing_msg.
  generalize (str_in "not found" (exn_str exc))
    (any_in TRANSIENT_ERRORS (exn_str exc))
    (any_in DEVICE_MISSING_ERRORS (exn_str exc)).
  intros not_found transient missing.
  destruct (exn_class exc), not_found, transient, missing; cbn;
    intros [= <-]; cbn; repeat split; try done; intros; intuition discriminate.
Qed.

(** X11.  Which error ends the call when a handled failure of [connect]
    exhausts a budget: the message is [name - description: Failed to
    connect: str(exc)]; a timeout or a message holding [not found] gives
    [BleakNotFoundError] with that message and no advice, even when the
    message also holds an abort code; [BleakAbortedError] is raised
    exactly for a [BleakError] that was counted as transient (and does not
    hold [not found]), with [ABORT_ADVICE] appended; a failure that is not
    a [BleakError] ([BrokenPipeError], [EOFError], [AttributeError]) never
    gets advice and, unless its message holds [not found], gives
    [BleakConnectionError]. *)
Theorem terminal_error_kind pf a script env exc :
  callback_details_iterable a ->
  Forall (fails_with is_handled) script ->
  failures is_timeout script + failures is_connect_error script < max_attempts a ->
  failures is_transient_failure script < MAX_TRANSIENT_ERRORS ->
  calm env -> att_connect env = Raise exc -> is_handled exc = true ->
  failures is_timeout (script ++ [env])
    + failures is_connect_error (script ++ [env]) = max_attempts a \/
  failures is_transient_failure (script ++ [env]) = MAX_TRANSIENT_ERRORS ->
  exists t e d,
    establish_connection pf a (script ++ [env]) = (t, Raise e) /\
    let msg := arg_name a +:+ " - " +:+ ble_device_description d
               +:+ ": Failed to connect: " +:+ exn_str exc in
    (exn_class e = BleakAbortedError <->
       is_BleakError (exn_class exc) = true /\ is_transient_failure exc = true /\
       str_in "not found" (exn_str exc) = false) /\
    (exn_class e = BleakAbortedError -> exn_str e = msg +:+ ": " +:+ ABORT_ADVICE) /\
    (is_timeout exc = true \/ str_in "not found" (exn_str exc) = true ->
       e = Exn BleakNotFoundError msg) /\
    (is_BleakError (exn_class exc) = false -> is_timeout exc = false ->
       str_in "not found" (exn_str exc) = false -> e = Exn BleakConnectionError msg).
Proof.
  intros Hcb Hall Hmax Htrans Hcalm Hconn Hexc Hlimit.
  destruct (loop_handled_failures pf a Hcb script (initial_state a) Hall
              (initial_state_bound a))
    as (t & st & Hloop & Ht & Hc & Htr & _ & Hbound); [simpl; lia..|].
  simpl in Ht, Hc, Htr.
  destruct (iteration_handled_failure pf a Hcb st env Hbound)
    as (t0 & st0 & c & exc' & st1 & b & Hconn' & _ & _ & _ & Hit & Ht1 & Hc1 & Htr1 & _).
  { split; [done|]. eauto. }
  rewrite Hconn in Hconn'. injection Hconn' as <-.
  rewrite !failures_app, !(failures_cons _ env [] exc Hconn), !failures_nil in Hlimit.
  assert (~ within_budget a st1) as Hout.
  { unfold within_budget. rewrite Ht1, Hc1, Htr1, Ht, Hc, Htr.
    destruct (is_timeout exc), (is_connect_error exc), (is_transient_failure exc); lia. }
  destruct (raise_if_needed_cases a st1 (ble_device_description (device st0)) exc)
    as [[Hin _]|(_ & e & Hraise & _)]; [done|].
  rewrite Hraise in Hit.
  exists (t ++ t0 ++ fst (attempt_connect a st0 c env))%list, e, (device st0). split.
  { unfold establish_connection. rewrite (loop_app pf a _ _ _ _ _ Hloop).
    by rewrite (loop_step_raise pf a _ _ _ _ _ Hit). }
  exact (raise_if_needed_kind a st1 _ exc e Hraise).
Qed.

Lemma terminal_error_kind_witness :
  exists t e,
    establish_connection Examples.linux Examples.default_args
        (replicate 8 (Examples.failing Examples.broken_pipe)
         ++ [Examples.failing (Exn BleakError "le-connection-abort-by-local")])
      = (t, Raise e) /\
    exn_class e = BleakAbortedError.
Proof.
  destruct (terminal_error_kind Examples.linux Examples.default_args
              (replicate 8 (Examples.failing Examples.broken_pipe))
              (Examples.failing (Exn BleakError "le-connection-abort-by-local"))
              (Exn BleakError "le-connection-abort-by-local"))
    as (t & e & d & Hrun & Habort & _).
  - exact default_args_callback.
  - all_failing.
  - vm_compute. reflexivity.
  - vm_compute. reflexivity.
  - split; [intros e He; discriminate He|reflexivity].
  - reflexivity.
  - reflexivity.
  - right. vm_compute. reflexivity.
  - exists t, e. split; [exact Hrun|]. apply Habort.
    vm_compute. repeat split; reflexivity.
Defined.

(** ** One call to [connect] in each pass *)

Lemma connect_flags_app t1 t2 :
  connect_flags (t1 ++ t2) = (connect_flags t1 ++ connect_flags t2)%list.
Proof.
  induction t1 as [|ev t1 IH]; [done|].
  destruct ev; simpl; by rewrite ?IH.
Qed.

Lemma run_bind_connect_flags {A B} (m : Run A) (f : A -> Run B) :
  connect_flags (fst m) = [] ->
  (forall x, connect_flags (fst (f x)) = []) ->
  connect_flags (fst (m ≫= f)) = [].
Proof.
  intros Hm Hf. unfold mbind, Run_bind. destruct m as [t1 [x|e]]; simpl in *.
  - specialize (Hf x). destruct (f x) as [t2 r]. simpl in *.
    by rewrite connect_flags_app, Hm, Hf.
  - done.
Qed.

Lemma build_client_no_connect a st can_use dev :
  connect_flags (fst (build_client a st can_use dev)) = [].
Proof.
  unfold build_client, when, emit, mbind, mret, Run_bind, Run_ret.
  by destruct (disconnected_callback a), (cached_services a), (client_class a), can_use.
Qed.

Lemma close_stale_no_connect pf env dev :
  connect_flags (fst (close_stale pf env dev)) = [].
Proof.
  unfold close_stale, when, emit, lift, mbind, Run_bind.
  destruct (if IS_LINUX pf then _ else _) as [[|]|e]; simpl; try done.
Qed.

Lemma prepare_no_connect pf a st env :
  connect_flags (fst (prepare pf a st env)) = [].
Proof.
  unfold prepare.
  apply run_bind_connect_flags; [done|]. intros [d2 can_use].
  apply run_bind_connect_flags; [done|]. intros create.
  apply run_bind_connect_flags.
  { destruct create; [apply build_client_no_connect|done]. }
  intros c. apply run_bind_connect_flags; [apply close_stale_no_connect|done].
Qed.

Lemma attempt_connect_shape a st c env t r :
  attempt_connect a st c env = (t, r) ->
  exists t',
    t = EvConnect (client_id c) (bool_decide (is_Some (cached_services a))) :: t' /\
    connect_flags t' = [] /\
    (forall c', r = Return (Returned c') -> c' = c /\ t' = []) /\
    (forall st', r = Return (Looping st') -> attempt st' = attempt st).
Proof.
  unfold attempt_connect, when, emit, lift, mbind, mret, Run_bind, Run_ret.
  destruct (att_connect env) as [u|exc].
  - intros [= <- <-]. eexists. split; [reflexivity|]. split; [done|].
    split; [by intros c' [= <-]|done].
  - destruct (classify st exc) as [[st1 backoff]|] eqn:Hcls.
    + apply classify_fields in Hcls as (Hatt & _).
      destruct backoff, (_raise_if_needed _ _ _ _); intros [= <- <-];
        eexists; (split; [reflexivity|]); (split; [done|]);
        (split; [done|]); by intros st' [= <-].
    + intros [= <- <-]. eexists. split; [reflexivity|]. done.
Qed.

Lemma iteration_connects pf a st env t r :
  iteration pf a st env = (t, r) ->
  (connect_flags t = [] /\ exists e, r = Raise e) \/
  (connect_flags t = [bool_decide (is_Some (cached_services a))] /\
   (forall st', r = Return (Looping st') -> attempt st' = attempt st + 1) /\
   (forall c, r = Return (Returned c) ->
      exists t0, t = (t0 ++ [EvConnect (client_id c)
                               (bool_decide (is_Some (cached_services a)))])%list)).
Proof.
  unfold iteration.
  intros [(e & Hprep & ->)|(t1 & [st0 c] & t2 & Hprep & Hconn & ->)]%run_bind_cases.
  { left. split; [|by eexists].
    pose proof (prepare_no_connect pf a st env) as Hnc. by rewrite Hprep in Hnc. }
  right.
  pose proof (prepare_no_connect pf a st env) as Hnc. rewrite Hprep in Hnc. simpl in Hnc.
  apply prepare_spec in Hprep as (_ & _ & _ & Hatt & _).
  apply attempt_connect_shape in Hconn as (t' & -> & Hnc' & Hret & Hloop).
  rewrite connect_flags_app, Hnc. simpl. rewrite Hnc'. split; [done|]. split.
  - intros st' Hr. rewrite (Hloop st' Hr). exact Hatt.
  - intros c' Hr. destruct (Hret c' Hr) as [-> ->]. by exists t1.
Qed.

Lemma loop_connects pf a script :
  forall st t r,
    loop pf a script st = (t, r) ->
    exists n,
      connect_flags t = replicate n (bool_decide (is_Some (cached_services a))) /\
      (n <= length script)%nat /\
      (forall st', r = Return (Looping st') ->
         n = length script /\ attempt st' = attempt st + Z.of_nat n) /\
      (forall c, r = Return (Returned c) ->
         (0 < n)%nat /\
         exists t0, t = (t0 ++ [EvConnect (client_id c)
                                  (bool_decide (is_Some (cached_services a)))])%list).
Proof.
  induction script as [|env script IH]; intros st t r.
  { simpl. intros [= <- <-]. exists 0%nat. split; [done|]. split; [done|]. split.
    - intros st' [= <-]. simpl. split; [done|lia].
    - by intros c. }
  simpl. intros [(e & Hit & ->)|(t1 & x & t2 & Hit & Hrest & ->)]%run_bind_cases.
  { apply iteration_connects in Hit as [[Hnc _]|(Hone & _)].
    - exists 0%nat. rewrite Hnc. simpl. repeat split; try done; lia.
    - exists 1%nat. rewrite Hone. simpl. repeat split; try done; lia. }
  apply iteration_connects in Hit as [[_ [e He]]|(Hone & Hloop & Hret)]; [done|].
  destruct x as [st1|c].
  - apply IH in Hrest as (n & Hflags & Hle & Hl & Hr).
    exists (S n). rewrite connect_flags_app, Hone, Hflags. simpl.
    split; [done|]. split; [lia|]. split.
    + intros st' Hst'. destruct (Hl st' Hst') as [-> ->].
      split; [done|]. rewrite (Hloop st1 eq_refl). lia.
    + intros c Hc. destruct (Hr c Hc) as (_ & t0 & ->). split; [lia|].
      exists (t1 ++ t0)%list. by rewrite app_assoc.
  - unfold mret, Run_ret in Hrest. injection Hrest as <- <-.
    exists 1%nat. rewrite app_nil_r, Hone. simpl. split; [done|]. split; [lia|]. split.
    + by intros st'.
    + intros c' [= <-]. split; [lia|]. by apply Hret.
Qed.

(** X12.  In any call, whatever happens on the way: every call to
    [connect] is given [dangerous_use_bleak_cache = bool(cached_services)]
    of the caller's argument (also after the device was freshened, when
    the client itself gets no cached services); [connect] is called at
    most once in each pass; while the loop is still running it was called
    exactly once in every pass and [attempt] is the number of passes; and
    when a client is returned, its [connect] is the last thing that
    happened. *)
Theorem connect_once_per_pass pf a script t r :
  establish_connection pf a script = (t, r) ->
  exists n,
    connect_flags t = replicate n (bool_decide (is_Some (cached_services a))) /\
    (n <= length script)%nat /\
    (forall st, r = Return (Looping st) ->
       n = length script /\ attempt st = Z.of_nat n) /\
    (forall c, r = Return (Returned c) ->
       (0 < n)%nat /\
       exists t0, t = (t0 ++ [EvConnect (client_id c)
                                (bool_decide (is_Some (cached_services a)))])%list).
Proof.
  unfold establish_connection.
  intros (n & Hflags & Hle & Hl & Hr)%loop_connects.
  exists n. split; [done|]. split; [done|]. split; [|done].
  intros st Hst. destruct (Hl st Hst) as [Hn Hatt]. split; [done|].
  by rewrite Hatt.
Qed.

Lemma connect_once_per_pass_witness :
  exists n t r,
    establish_connection Examples.linux MoreExamples.caching_args
        [Examples.failing Examples.timeout; succeeding; succeeding] = (t, r) /\
    connect_flags t = replicate n true /\ (n <= 3)%nat.
Proof.
  edestruct (connect_once_per_pass Examples.linux MoreExamples.caching_args
               [Examples.failing Examples.timeout; succeeding; succeeding])
    as (n & Hflags & Hle & _).
  - vm_compute. reflexivity.
  - exists n. eexists _, _. split; [reflexivity|]. split; [exact Hflags|exact Hle].
Defined.

(** ** Stale connections *)

Lemma device_is_connected_true manager device :
  device_is_connected manager device = Return true <->
  exists path properties ifaces props,
    details_path (details device) = Some path /\ manager = Return properties /\
    properties !! path = Some ifaces /\ ifaces !! DEVICE_INTERFACE = Some props /\
    Connected props = Some true.
Proof.
  unfold device_is_connected, try_except_Exception. split.
  - destruct (details_path (details device)) as [p|]; [|done].
    destruct manager as [properties|e]; simpl.
    + destruct (properties !! p) as [ifaces|] eqn:Hp; simpl; [|done].
      destruct (ifaces !! DEVICE_INTERFACE) as [props|] eqn:Hi; simpl; [|done].
      destruct (Connected props) as [[|]|] eqn:Hc; simpl; try done.
      intros _. by exists p, properties, ifaces, props.
    + by destruct (is_Exception _).
  - intros (p & properties & ifaces & props & -> & -> & Hp & Hi & Hc).
    simpl. rewrite Hp. simpl. rewrite Hi. simpl. by rewrite Hc.
Qed.

(** X13.  [device_is_connected] says True exactly when the device has a
    dict path, the snapshot is readable, and the record at that path
    reports [Connected] as true; [close_stale_connections] then calls
    [disconnect_device] on the device, once, and whatever that call
    raises propagates; in every other case, and always off Linux, it does
    nothing and returns.  The retry loop runs the same code before each
    [connect]. *)
Theorem stale_connection_closed pf manager disconnect device :
  (IS_LINUX pf = true ->
   forall e, manager = Raise e -> is_Exception (exn_class e) = true) ->
  let connected :=
    exists path properties ifaces props,
      details_path (details device) = Some path /\ manager = Return properties /\
      properties !! path = Some ifaces /\ ifaces !! DEVICE_INTERFACE = Some props /\
      Connected props = Some true in
  (device_is_connected manager device = Return true <-> connected) /\
  (IS_LINUX pf = true /\ connected ->
     close_stale_connections pf manager disconnect device
       = ([EvDisconnectDevice device], disconnect)) /\
  (~ (IS_LINUX pf = true /\ connected) ->
     close_stale_connections pf manager disconnect device = ([], Return tt)) /\
  (forall env,
     att_manager env = manager -> att_disconnect_device env = disconnect ->
     close_stale pf env device = close_stale_connections pf manager disconnect device).
Proof.
  intros Hm connected.
  pose proof (device_is_connected_true manager device) as Hiff.
  split; [exact Hiff|]. split; [|split].
  - intros [Hlinux Hconn%Hiff].
    unfold close_stale_connections, when, emit, lift, mbind, Run_bind.
    rewrite Hlinux, Hconn. by destruct disconnect.
  - intros Hnot.
    unfold close_stale_connections, when, emit, lift, mbind, Run_bind.
    destruct (IS_LINUX pf) eqn:Hlinux; [|done].
    destruct (device_is_connected_returns manager device (Hm eq_refl)) as [[|] Hb].
    + destruct Hnot. split; [done|]. by apply Hiff.
    + by rewrite Hb.
  - by intros env <- <-.
Qed.

Lemma stale_connection_closed_witness :
  close_stale_connections Examples.linux (Return MoreExamples.snapshot_connected)
      (Raise Examples.broken_pipe) Examples.stale_device
    = ([EvDisconnectDevice Examples.stale_device], Raise Examples.broken_pipe).
Proof.
  destruct (stale_connection_closed Examples.linux
              (Return MoreExamples.snapshot_connected)
              (Raise Examples.broken_pipe) Examples.stale_device)
    as (_ & Hclose & _).
  - intros _ e He. discriminate He.
  - apply Hclose. split; [reflexivity|].
    eexists _, _, _, _. repeat split; vm_compute; reflexivity.
Defined.

(** ** The change test *)

(** X14.  [ble_device_has_changed] compares the address and the BlueZ
    path only: a device never differs from itself; when the test can be
    made in both directions it gives the same answer; name, signal
    strength, UUIDs and manufacturer data play no part; and two devices
    it calls unchanged have the same address, and the same description
    when both have a path. *)
Theorem device_change_test :
  (forall d, ble_device_has_changed d d = Return false) /\
  (forall original new x y,
     ble_device_has_changed original new = Return x ->
     ble_device_has_changed new original = Return y -> x = y) /\
  (forall original new new',
     address new = address new' -> details new = details new' ->
     ble_device_has_changed original new = ble_device_has_changed original new') /\
  (forall original new,
     ble_device_has_changed original new = Return false ->
     address original = address new /\
     (is_Some (details_path (details original)) ->
      is_Some (details_path (details new)) ->
      ble_device_description original = ble_device_description new)).
Proof.
  split; [|split; [|split]].
  - intros d. unfold ble_device_has_changed. rewrite String.eqb_refl. simpl.
    destruct (details d) as [[p|] props| |]; simpl; try done.
    unfold mbind, Outcome_bind. simpl. by rewrite String.eqb_refl.
  - intros original new x y Hx%ble_device_has_changed_spec Hy%ble_device_has_changed_spec.
    destruct x, y; try done.
    + destruct Hx as [Hx _]. destruct (Hx eq_refl) as [Ha|(p & q & Hp & Hq & Hpq)].
      * enough (true = false) by done. symmetry. apply Hy. by left.
      * enough (true = false) by done. symmetry. apply Hy. right. by exists q, p.
    + destruct Hy as [Hy _]. destruct (Hy eq_refl) as [Ha|(p & q & Hp & Hq & Hpq)].
      * apply Hx. by left.
      * apply Hx. right. by exists q, p.
  - intros original new new' Ha Hd. unfold ble_device_has_changed. by rewrite Ha, Hd.
  - intros original new Hfalse.
    pose proof (ble_device_has_changed_spec original new false Hfalse) as [_ Hspec].
    destruct (decide (address original = address new)) as [Ha|Ha].
    2:{ enough (false = true) by done. apply Hspec. by left. }
    split; [done|]. intros [p Hp] [q Hq]. unfold ble_device_description.
    rewrite Hp, Hq. destruct (decide (p = q)) as [->|Hpq]; [done|].
    enough (false = true) by done. apply Hspec. right. by exists p, q.
Qed.

(** ** The caching client's [connect] *)

Section caching_connect.
Import ServiceCache ServiceCacheConnect.

Lemma services_vanished_false device_path manager :
  _services_vanished device_path manager = Return false <->
  exists path properties service_path ifaces,
    device_path = Return path /\ manager = Return properties /\
    properties !! service_path = Some ifaces /\
    String.prefix path service_path = true /\
    is_Some (ifaces !! GATT_SERVICE_INTERFACE).
Proof.
  unfold _services_vanished, try_except_Exception. split.
  - destruct device_path as [path|e]; simpl; [|by destruct (is_Exception _)].
    destruct manager as [properties|e]; simpl; [|by destruct (is_Exception _)].
    intros [= Hex%negb_false_iff].
    apply existsb_exists in Hex as ([service_path ifaces] & Hin & Hitem).
    apply list_elem_of_In, elem_of_map_to_list in Hin.
    apply andb_true_iff in Hitem as [Hpre Hgatt%bool_decide_eq_true].
    by exists path, properties, service_path, ifaces.
  - intros (path & properties & service_path & ifaces & -> & -> & Hin & Hpre & Hgatt).
    simpl. f_equal. apply negb_false_iff, existsb_exists.
    exists (service_path, ifaces). split.
    + by apply list_elem_of_In, elem_of_map_to_list.
    + unfold is_service_of. simpl. rewrite Hpre. by apply bool_decide_eq_true.
Qed.

Lemma services_vanished_cases device_path manager :
  (exists b, _services_vanished device_path manager = Return b) \/
  (exists e, _services_vanished device_path manager = Raise e /\
             is_Exception (exn_class e) = false /\
             (device_path = Raise e \/ manager = Raise e)).
Proof.
  unfold _services_vanished, try_except_Exception.
  destruct device_path as [path|e]; simpl.
  - destruct manager as [properties|e]; simpl; [left; by eexists|].
    destruct (is_Exception (exn_class e)) eqn:He; [left; by eexists|].
    right. exists e. auto.
  - destruct (is_Exception (exn_class e)) eqn:He; [left; by eexists|].
    right. exists e. auto.
Qed.

End caching_connect.

(** X15.  [_services_vanished] answers False exactly when the device
    path and the snapshot can be read and some object whose path starts
    with the device path carries the GATT service interface; any
    [Exception] while reading either of them counts as vanished; and
    nothing it raises is an [Exception]. *)
Theorem services_vanished_iff device_path manager :
  (ServiceCacheConnect._services_vanished device_path manager = Return false <->
   exists path properties service_path ifaces,
     device_path = Return path /\ manager = Return properties /\
     properties !! service_path = Some ifaces /\
     String.prefix path service_path = true /\
     is_Some (ifaces !! ServiceCacheConnect.GATT_SERVICE_INTERFACE)) /\
  (forall e, is_Exception (exn_class e) = true ->
     ServiceCacheConnect._services_vanished (Raise e) manager = Return true /\
     forall path,
       ServiceCacheConnect._services_vanished (Return path) (Raise e) = Return true) /\
  (forall e, ServiceCacheConnect._services_vanished device_path manager = Raise e ->
     is_Exception (exn_class e) = false).
Proof.
  split; [apply services_vanished_false|]. split.
  - intros e He. unfold ServiceCacheConnect._services_vanished, try_except_Exception.
    simpl. by rewrite He.
  - intros e He.
    destruct (services_vanished_cases device_path manager)
      as [[b Hb]|(e' & He' & Hne & _)]; congruence.
Qed.

(** X16.  On a platform where this module does the caching (Linux,
    bleak without cache support of its own), a [connect] that succeeds
    without [dangerous_use_bleak_cache] replaces whatever was cached by
    the services just discovered, and a following [get_services] is
    served from the cache: it makes no call on the transport, returns the
    discovered collection and marks the services resolved. *)
Theorem connect_fills_cache pf self device_path manager discovered self' :
  BLEAK_HAS_SERVICE_CACHE_SUPPORT pf = false -> IS_LINUX pf = true ->
  ServiceCacheConnect.connect pf self device_path manager
    (Return (true, discovered)) false = (self', Return true) ->
  ServiceCache._cached_services self' = discovered /\
  ServiceCache.services self' = discovered /\
  forall s super_get_services disconnect,
    discovered = Some s ->
    ServiceCache.get_services pf self' super_get_services disconnect
      = ([], {| ServiceCache._cached_services := Some s;
                ServiceCache.services := Some s;
                ServiceCache._services_resolved := true |}, Return s).
Proof.
  intros Hnative Hlinux. unfold ServiceCacheConnect.connect.
  destruct (match ServiceCache._has_service_cache pf self with
            | Some _ => _ | None => _ end) as [vanished|e]; [|done].
  rewrite Hnative. simpl. intros [= <-]. simpl. split; [done|]. split; [done|].
  intros s sup disc ->.
  unfold ServiceCache.get_services, ServiceCache._has_service_cache, CAN_CACHE_SERVICES.
  rewrite Hnative, Hlinux. reflexivity.
Qed.

Lemma connect_fills_cache_witness :
  ServiceCache._cached_services
    (fst (ServiceCacheConnect.connect Examples.linux Examples.cache_client
            (Return Examples.hci0) (Return Examples.snapshot_threshold)
            (Return (true, Some (Services ["1800"]))) false))
  = Some (Services ["1800"]).
Proof.
  eapply (connect_fills_cache Examples.linux Examples.cache_client
            (Return Examples.hci0) (Return Examples.snapshot_threshold)).
  - reflexivity.
  - reflexivity.
  - vm_compute. reflexivity.
Defined.

(** X17.  With [dangerous_use_bleak_cache] set, as [establish_connection]
    sets it when the caller supplied cached services, [connect] never
    fills the cache: afterwards the cache is what it was, except that it
    is emptied when it was in use and [_services_vanished] said True.
    This holds whether the transport's [connect] returns or raises. *)
Theorem cache_cleared_only_when_vanished pf self device_path manager super_connect
    self' r :
  ServiceCacheConnect.connect pf self device_path manager super_connect true
    = (self', r) ->
  (is_Some (ServiceCache._has_service_cache pf self) /\
   ServiceCacheConnect._services_vanished device_path manager = Return true ->
   ServiceCache._cached_services self' = None) /\
  (~ (is_Some (ServiceCache._has_service_cache pf self) /\
      ServiceCacheConnect._services_vanished device_path manager = Return true) ->
   ServiceCache._cached_services self' = ServiceCache._cached_services self) /\
  (forall e, r = Raise e ->
     super_connect = Raise e \/
     (is_Exception (exn_class e) = false /\
      (device_path = Raise e \/ manager = Raise e))).
Proof.
  unfold ServiceCacheConnect.connect.
  destruct (ServiceCache._has_service_cache pf self) as [s|] eqn:Hcache.
  - destruct (services_vanished_cases device_path manager)
      as [[vanished Hv]|(e & He & Hne & Hwhere)].
    + rewrite Hv.
      destruct super_connect as [[connected discovered]|e];
        rewrite ?andb_false_r; intros [= <- <-]; simpl.
      * split; [|split; [|done]].
        -- intros [_ [= ->]]. done.
        -- intros Hnot. destruct vanished; [|done]. destruct Hnot. by split.
      * split; [|split].
        -- intros [_ [= ->]]. done.
        -- intros Hnot. destruct vanished; [|done]. destruct Hnot. by split.
        -- intros e' [= <-]. by left.
    + rewrite He. intros [= <- <-]. split; [|split].
      * intros [_ ?]. congruence.
      * done.
      * intros e' [= <-]. right. by split.
  - destruct super_connect as [[connected discovered]|e];
      rewrite ?andb_false_r; intros [= <- <-]; simpl.
    + split; [|split; [|done]]; [by intros [[? ?] _]|done].
    + split; [|split]; [by intros [[? ?] _]|done|]. intros e' [= <-]. by left.
Qed.

Lemma cache_cleared_only_when_vanished_witness :
  ServiceCache._cached_services
    (fst (ServiceCacheConnect.connect Examples.linux MoreExamples.warm_client
            (Return Examples.hci0) (Return Examples.snapshot_threshold)
            (Raise Examples.timeout) true))
  = None.
Proof.
  edestruct (cache_cleared_only_when_vanished Examples.linux MoreExamples.warm_client
               (Return Examples.hci0) (Return Examples.snapshot_threshold)
               (Raise Examples.timeout))
    as [Hclear _].
  - vm_compute. reflexivity.
  - apply Hclear. split; [eexists; reflexivity|vm_compute; reflexivity].
Defined.

(** X18.  Where this module does not do the caching (bleak has cache
    support of its own, or the platform is not Linux), [connect] never
    looks at the device path or the snapshot, with native support it
    leaves [_cached_services] alone, and [get_services] always goes to
    the transport, whatever the client has cached: when the transport
    returns, that is the only call, the client is left as it was and the
    transport's collection is returned. *)
Theorem cache_unused_without_support pf self device_path manager super_connect flag :
  BLEAK_HAS_SERVICE_CACHE_SUPPORT pf = true \/ IS_LINUX pf = false ->
  (forall device_path' manager',
     ServiceCacheConnect.connect pf self device_path manager super_connect flag
       = ServiceCacheConnect.connect pf self device_path' manager' super_connect flag) /\
  (BLEAK_HAS_SERVICE_CACHE_SUPPORT pf = true ->
     ServiceCache._cached_services
       (fst (ServiceCacheConnect.connect pf self device_path manager super_connect flag))
     = ServiceCache._cached_services self) /\
  (forall self1 super_get_services disconnect,
     (exists calls,
        fst (fst (ServiceCache.get_services pf self1 super_get_services disconnect))
          = ServiceCache.CallSuperGetServices :: calls) /\
     (forall s, super_get_services = Return s ->
        ServiceCache.get_services pf self1 super_get_services disconnect
          = ([ServiceCache.CallSuperGetServices], self1, Return s))).
Proof.
  intros Hpf.
  assert (forall self1, ServiceCache._has_service_cache pf self1 = None) as Hnone.
  { intros self1. unfold ServiceCache._has_service_cache, CAN_CACHE_SERVICES.
    destruct Hpf as [-> | ->]; [done|]. by rewrite andb_false_r. }
  split; [|split].
  - intros device_path' manager'. unfold ServiceCacheConnect.connect. by rewrite Hnone.
  - intros Hnative. unfold ServiceCacheConnect.connect. rewrite Hnone, Hnative.
    destruct super_connect as [[connected discovered]|e]; [|done].
    by rewrite andb_false_r.
  - intros self1 sup disc. unfold ServiceCache.get_services. rewrite Hnone. split.
    + destruct sup as [s|e]; [by eexists|].
      destruct (is_Exception _); by eexists.
    + by intros s ->.
Qed.

Lemma cache_unused_without_support_witness :
  ServiceCache.get_services MoreExamples.native_linux MoreExamples.warm_client
      (Return (Services ["180a"])) (Return tt)
    = ([ServiceCache.CallSuperGetServices], MoreExamples.warm_client,
       Return (Services ["180a"])).
Proof.
  destruct (cache_unused_without_support MoreExamples.native_linux
              MoreExamples.warm_client (Return Examples.hci0)
              (Return Examples.snapshot_threshold) (Return (true, None)) false)
    as (_ & _ & Hget).
  - left. reflexivity.
  - apply Hget. reflexivity.
Defined.

(** ** Cached services and a freshened device *)

Lemma seeds_app t1 t2 : seeds (t1 ++ t2) = (seeds t1 ++ seeds t2)%list.
Proof.
  induction t1 as [|ev t1 IH]; [done|].
  destruct ev; simpl; by rewrite ?IH.
Qed.

Lemma elem_of_seeds_app t1 t2 s :
  s ∈ seeds (t1 ++ t2) -> s ∈ seeds t1 \/ s ∈ seeds t2.
Proof. rewrite seeds_app. apply elem_of_app. Qed.

Lemma run_bind_seeds_all {A B} (Q : ServiceCollection -> Prop)
    (m : Run A) (f : A -> Run B) :
  (forall s, s ∈ seeds (fst m) -> Q s) ->
  (forall x, snd m = Return x -> forall s, s ∈ seeds (fst (f x)) -> Q s) ->
  forall s, s ∈ seeds (fst (m ≫= f)) -> Q s.
Proof.
  intros Hm Hf s. unfold mbind, Run_bind. destruct m as [t1 [x|e]]; simpl in *.
  - specialize (Hf x eq_refl s). destruct (f x) as [t2 r]. simpl in *.
    intros [Hs|Hs]%elem_of_seeds_app; auto.
  - apply Hm.
Qed.

Lemma build_client_seeds a st can_use dev :
  seeds (fst (build_client a st can_use dev)) =
    match cached_services a, client_class a with
    | Some s, ServiceCacheClient => if can_use then [s] else []
    | _, _ => []
    end.
Proof.
  unfold build_client, when, emit, mbind, mret, Run_bind, Run_ret.
  by destruct (disconnected_callback a), (cached_services a), (client_class a), can_use.
Qed.

Lemma close_stale_seeds pf env dev : seeds (fst (close_stale pf env dev)) = [].
Proof.
  unfold close_stale, when, emit, lift, mbind, Run_bind.
  destruct (if IS_LINUX pf then _ else _) as [[|]|e]; simpl; try done.
Qed.

Lemma attempt_connect_seeds a st c env : seeds (fst (attempt_connect a st c env)) = [].
Proof.
  unfold attempt_connect, when, emit, lift, mbind, mret, Run_bind, Run_ret.
  destruct (att_connect env) as [u|exc]; [done|].
  destruct (classify st exc) as [[st1 [|]]|]; try done;
    by destruct (_raise_if_needed _ _ _ _).
Qed.

Lemma current_device_can_use a st env d2 can_use :
  current_device a st env = Return (d2, can_use) ->
  can_use = true -> can_use_cached_services st = true.
Proof.
  unfold current_device, mbind, mret, Outcome_bind, Outcome_ret.
  destruct (freshen_ble_device _ _) as [[fresh|]|e]; [| |done].
  - by intros [= <- <-].
  - by intros [= <- <-].
Qed.

Lemma prepare_seeds pf a st env s :
  s ∈ seeds (fst (prepare pf a st env)) ->
  cached_services a = Some s /\ client_class a = ServiceCacheClient /\
  can_use_cached_services st = true.
Proof.
  unfold prepare. revert s.
  apply run_bind_seeds_all; [by intros s Hs%elem_of_nil|].
  intros [d2 can_use] Hcur. simpl in Hcur.
  apply run_bind_seeds_all; [by intros s Hs%elem_of_nil|].
  intros create _.
  apply run_bind_seeds_all.
  { intros s Hs. destruct create; [|by apply elem_of_nil in Hs].
    rewrite build_client_seeds in Hs.
    destruct (cached_services a) as [s0|]; [|by apply elem_of_nil in Hs].
    destruct (client_class a); [by apply elem_of_nil in Hs|].
    destruct can_use; [|by apply elem_of_nil in Hs].
    apply list_elem_of_singleton in Hs as ->.
    repeat split; try done. by eapply current_device_can_use. }
  intros c _.
  apply run_bind_seeds_all.
  { intros s. rewrite close_stale_seeds. by intros Hs%elem_of_nil. }
  intros _ _ s Hs. by apply elem_of_nil in Hs.
Qed.

Lemma prepare_can_use pf a st env t st' c :
  prepare pf a st env = (t, Return (st', c)) ->
  can_use_cached_services st' = true -> can_use_cached_services st = true.
Proof.
  unfold prepare.
  intros (t1 & [d2 can_use] & t2 & [Hcur ->]%lift_return & Hrest & ->)%run_bind_return.
  apply run_bind_return in Hrest as (t3 & create & t4 & _ & Hrest & ->).
  apply run_bind_return in Hrest as (t5 & client' & t6 & _ & Hrest & ->).
  apply run_bind_return in Hrest as (t7 & [] & t8 & _ & Hret & ->).
  unfold mret, Run_ret in Hret. injection Hret as <- <- <-. simpl.
  by eapply current_device_can_use.
Qed.

(** What one pass hands to [set_cached_services], and what it does to
    [can_use_cached_services]. *)
Lemma iteration_seeds pf a st env t r :
  iteration pf a st env = (t, r) ->
  (forall s, s ∈ seeds t ->
     cached_services a = Some s /\ client_class a = ServiceCacheClient /\
     can_use_cached_services st = true) /\
  (forall st', r = Return (Looping st') -> can_use_cached_services st' = true ->
     can_use_cached_services st = true).
Proof.
  unfold iteration.
  intros [(e & Hprep & ->)|(tp & [st0 c] & ta & Hprep & Hconn & ->)]%run_bind_cases.
  - split; [|done]. intros s Hs. apply (prepare_seeds pf a st env). by rewrite Hprep.
  - pose proof (attempt_connect_seeds a st0 c env) as Hac. rewrite Hconn in Hac.
    simpl in Hac. split.
    + intros s Hs. rewrite seeds_app, Hac, app_nil_r in Hs.
      apply (prepare_seeds pf a st env). by rewrite Hprep.
    + intros st' -> Hcan.
      apply attempt_connect_result in Hconn as (exc & backoff & _ & Hcls).
      apply classify_fields in Hcls as (_ & Hcu & _). rewrite Hcu in Hcan.
      by eapply prepare_can_use.
Qed.

Lemma loop_seeds pf a script :
  forall st t r,
    loop pf a script st = (t, r) ->
    (forall s, s ∈ seeds t ->
       cached_services a = Some s /\ client_class a = ServiceCacheClient /\
       can_use_cached_services st = true) /\
    (forall st', r = Return (Looping st') -> can_use_cached_services st' = true ->
       can_use_cached_services st = true).
Proof.
  induction script as [|env script IH]; intros st t r.
  { simpl. intros [= <- <-]. split; [by intros s Hs%elem_of_nil|]. by intros st' [= <-]. }
  simpl. intros [(e & Hit & ->)|(t1 & x & t2 & Hit & Hrest & ->)]%run_bind_cases.
  { apply iteration_seeds in Hit as [Hs _]. split; [exact Hs|done]. }
  apply iteration_seeds in Hit as [Hs Hcan].
  destruct x as [st1|c].
  - apply IH in Hrest as [Hs' Hcan']. split.
    + intros s [Hin|Hin]%elem_of_seeds_app.
      * by apply Hs.
      * destruct (Hs' s Hin) as (? & ? & ?). repeat split; try done. by apply (Hcan st1).
    + intros st' Hr Hst'. apply (Hcan st1); [done|]. by apply (Hcan' st').
  - unfold mret, Run_ret in Hrest. injection Hrest as <- <-. split; [|done].
    intros s Hin. rewrite app_nil_r in Hin. by apply Hs.
Qed.

(** X19.  Cached services are handed to a client only as the caller gave
    them, only to a [BleakClientWithServiceCache], and only while no pass
    has freshened the device: once [can_use_cached_services] is unset it
    stays unset, and no client built on a later pass of the same call is
    given cached services, even on passes that find nothing fresher. *)
Theorem cached_services_withheld pf a script1 script2 t1 st1 t r :
  establish_connection pf a script1 = (t1, Return (Looping st1)) ->
  establish_connection pf a (script1 ++ script2) = (t, r) ->
  exists t2,
    t = (t1 ++ t2)%list /\
    (forall s, s ∈ seeds t ->
       cached_services a = Some s /\ client_class a = ServiceCacheClient) /\
    (can_use_cached_services st1 = false ->
     seeds t2 = [] /\
     forall st, r = Return (Looping st) -> can_use_cached_services st = false).
Proof.
  unfold establish_connection. intros Hrun1 Hrun.
  rewrite (loop_app pf a _ _ _ _ _ Hrun1) in Hrun.
  destruct (loop pf a script2 st1) as [t2 r2] eqn:Hrun2. simpl in Hrun.
  injection Hrun as <- <-.
  exists t2. split; [done|].
  apply loop_seeds in Hrun1 as [Hs1 _]. apply loop_seeds in Hrun2 as [Hs2 Hcan2].
  split.
  - intros s [Hin|Hin]%elem_of_seeds_app.
    + by destruct (Hs1 s Hin) as (? & ? & _).
    + by destruct (Hs2 s Hin) as (? & ? & _).
  - intros Hoff. split.
    + destruct (seeds t2) as [|s l] eqn:Hseeds; [done|].
      destruct (Hs2 s) as (_ & _ & Hon); [by left|]. congruence.
    + intros st -> . destruct (can_use_cached_services st) eqn:Hst; [|done].
      rewrite (Hcan2 st eq_refl Hst) in Hoff. done.
Qed.

Lemma cached_services_withheld_witness :
  exists t2,
    seeds t2 = [] /\
    fst (establish_connection Examples.linux MoreExamples.caching_args
           ([MoreExamples.roaming_timeout] ++ [Examples.failing Examples.timeout]))
    = (fst (establish_connection Examples.linux MoreExamples.caching_args
              [MoreExamples.roaming_timeout]) ++ t2)%list.
Proof.
  edestruct (cached_services_withheld Examples.linux MoreExamples.caching_args
               [MoreExamples.roaming_timeout] [Examples.failing Examples.timeout])
    as (t2 & Ht & _ & Hoff).
  - vm_compute. reflexivity.
  - vm_compute. reflexivity.
  - destruct Hoff as [Hnone _]; [reflexivity|].
    exists t2. split; [exact Hnone|exact Ht].
Defined.

(** * Resolving the best path again *)

(** On an unchanged snapshot the sibling a scan adopted with a known
    strength rejects every candidate when the scan is started from it. *)
Lemma known_winner_resolves_to_none properties path rssi0 h p :
  (14 <= String.length path)%nat ->
  UNREACHABLE_RSSI <= rssi_or_unreachable rssi0 ->
  plausible_rssi properties path ->
  (forall own, device_record properties path = Some own ->
               rssi_or_unreachable (RSSI own) = rssi_or_unreachable rssi0) ->
  get_bluez_device (Return properties) path rssi0 = Return (Some h) ->
  details_path (details h) = Some p ->
  rssi h <> Some UNREACHABLE_RSSI ->
  get_bluez_device (Return properties) p (rssi h) = Return None.
Proof.
  intros Hlen Hr0 Hplausible Hfresh Hget Hp Hknown.
  apply get_bluez_device_handle in Hget
    as (rec & Hin & Hne & Hrec & Hsnd & -> & _).
  destruct (initial_bounds properties path rssi0 Hr0) as [Hd Hbounds].
  destruct (scan_strongest properties path _ Hd (_get_possible_paths path) _
              Hplausible Hbounds Hne) as [Hbeat Hmax].
  set (fin := scan _ _ _ _ _) in *. clearbody fin. destruct fin as [best r].
  cbn [details_path details rssi fst snd] in *. injection Hp as <-.
  assert (r <> UNREACHABLE_RSSI) as Hr by congruence.
  assert (initial_rssi properties best (Some r) = r) as Hinit.
  { unfold initial_rssi. rewrite Hrec. simpl. destruct (Z.eqb_spec r 0) as [H0|]; [|done].
    exfalso. apply (rssi_or_unreachable_nonzero (RSSI rec)). congruence. }
  apply get_bluez_device_none. rewrite Hinit.
  rewrite (possible_paths_of_sibling path best Hlen Hin).
  rewrite scan_all_rejected; [done|]. simpl.
  intros q rec' Hq Hq' Hrec'.
  destruct (candidate_rejected r r (RSSI rec')) eqn:Hrej; [done|]. exfalso.
  apply (candidate_accepted_iff _ _ _ Hr) in Hrej as (s & Hs & Hs0 & Hthr & _).
  assert (rssi_or_unreachable (RSSI rec') = s) as Hror.
  { rewrite Hs. simpl. by destruct (Z.eqb_spec s 0). }
  destruct (decide (q = path)) as [->|Hqp].
  - specialize (Hfresh rec' Hrec'). rewrite Hror in Hfresh.
    assert (initial_rssi properties path rssi0 = s) as Hd0.
    { unfold initial_rssi. by rewrite Hrec'. }
    destruct Hbeat; rssi_lia.
  - specialize (Hmax q rec' Hq Hqp Hrec'). rewrite Hror in Hmax. rssi_lia.
Qed.

(** Started from an unknown strength, or from a path without a record,
    the scan ends on a sibling as soon as one is present. *)
Lemma unknown_strength_takes_sibling properties path rssi0 p rec :
  rssi_or_unreachable rssi0 = UNREACHABLE_RSSI \/ device_record properties path = None ->
  p ∈ _get_possible_paths path -> p <> path ->
  device_record properties p = Some rec ->
  fst (scan properties path (initial_rssi properties path rssi0)
         (_get_possible_paths path) (path, initial_rssi properties path rssi0)) <> path.
Proof.
  intros Hunknown Hin Hne Hrec.
  assert (initial_rssi properties path rssi0 = UNREACHABLE_RSSI) as ->.
  { unfold initial_rssi. destruct Hunknown as [->| ->]; [|done].
    by destruct (device_record properties path). }
  apply scan_from_sentinel. by exists p, rec.
Qed.

(** C8, as stated, fails.  [hci0] at -40 is the best-signal path of the
    snapshot and its only sibling is at -90, yet resolving it without a
    signal strength returns the handle of the weaker sibling.  And where
    neither of two siblings reports a strength, each resolves to the
    other: resolving the returned handle returns a handle again. *)
Lemma unknown_strength_breaks_idempotence :
  device_record MoreExamples.snapshot_weaker_sibling hci0
    = Some (record "X" "x" (Some (-40))) /\
  device_record MoreExamples.snapshot_weaker_sibling hci1
    = Some (record "X" "x" (Some (-90))) /\
  get_bluez_device (Return MoreExamples.snapshot_weaker_sibling) hci0 None
    = Return (Some (handle hci1 (Some (-90)))) /\
  freshen_ble_device (Return MoreExamples.snapshot_silent) (handle hci0 None)
    = Return (Some (handle hci1 None)) /\
  freshen_ble_device (Return MoreExamples.snapshot_silent) (handle hci1 None)
    = Return (Some (handle hci0 None)).
Proof. repeat split; vm_compute; reflexivity. Qed.

(** C8.  [get_bluez_device] returns [None] whenever every present sibling
    is rejected against the original path, and a handle it does return is
    never one for the original path.  Whether the best-signal handle
    resolves to [None] depends on the strength passed in.  With a record
    at the original path and a known strength (not none, not 0, not the
    sentinel), a handle that no sibling with a non-zero strength exceeds
    by [RSSI_SWITCH_THRESHOLD] or more resolves to [None]; and on an
    unchanged snapshot (path of at least 14 characters, plausible
    strengths, original handle up to date) resolving a returned handle
    of known strength again gives [None], also through
    [freshen_ble_device].  With an unknown strength (none, 0 or the
    sentinel) or no record at the original path, a present sibling is
    adopted whatever its strength, and with complete records a handle for
    a sibling is returned: there resolution is not idempotent. *)
Theorem no_better_candidate_returns_none :
  (forall properties path rssi0,
     (forall p rec, p ∈ _get_possible_paths path -> p <> path ->
        device_record properties p = Some rec ->
        candidate_rejected (initial_rssi properties path rssi0)
          (initial_rssi properties path rssi0) (RSSI rec) = true) ->
     get_bluez_device (Return properties) path rssi0 = Return None) /\
  (forall properties path rssi0 h,
     get_bluez_device (Return properties) path rssi0 = Return (Some h) ->
     details_path (details h) <> Some path) /\
  (forall properties path r own,
     device_record properties path = Some own ->
     r <> 0 -> r <> UNREACHABLE_RSSI ->
     (forall p rec s, p ∈ _get_possible_paths path -> p <> path ->
        device_record properties p = Some rec -> RSSI rec = Some s ->
        s = 0 \/ s < r + RSSI_SWITCH_THRESHOLD) ->
     get_bluez_device (Return properties) path (Some r) = Return None) /\
  (forall properties path rssi0 h p,
     (14 <= String.length path)%nat ->
     UNREACHABLE_RSSI <= rssi_or_unreachable rssi0 ->
     plausible_rssi properties path ->
     (forall own, device_record properties path = Some own ->
                  rssi_or_unreachable (RSSI own) = rssi_or_unreachable rssi0) ->
     get_bluez_device (Return properties) path rssi0 = Return (Some h) ->
     details_path (details h) = Some p ->
     rssi h <> Some UNREACHABLE_RSSI ->
     get_bluez_device (Return properties) p (rssi h) = Return None /\
     freshen_ble_device (Return properties) h = Return None) /\
  (forall properties path rssi0 p rec,
     rssi_or_unreachable rssi0 = UNREACHABLE_RSSI \/
     device_record properties path = None ->
     p ∈ _get_possible_paths path -> p <> path ->
     device_record properties p = Some rec ->
     (forall q rec', q ∈ _get_possible_paths path ->
        device_record properties q = Some rec' ->
        is_Some (Address rec') /\ is_Some (Alias rec') /\
        exists md, manufacturer_bytes (default [] (ManufacturerData rec')) = Return md) ->
     exists h q,
       get_bluez_device (Return properties) path rssi0 = Return (Some h) /\
       details_path (details h) = Some q /\ q ∈ _get_possible_paths path /\ q <> path).
Proof.
  assert (forall properties path rssi0,
     (forall p rec, p ∈ _get_possible_paths path -> p <> path ->
        device_record properties p = Some rec ->
        candidate_rejected (initial_rssi properties path rssi0)
          (initial_rssi properties path rssi0) (RSSI rec) = true) ->
     get_bluez_device (Return properties) path rssi0 = Return None) as Hnone.
  { intros properties path rssi0 Hrej.
    apply get_bluez_device_none. by rewrite scan_all_rejected. }
  split; [done|]. split; [|split; [|split]].
  - intros properties path rssi0 h Hsome.
    apply get_bluez_device_some in Hsome as (Hne & rec & _ & Hdet & _).
    set (fin := scan _ _ _ _ _) in *. clearbody fin.
    rewrite Hdet. cbn [details_path]. intros [= Heq]. by apply Hne.
  - intros properties path r own Hown H0 Hsent Hweak.
    apply Hnone. intros p rec Hin Hne Hrec.
    assert (initial_rssi properties path (Some r) = r) as ->.
    { unfold initial_rssi. rewrite Hown. simpl. by destruct (Z.eqb_spec r 0). }
    destruct (candidate_rejected r r (RSSI rec)) eqn:Hrej; [done|].
    apply candidate_accepted_iff in Hrej as (s & Hs & H0s & Hd & _); [|done].
    destruct (Hweak p rec s Hin Hne Hrec Hs); [done|lia].
  - intros properties path rssi0 h p Hlen Hr0 Hplausible Hfresh Hget Hp Hknown.
    pose proof (known_winner_resolves_to_none properties path rssi0 h p
                  Hlen Hr0 Hplausible Hfresh Hget Hp Hknown) as Hagain.
    split; [exact Hagain|]. unfold freshen_ble_device. by rewrite Hp.
  - intros properties path rssi0 p rec Hunknown Hin Hne Hrec Hcomplete.
    pose proof (unknown_strength_takes_sibling properties path rssi0 p rec
                  Hunknown Hin Hne Hrec) as Hmoved.
    pose proof (scan_result_in properties path (initial_rssi properties path rssi0)
                  (_get_possible_paths path) (path, initial_rssi properties path rssi0))
      as Hwhere.
    destruct (get_bluez_device_cases properties path rssi0)
      as [[Heq _]|(rec' & _ & Hrec' & Hres)]; [done|].
    assert (forall h, get_bluez_device (Return properties) path rssi0 = Return (Some h) ->
              details_path (details h)
              = Some (fst (scan properties path (initial_rssi properties path rssi0)
                             (_get_possible_paths path)
                             (path, initial_rssi properties path rssi0)))) as Hpath.
    { intros h (_ & rec'' & _ & Hdet & _)%get_bluez_device_some.
      rewrite Hdet. reflexivity. }
    set (fin := scan _ _ _ _ _) in *. clearbody fin.
    destruct Hwhere as [Hsame|Hwhere]; [done|].
    destruct Hres as [[Hbad _]|[h Hsome]].
    + destruct (Hcomplete (fst fin) rec' Hwhere Hrec') as ([a Ha] & [n Hn] & md & Hmd).
      destruct Hbad as [?|[?|[e He]]]; congruence.
    + exists h, (fst fin). split; [done|]. split; [by apply Hpath|].
      split; [exact Hwhere|exact Hmoved].
Qed.

Lemma no_better_candidate_returns_none_witness :
  get_bluez_device (Return snapshot_best) hci0 (Some (-60)) = Return None /\
  freshen_ble_device (Return snapshot_threshold) (handle hci1 (Some (-54)))
    = Return None /\
  exists h q,
    get_bluez_device (Return MoreExamples.snapshot_weaker_sibling) hci0 None
      = Return (Some h) /\
    details_path (details h) = Some q /\ q <> hci0.
Proof.
  destruct no_better_candidate_returns_none as (_ & _ & Hbest & Hagain & Hunknown).
  split; [|split].
  - apply (Hbest snapshot_best hci0 (-60) (record "X" "x" (Some (-60)))).
    + vm_compute. reflexivity.
    + lia.
    + unfold UNREACHABLE_RSSI. lia.
    + intros q rec s Hq Hne Hrec Hs. unfold RSSI_SWITCH_THRESHOLD.
      each_possible_path Hq; try (exfalso; apply Hne; reflexivity);
        vm_compute in Hrec; try discriminate Hrec.
      injection Hrec as <-. simpl in Hs. injection Hs as <-. right. lia.
  - apply (Hagain snapshot_threshold hci0 (Some (-60)) (handle hci1 (Some (-54))) hci1).
    + vm_compute. lia.
    + vm_compute. discriminate.
    + exact snapshot_threshold_plausible.
    + intros own Hown. vm_compute in Hown. injection Hown as <-. reflexivity.
    + vm_compute. reflexivity.
    + reflexivity.
    + vm_compute. discriminate.
  - destruct (Hunknown MoreExamples.snapshot_weaker_sibling hci0 None hci1
                (record "X" "x" (Some (-90))))
      as (h & q & Hget & Hq & _ & Hne).
    + left. reflexivity.
    + apply elem_of_possible_paths. exists 1%nat. split; [lia|reflexivity].
    + discriminate.
    + vm_compute. reflexivity.
    + intros q rec' Hq Hrec'.
      each_possible_path Hq; vm_compute in Hrec'; try discriminate Hrec';
        injection Hrec' as <-; (split; [by eexists|]); (split; [by eexists|]);
        by eexists.
    + by exists h, q.
Defined.
